(** * Brief2Check: the extraction / validation / normalisation pipeline,
      the task store and the export formatter

    A shallow embedding of the functions of [src/index.js], of the browser
    half of [server.js] and of the error replies of the two request
    handlers (the one of [server.js], which calls the OpenAI API, and the
    one of the server file that calls the Gemini API), followed by the
    properties the design document states about them.

    Modelling conventions.
    - A JavaScript string is the list of its UTF-16 code units ([jstring]).
    - A JavaScript value is a [JSValue]: the JSON values, [undefined], and
      arrays that may have holes and named (non-index) properties, since the
      store operations can create both.
    - An object is the list of its own enumerable properties in [for-in]
      order, with pairwise distinct keys, and its prototype is
      [Object.prototype].  Where the source reads or writes a property
      under a name it did not take from the object's own keys, the members
      of [Object.prototype] are accounted for: a read finds them, and an
      assignment to [__proto__] replaces the prototype instead of
      creating a property.  The object that results from such an
      assignment is no [JSValue]; it is a [Reparented] [Collection].
    - Numbers are the integer-valued ones, carried as [Z].
    - The module-level variable [currentData] is threaded explicitly: a store
      operation takes the old value and returns the new one.  DOM updates
      are not part of the state. *)

From Stdlib Require Import ZArith NArith Lia Strings.String Strings.Ascii Decimal.
From stdpp Require Import base numbers list option.

Local Open Scope Z_scope.

(* ===================================================================== *)
(** ** Strings *)
(* ===================================================================== *)

Abbreviation jstring := (list N).

(** Code units of an ASCII literal. *)
Fixpoint u (s : String.string) : jstring :=
  match s with
  | EmptyString => []
  | String c r => N_of_ascii c :: u r
  end.

Definition dquote : N := 34%N.
Definition backtick : N := 96%N.
Definition lbrace : N := 123%N.
Definition rbrace : N := 125%N.
Definition newline : N := 10%N.

(** WhiteSpace and LineTerminator code units: what [String.prototype.trim]
    strips and what [\s] matches. *)
Definition is_ws (c : N) : bool :=
  ((9 <=? c) && (c <=? 13) || (c =? 32) || (c =? 160) || (c =? 5760)
   || (8192 <=? c) && (c <=? 8202) || (c =? 8232) || (c =? 8233)
   || (c =? 8239) || (c =? 8287) || (c =? 12288) || (c =? 65279))%N.

Fixpoint trimStart (s : jstring) : jstring :=
  match s with
  | [] => []
  | c :: r => if is_ws c then trimStart r else s
  end.

Definition trimEnd (s : jstring) : jstring := reverse (trimStart (reverse s)).

Definition trim (s : jstring) : jstring := trimEnd (trimStart s).

Fixpoint indexOf_from (c : N) (s : jstring) (i : Z) : Z :=
  match s with
  | [] => -1
  | x :: r => if (x =? c)%N then i else indexOf_from c r (i + 1)
  end.

(** [s.indexOf(c)] for a one-unit pattern; [-1] when absent. *)
Definition indexOf (c : N) (s : jstring) : Z := indexOf_from c s 0.

Fixpoint lastIndexOf_from (c : N) (s : jstring) (i acc : Z) : Z :=
  match s with
  | [] => acc
  | x :: r => lastIndexOf_from c r (i + 1) (if (x =? c)%N then i else acc)
  end.

(** [s.lastIndexOf(c)]; [-1] when absent. *)
Definition lastIndexOf (c : N) (s : jstring) : Z := lastIndexOf_from c s 0 (-1).

(** [s.substring(a, b)]: both bounds clamped to [0, length], swapped when
    out of order. *)
Definition substring (s : jstring) (a b : Z) : jstring :=
  let len := Z.of_nat (length s) in
  let a' := Z.min (Z.max a 0) len in
  let b' := Z.min (Z.max b 0) len in
  let lo := Z.min a' b' in
  let hi := Z.max a' b' in
  take (Z.to_nat (hi - lo)) (drop (Z.to_nat lo) s).

Fixpoint uint_units (d : Decimal.uint) : jstring :=
  match d with
  | Nil => []
  | D0 r => 48%N :: uint_units r
  | D1 r => 49%N :: uint_units r
  | D2 r => 50%N :: uint_units r
  | D3 r => 51%N :: uint_units r
  | D4 r => 52%N :: uint_units r
  | D5 r => 53%N :: uint_units r
  | D6 r => 54%N :: uint_units r
  | D7 r => 55%N :: uint_units r
  | D8 r => 56%N :: uint_units r
  | D9 r => 57%N :: uint_units r
  end.

(** Decimal rendering of an integer-valued number. *)
Definition Number_toString (z : Z) : jstring :=
  if z <? 0 then 45%N :: uint_units (N.to_uint (Z.to_N (- z)))
  else uint_units (N.to_uint (Z.to_N z)).

Fixpoint starts_with (p s : jstring) : bool :=
  match p, s with
  | [], _ => true
  | _ :: _, [] => false
  | a :: p', b :: s' => (a =? b)%N && starts_with p' s'
  end.

(* ===================================================================== *)
(** ** Values *)
(* ===================================================================== *)

#[local] Unset Elimination Schemes.
Inductive JSValue : Type :=
| JUndefined
| JNull
| JBool (b : bool)
| JNum (z : Z)
| JStr (s : jstring)
| JArr (elems : list (option JSValue)) (named : list (jstring * JSValue))
| JObj (props : list (jstring * JSValue)).
#[local] Set Elimination Schemes.

(** Thrown values: [new Error(message)], or the engine's [TypeError]. *)
Inductive JSError : Type :=
| Error (message : jstring)
| TypeError.

Inductive Completion (A : Type) : Type :=
| Return (a : A)
| Throw (e : JSError).
Arguments Return {A} a.
Arguments Throw {A} e.

Definition jstring_eqb (a b : jstring) : bool := bool_decide (a = b).

(** ToBoolean. *)
Definition truthy (v : JSValue) : bool :=
  match v with
  | JUndefined | JNull => false
  | JBool b => b
  | JNum z => negb (z =? 0)
  | JStr s => match s with [] => false | _ => true end
  | JArr _ _ | JObj _ => true
  end.

Definition typeof (v : JSValue) : jstring :=
  match v with
  | JUndefined => u "undefined"
  | JNull => u "object"
  | JBool _ => u "boolean"
  | JNum _ => u "number"
  | JStr _ => u "string"
  | JArr _ _ | JObj _ => u "object"
  end.

Definition typeof_is_object (v : JSValue) : bool :=
  match v with
  | JNull | JArr _ _ | JObj _ => true
  | _ => false
  end.

Definition typeof_is_string (v : JSValue) : bool :=
  match v with JStr _ => true | _ => false end.

Definition isArray (v : JSValue) : bool :=
  match v with JArr _ _ => true | _ => false end.

Definition is_null (v : JSValue) : bool :=
  match v with JNull => true | _ => false end.

(** [v === true]. *)
Definition strict_true (v : JSValue) : bool :=
  match v with JBool true => true | _ => false end.

(** Own-property lookup in a property list. *)
Fixpoint assoc (k : jstring) (ps : list (jstring * JSValue)) : option JSValue :=
  match ps with
  | [] => None
  | (k', v) :: r => if jstring_eqb k' k then Some v else assoc k r
  end.

(** Assignment to a property: an existing key keeps its place, a new key
    is created last.  (An engine enumerates a new integer-like key before
    the other keys; nothing below depends on where a new key is listed.) *)
Fixpoint assoc_set (k : jstring) (x : JSValue) (ps : list (jstring * JSValue))
  : list (jstring * JSValue) :=
  match ps with
  | [] => [(k, x)]
  | (k', v) :: r =>
      if jstring_eqb k' k then (k, x) :: r else (k', v) :: assoc_set k x r
  end.

(** [o[k]] / [o.k] on an object or array, for a name that is not an index. *)
Definition get (o : JSValue) (k : jstring) : JSValue :=
  match o with
  | JObj ps | JArr _ ps => default JUndefined (assoc k ps)
  | _ => JUndefined
  end.

(** [k in o]. *)
Definition has (o : JSValue) (k : jstring) : bool :=
  match o with
  | JObj ps | JArr _ ps => bool_decide (is_Some (assoc k ps))
  | _ => false
  end.

(** [o[k] = x] / [o.k = x]. *)
Definition set (o : JSValue) (k : jstring) (x : JSValue) : JSValue :=
  match o with
  | JObj ps => JObj (assoc_set k x ps)
  | JArr es ps => JArr es (assoc_set k x ps)
  | _ => o
  end.

(** The names every object inherits from [Object.prototype]: its methods
    and the accessor [__proto__]. *)
Definition proto_key : jstring := u "__proto__".

Definition Object_prototype_names : list jstring :=
  [u "constructor"; u "__defineGetter__"; u "__defineSetter__";
   u "hasOwnProperty"; u "__lookupGetter__"; u "__lookupSetter__";
   u "isPrototypeOf"; u "propertyIsEnumerable"; u "toString"; u "valueOf";
   proto_key; u "toLocaleString"].

(** [o[k]] finds no property of [o]'s own but a member of
    [Object.prototype]: a function or, under [__proto__], the prototype
    object itself.  Either is truthy and is no array. *)
Definition reads_inherited (o : JSValue) (k : jstring) : bool :=
  match o with
  | JObj ps =>
      bool_decide (assoc k ps = None) && bool_decide (k ∈ Object_prototype_names)
  | _ => false
  end.

(** What a function that builds or updates the collection leaves behind: a
    value of the model, or an object whose prototype an assignment to
    [__proto__] has replaced, given by that prototype and by its own
    properties. *)
Inductive Collection : Type :=
| Ordinary (value : JSValue)
| Reparented (prototype : JSValue) (own : list (jstring * JSValue)).

(** An array index is an integer in [0, 2^32 - 2]; any other number used as
    a subscript is an ordinary property name. *)
Definition is_array_index (i : Z) : bool := (0 <=? i) && (i <? 4294967295).

(** [a[i]] on an array. *)
Definition get_index (a : JSValue) (i : Z) : JSValue :=
  match a with
  | JArr es ps =>
      if is_array_index i
      then default JUndefined (mjoin (es !! Z.to_nat i))
      else default JUndefined (assoc (Number_toString i) ps)
  | _ => JUndefined
  end.

(** [a[i] = x] on an array: a write past the end extends the array and
    leaves holes in between. *)
Definition set_index (a : JSValue) (i : Z) (x : JSValue) : JSValue :=
  match a with
  | JArr es ps =>
      if is_array_index i
      then
        let n := Z.to_nat i in
        if bool_decide (n < length es)%nat
        then JArr (<[n := Some x]> es) ps
        else JArr (es ++ replicate (n - length es) None ++ [Some x]) ps
      else JArr es (assoc_set (Number_toString i) x ps)
  | _ => a
  end.

(** [a.push(x)]. *)
Definition push (a : JSValue) (x : JSValue) : JSValue :=
  match a with
  | JArr es ps => JArr (es ++ [Some x]) ps
  | _ => a
  end.

(** [a.splice(start, 1)]: a negative start counts from the end, both ends
    are clamped, and at most one element is deleted. *)
Definition splice1 (a : JSValue) (start : Z) : JSValue :=
  match a with
  | JArr es ps =>
      let len := Z.of_nat (length es) in
      let actualStart := if start <? 0 then Z.max (len + start) 0 else Z.min start len in
      let deleteCount := Z.min (Z.max 1 0) (len - actualStart) in
      JArr (take (Z.to_nat actualStart) es
              ++ drop (Z.to_nat (actualStart + deleteCount)) es) ps
  | _ => a
  end.

(** [a.map(f)]: holes are skipped and stay holes; the result is a fresh
    array without named properties. *)
Definition array_map (f : JSValue -> JSValue) (es : list (option JSValue))
  : list (option JSValue) := map (option_map f) es.

(** [a.every(p)]: holes are skipped. *)
Definition array_every (p : JSValue -> bool) (es : list (option JSValue)) : bool :=
  forallb (fun e => match e with Some x => p x | None => true end) es.

Fixpoint join_with (sep : jstring) (parts : list jstring) : jstring :=
  match parts with
  | [] => []
  | [p] => p
  | p :: r => p ++ sep ++ join_with sep r
  end.

(** ToString.  An array joins its elements with commas, rendering holes,
    [undefined] and [null] as the empty string. *)
Fixpoint ToString (v : JSValue) : jstring :=
  match v with
  | JUndefined => u "undefined"
  | JNull => u "null"
  | JBool true => u "true"
  | JBool false => u "false"
  | JNum z => Number_toString z
  | JStr s => s
  | JArr es _ =>
      join_with (u ",")
        ((fix parts (l : list (option JSValue)) : list jstring :=
            match l with
            | [] => []
            | e :: r =>
                match e with
                | None | Some JUndefined | Some JNull => []
                | Some x => ToString x
                end :: parts r
            end) es)
  | JObj _ => u "[object Object]"
  end.

(* ===================================================================== *)
(** ** Response extractor *)
(* ===================================================================== *)

(** Backtracking matchers in continuation-passing style, one per regular
    expression construct used by the extractor.  A matcher receives the
    rest of the pattern as [k] and the rest of the input; [None] makes the
    caller try its next alternative. *)
Section Regex.
Context {A : Type}.

(** A literal. *)
Definition lit (p : jstring) (k : jstring -> option A) (s : jstring) : option A :=
  if starts_with p s then k (drop (length p) s) else None.

(** [(?:r)?]: greedy, so [r] is tried before skipping it. *)
Definition opt_greedy (r : (jstring -> option A) -> jstring -> option A)
    (k : jstring -> option A) (s : jstring) : option A :=
  match r k s with
  | Some a => Some a
  | None => k s
  end.

(** [c*] over a character class: the longest run first, then shorter. *)
Fixpoint star_greedy (c : N -> bool) (k : jstring -> option A) (s : jstring)
  : option A :=
  match s with
  | x :: r =>
      if c x
      then match star_greedy c k r with
           | Some a => Some a
           | None => k s
           end
      else k s
  | [] => k s
  end.

(** [(c*?)]: a capturing lazy star; the shortest run first, then longer. *)
Fixpoint star_lazy_capture (c : N -> bool)
    (k : jstring -> jstring -> option A) (cap s : jstring) : option A :=
  match k cap s with
  | Some a => Some a
  | None =>
      match s with
      | x :: r => if c x then star_lazy_capture c k (cap ++ [x]) r else None
      | [] => None
      end
  end.
End Regex.

Definition fence : jstring := [backtick; backtick; backtick].

(** [/```(?:json)?\s*([\s\S]*?)\s*```/] anchored at the head of [s]; the
    result is capture group 1. *)
Definition fence_regex_at (s : jstring) : option jstring :=
  lit fence
    (opt_greedy (lit (u "json"))
       (star_greedy is_ws
          (star_lazy_capture (fun _ => true)
             (fun cap => star_greedy is_ws (lit fence (fun _ => Some cap)))
             [])))
    s.

(** [s.match(/```(?:json)?\s*([\s\S]*?)\s*```/)]: the leftmost position at
    which the pattern matches wins; [None] is JavaScript's [null]. *)
Fixpoint fence_regex_match (s : jstring) : option jstring :=
  match fence_regex_at s with
  | Some cap => Some cap
  | None =>
      match s with
      | [] => None
      | _ :: r => fence_regex_match r
      end
  end.

Module index_js.

(** [extractJsonFromResponse] of src/index.js. *)
Definition extractJsonFromResponse (responseText : JSValue) : Completion jstring :=
  match responseText with
  | JStr text =>
      if negb (truthy responseText)
      then Throw (Error (u "Invalid response: expected string content"))
      else
        let jsonString := trim text in
        let jsonString :=
          match fence_regex_match jsonString with
          | Some group1 => trim group1
          | None => jsonString
          end in
        let firstBrace := indexOf lbrace jsonString in
        let lastBrace := lastIndexOf rbrace jsonString in
        if negb (firstBrace =? -1) && negb (lastBrace =? -1)
           && (firstBrace <? lastBrace)
        then Return (substring jsonString firstBrace (lastBrace + 1))
        else Return jsonString
  | _ => Throw (Error (u "Invalid response: expected string content"))
  end.

End index_js.

Module server_js.

(** [extractJsonFromResponse] of the request handler's half of server.js. *)
Definition extractJsonFromResponse_handler (responseText : jstring) : jstring :=
  let jsonString := trim responseText in
  match fence_regex_match jsonString with
  | Some group1 => trim group1
  | None => jsonString
  end.

(** [extractJsonFromResponse] of the browser half of server.js. *)
Definition extractJsonFromResponse (text : jstring) : Completion jstring :=
  let firstBrace := indexOf lbrace text in
  let lastBrace := lastIndexOf rbrace text in
  if (firstBrace =? -1) || (lastBrace =? -1) || (lastBrace <=? firstBrace)
  then Throw (Error (u "No JSON object found in Gemini response"))
  else Return (substring text firstBrace (lastBrace + 1)).

End server_js.

(* ===================================================================== *)
(** ** Schema validator *)
(* ===================================================================== *)

(** The object [{ isValid, error }]; [error = None] is [null]. *)
Record ValidationResult : Type := mkValidation {
  isValid : bool;
  error : option jstring
}.

Definition invalid (message : jstring) : ValidationResult :=
  {| isValid := false; error := Some message |}.

Definition valid : ValidationResult := {| isValid := true; error := None |}.

Definition msg_expected_object : jstring :=
  u "Invalid response: expected an object with department keys".

Definition msg_not_array (key : jstring) (type : jstring) : jstring :=
  u "Invalid structure: department " ++ [dquote] ++ key ++ [dquote]
    ++ u " should be an array, got " ++ type.

Definition msg_non_string (key : jstring) : jstring :=
  u "Invalid structure: department " ++ [dquote] ++ key ++ [dquote]
    ++ u " contains non-string items".

Definition msg_no_departments : jstring :=
  u "Invalid response: no departments found in the response".

(** [value.every(task => typeof task === 'string')]. *)
Definition every_string (value : JSValue) : bool :=
  match value with
  | JArr es _ => array_every typeof_is_string es
  | _ => true
  end.

(** The [for (const key in data)] loop of [validateJsonStructure]; [Some r]
    is an early [return r]. *)
Fixpoint validate_loop (entries : list (jstring * JSValue)) : option ValidationResult :=
  match entries with
  | [] => None
  | (key, value) :: rest =>
      if negb (isArray value)
      then Some (invalid (msg_not_array key (typeof value)))
      else if negb (every_string value)
      then Some (invalid (msg_non_string key))
      else validate_loop rest
  end.

(** [validateJsonStructure]. *)
Definition validateJsonStructure (data : JSValue) : ValidationResult :=
  if negb (truthy data) || negb (typeof_is_object data) || isArray data
  then invalid msg_expected_object
  else
    match data with
    | JObj entries =>
        match validate_loop entries with
        | Some r => r
        | None =>
            if (length entries =? 0)%nat
            then invalid msg_no_departments
            else valid
        end
    | _ => invalid msg_expected_object
    end.

(* ===================================================================== *)
(** ** Task normaliser *)
(* ===================================================================== *)

Definition text_key : jstring := u "text".
Definition completed_key : jstring := u "completed".

(** The literal [{ text: t, completed: c }]. *)
Definition task_literal (t : JSValue) (c : bool) : JSValue :=
  JObj [(text_key, t); (completed_key, JBool c)].

(** [a || b]. *)
Definition js_or (a b : JSValue) : JSValue := if truthy a then a else b.

(** [typeof task === 'object' && task !== null && 'text' in task]. *)
Definition is_task_object (task : JSValue) : bool :=
  typeof_is_object task && negb (is_null task) && has task text_key.

(** The callback handed to [map] in [convertTasksToObjects]. *)
Definition convert_task (task : JSValue) : JSValue :=
  if is_task_object task
  then task_literal (js_or (get task text_key) (JStr [])) (strict_true (get task completed_key))
  else if typeof_is_string task
  then task_literal task false
  else task_literal (JStr (ToString task)) false.

(** Keys and values visited by [for (k in v)] together with [v[k]]: the
    filled index slots of an array in ascending order, then the named
    properties. *)
Fixpoint index_entries (es : list (option JSValue)) (i : Z) : list (jstring * JSValue) :=
  match es with
  | [] => []
  | None :: r => index_entries r (i + 1)
  | Some x :: r => (Number_toString i, x) :: index_entries r (i + 1)
  end.

Definition own_enumerable (v : JSValue) : list (jstring * JSValue) :=
  match v with
  | JObj ps => ps
  | JArr es ps => index_entries es 0 ++ ps
  | _ => []
  end.

Definition convert_department (value : JSValue) : JSValue :=
  match value with
  | JArr es _ => JArr (array_map convert_task es) []
  | _ => JArr [] []
  end.

(** [convertTasksToObjects].  The loop assigns each visited key once to the
    fresh object [converted], so [converted] lists the keys in the order in
    which the loop visits them.  The assignment under the key [__proto__]
    (which [JSON.parse] creates as an ordinary own key) does not create a
    property: it makes the converted array the prototype of [converted]. *)
Definition convertTasksToObjects (data : JSValue) : Collection :=
  if negb (truthy data) || negb (typeof_is_object data)
  then Ordinary data
  else
    let visited := own_enumerable data in
    let own :=
      map (fun kv => (kv.1, convert_department kv.2))
        (List.filter (fun kv => negb (jstring_eqb kv.1 proto_key)) visited) in
    match assoc proto_key visited with
    | Some value => Reparented (convert_department value) own
    | None => Ordinary (JObj own)
    end.

(* ===================================================================== *)
(** ** Task store *)
(* ===================================================================== *)

(** The callback handed to [map] in [validateDataStructure]. *)
Definition heal_task (task : JSValue) : JSValue :=
  if is_task_object task
  then task_literal (js_or (get task text_key) (JStr [])) (strict_true (get task completed_key))
  else task_literal (if typeof_is_string task then task else JStr (ToString task)) false.

Definition heal_department (value : JSValue) : JSValue :=
  match value with
  | JArr es _ => JArr (array_map heal_task es) []
  | _ => JArr [] []
  end.

(** [validateDataStructure]: [currentData] holds [null] or an object. *)
Definition validateDataStructure (currentData : JSValue) : JSValue :=
  if negb (truthy currentData) then currentData
  else
    match currentData with
    | JObj ps => JObj (map (fun kv => (kv.1, heal_department kv.2)) ps)
    | _ => currentData
    end.

(** What [renderDepartmentGroups(currentData)] does to [currentData]: it
    returns early on an empty collection and otherwise runs
    [validateDataStructure]. *)
Definition renderDepartmentGroups (currentData : JSValue) : JSValue :=
  if negb (truthy currentData) || (length (own_enumerable currentData) =? 0)%nat
  then currentData
  else validateDataStructure currentData.

(** The statements of [updateTaskTextInData] after its guard, on a store
    that keeps its prototype.  A member of [Object.prototype] read under
    [department] is no array, as is the [undefined] that [get] returns for
    it, so the department is then created as an empty array. *)
Definition updateTaskText_steps (currentData : JSValue)
    (department : jstring) (index : Z) (text : jstring) : JSValue :=
  let cd1 :=
    if negb (isArray (get currentData department))
    then set currentData department (JArr [] [])
    else currentData in
  let slot := get_index (get cd1 department) index in
  let cd2 :=
    if negb (truthy slot) || negb (typeof_is_object slot)
    then set cd1 department
           (set_index (get cd1 department) index (task_literal (JStr []) false))
    else cd1 in
  let arr := get cd2 department in
  let cd3 :=
    set cd2 department
      (set_index arr index (set (get_index arr index) text_key (JStr text))) in
  validateDataStructure cd3.

(** The same statements where [department] is [__proto__] and the store
    has no key of that name: [currentData.__proto__ = []] makes a fresh
    array the prototype of the store, the slot is written into that
    array, and the [for-in] loop of [validateDataStructure] then visits,
    after the store's own keys, the enumerable key of that array, whose
    value is no array and is therefore replaced by an own empty array. *)
Definition updateTaskText_reparent (own : list (jstring * JSValue))
    (index : Z) (text : jstring) : Collection :=
  let proto := set_index (JArr [] []) index (task_literal (JStr []) false) in
  let proto :=
    set_index proto index (set (get_index proto index) text_key (JStr text)) in
  let inherited :=
    List.filter (fun kv => negb (bool_decide (is_Some (assoc kv.1 own))))
      (own_enumerable proto) in
  Reparented proto
    (map (fun kv => (kv.1, heal_department kv.2)) (own ++ inherited)).

(** [updateTaskTextInData].  The guard reads [currentData[department]],
    which also finds the members of [Object.prototype]. *)
Definition updateTaskTextInData (currentData : JSValue)
    (department : jstring) (index : Z) (text : jstring) : Collection :=
  if negb (truthy currentData)
     || negb (truthy (get currentData department)
              || reads_inherited currentData department)
  then Ordinary currentData
  else if reads_inherited currentData department && jstring_eqb department proto_key
  then updateTaskText_reparent (own_enumerable currentData) index text
  else Ordinary (updateTaskText_steps currentData department index text).

(** [updateTaskCompletionInData].  Its guard reads the members of
    [Object.prototype] as that of [updateTaskTextInData] does.  Under the
    name [__proto__], for a store without such a key, the source would
    replace the store's prototype; the definition does not follow it
    there, and no checkbox listener passes that name. *)
Definition updateTaskCompletionInData (currentData : JSValue)
    (department : jstring) (index : Z) (completed : JSValue) : JSValue :=
  if negb (truthy currentData)
     || negb (truthy (get currentData department)
              || reads_inherited currentData department)
  then currentData
  else
    let cd1 :=
      if negb (isArray (get currentData department))
      then set currentData department (JArr [] [])
      else currentData in
    let slot := get_index (get cd1 department) index in
    let cd2 :=
      if negb (truthy slot) || negb (typeof_is_object slot)
      then set cd1 department
             (set_index (get cd1 department) index
                (task_literal (js_or slot (JStr [])) false))
      else cd1 in
    let arr := get cd2 department in
    set cd2 department
      (set_index arr index
         (set (get_index arr index) completed_key (JBool (strict_true completed)))).

(** [task && typeof task === 'object' && task.completed === true]. *)
Definition counts_as_completed (task : JSValue) : bool :=
  truthy task && typeof_is_object task && strict_true (get task completed_key).

Definition count_department (value : JSValue) : Z * Z :=
  match value with
  | JArr es _ =>
      fold_left
        (fun acc e =>
           match e with
           | Some task =>
               (if counts_as_completed task then acc.1 + 1 else acc.1, acc.2 + 1)
           | None => acc
           end) es (0, 0)
  | _ => (0, 0)
  end.

(** [calculateProgress]: the pair [(completed, total)]. *)
Definition calculateProgress (currentData : JSValue) : Z * Z :=
  if negb (truthy currentData) then (0, 0)
  else
    fold_left
      (fun acc kv =>
         let c := count_department kv.2 in (acc.1 + c.1, acc.2 + c.2))
      (own_enumerable currentData) (0, 0).

(** [removeTask].  A member of [Object.prototype] read under
    [department] is no array, so the call returns as for the [undefined]
    that [get] returns. *)
Definition removeTask (currentData : JSValue) (department : jstring) (index : Z)
  : JSValue :=
  if negb (truthy currentData) || negb (truthy (get currentData department))
     || negb (isArray (get currentData department))
  then currentData
  else
    renderDepartmentGroups
      (set currentData department (splice1 (get currentData department) index)).

(** [addTask]: the value the call evaluates to, and the new [currentData].
    The function body has no [return] statement.  A member of
    [Object.prototype] read under [department] is truthy and no array, so
    the department is created as for the [undefined] that [get] returns.
    Under the name [__proto__], for a store without such a key, the source
    would replace the store's prototype; the definition does not follow it
    there, and no add control passes that name. *)
Definition addTask (currentData : JSValue) (department : jstring)
  : JSValue * JSValue :=
  let cd0 := if negb (truthy currentData) then JObj [] else currentData in
  let cd1 :=
    if negb (truthy (get cd0 department))
    then set cd0 department (JArr [] []) else cd0 in
  let cd2 :=
    if negb (isArray (get cd1 department))
    then set cd1 department (JArr [] []) else cd1 in
  let cd3 :=
    set cd2 department (push (get cd2 department) (task_literal (JStr []) false)) in
  (JUndefined, renderDepartmentGroups cd3).

(* ===================================================================== *)
(** ** Export formatter *)
(* ===================================================================== *)

Definition status_completed : jstring := [10004%N; 65039%N] ++ u " Completed".
Definition status_in_progress : jstring := [9203%N] ++ u " In progress".

(** The two template lines one task adds to [exportText]. *)
Definition export_task_lines (task : JSValue) (index : Z) : jstring :=
  let taskObj :=
    if is_task_object task then task
    else task_literal (if typeof_is_string task then task else JStr (ToString task)) false in
  let status :=
    if strict_true (get taskObj completed_key)
    then status_completed else status_in_progress in
  (Number_toString (index + 1) ++ u ". " ++ ToString (get taskObj text_key) ++ [newline])
    ++ (u "   Status: " ++ status ++ [newline; newline]).

(** [tasks.forEach((task, index) => ...)]: holes are skipped, the index
    still counts them. *)
Fixpoint export_forEach (es : list (option JSValue)) (index : Z) (exportText : jstring)
  : jstring :=
  match es with
  | [] => exportText
  | None :: r => export_forEach r (index + 1) exportText
  | Some task :: r =>
      export_forEach r (index + 1) (exportText ++ export_task_lines task index)
  end.

Section Formatter.
(** The clock value read by [new Date()] and its rendering by
    [toLocaleTimeString('en-US', { hour: 'numeric', minute: '2-digit',
    hour12: true })], which the host's locale data determines. *)
Variable Date : Type.
Variable toLocaleTimeString : Date -> jstring.

(** [generateExportText], with the clock reading made a parameter. *)
Definition generateExportText (currentData : JSValue) (now : Date)
    (department : jstring) : jstring :=
  if negb (truthy currentData) || negb (truthy (get currentData department))
     || negb (isArray (get currentData department))
  then []
  else
    match get currentData department with
    | JArr tasks _ =>
        if (length tasks =? 0)%nat then []
        else
          let timeString := toLocaleTimeString now in
          let exportText := department ++ [newline] in
          let exportText :=
            exportText ++ (u "Status as of " ++ timeString ++ [newline; newline]) in
          trim (export_forEach tasks 0 exportText)
    | _ => []
    end.
End Formatter.

(* ===================================================================== *)
(** ** Transport errors *)
(* ===================================================================== *)

Definition msg_auth : jstring := u "Invalid API key. Please check server configuration.".
Definition msg_rate_limit : jstring := u "Rate limit exceeded. Please try again later.".
Definition msg_server : jstring := u "Server error. Please try again later.".

Definition msg_request_failed (status : Z) : jstring :=
  u "Request failed with status " ++ Number_toString status.

(** [response.ok]. *)
Definition response_ok (status : Z) : bool := (200 <=? status) && (status <=? 299).

(** The [if (!response.ok) { ... }] block of [parseInstructions]: [None]
    when the block is skipped, otherwise what it throws.  [body] is the
    outcome of [response.json()], [None] when that promise rejects. *)
Definition parseInstructions_failure (status : Z) (body : option JSValue)
  : option JSError :=
  if response_ok status then None
  else
    let errorData := default (JObj []) body in
    match errorData with
    | JUndefined | JNull => Some TypeError
    | _ =>
        let errorMessage := js_or (get errorData (u "error")) (JStr (msg_request_failed status)) in
        if status =? 401 then Some (Error msg_auth)
        else if status =? 429 then Some (Error msg_rate_limit)
        else if 500 <=? status then Some (Error msg_server)
        else Some (Error (ToString errorMessage))
    end.

(** What the [/api/parse-instructions] handler sends back from its
    [if (!response.ok) { ... }] block: a status and the [error] string of
    the JSON body, or the reply of the handler's outer [catch] after a
    [TypeError]. *)
Inductive Reply : Type :=
| Replied (status : Z) (error : jstring)
| CaughtTypeError.

(** [errorData.error?.message]. *)
Definition error_message (errorData : JSValue) : Completion JSValue :=
  match errorData with
  | JUndefined | JNull => Throw TypeError
  | _ =>
      match get errorData (u "error") with
      | JUndefined | JNull => Return JUndefined
      | e => Return (get e (u "message"))
      end
  end.

Definition msg_api_request_failed (status : Z) : jstring :=
  u "API request failed with status " ++ Number_toString status.

Module gemini_server.

(** The handler of the server that calls the Gemini API, where the
    provider's response is not ok.  [errorText] is the response text and
    [parsed] the outcome of [JSON.parse(errorText)], [None] when it throws. *)
Definition parse_instructions_failure (status : Z) (errorText : jstring)
    (parsed : option JSValue) : Reply :=
  let errorData :=
    match parsed with
    | Some v => v
    | None => JObj [(u "error", JObj [(u "message", JStr errorText)])]
    end in
  match error_message errorData with
  | Throw _ => CaughtTypeError
  | Return m =>
      let errorMessage := js_or m (JStr (msg_api_request_failed status)) in
      if (status =? 401) || (status =? 403)
      then Replied 401
             (u "Invalid API key. Please check your GEMINI_API_KEY environment variable.")
      else if status =? 429
      then Replied 429 (u "Rate limit exceeded. Please try again later.")
      else if 500 <=? status
      then Replied 502 (u "Gemini API server error. Please try again later.")
      else Replied status (u "API Error: " ++ ToString errorMessage)
  end.

End gemini_server.

Module openai_server.

(** The same block in the handler of server.js, which calls the OpenAI API.
    [body] is the outcome of [response.json()], [None] when it rejects. *)
Definition parse_instructions_failure (status : Z) (body : option JSValue) : Reply :=
  let errorData := default (JObj []) body in
  match error_message errorData with
  | Throw _ => CaughtTypeError
  | Return m =>
      let errorMessage := js_or m (JStr (msg_api_request_failed status)) in
      if status =? 401
      then Replied 401 (u "Invalid API key. Please check your OPENAI_API_KEY.")
      else if status =? 429
      then Replied 429 (u "Rate limit exceeded. Please try again later.")
      else if 500 <=? status
      then Replied 502 (u "OpenAI API server error. Please try again later.")
      else Replied status (u "API Error: " ++ ToString errorMessage)
  end.

End openai_server.

(** What the browser's [parseInstructions] throws on a reply of the
    server with the given status, whose JSON body is [{ error }]. *)
Definition client_on_reply (status : Z) (error : jstring) : option JSError :=
  parseInstructions_failure status (Some (JObj [(u "error", JStr error)])).

(* ===================================================================== *)
(** ** Shapes named by the design document *)
(* ===================================================================== *)

(** Modelled from the spec: a Task is [{ text: string, completed: boolean }]
    (section 3, data model), its two properties in the order in which every
    task literal of the source creates them. *)
Definition canonical_task (t : JSValue) : bool :=
  match t with
  | JObj [(k1, JStr _); (k2, JBool _)] =>
      jstring_eqb k1 text_key && jstring_eqb k2 completed_key
  | _ => false
  end.

(** Modelled from the spec: a department's value is an ordered sequence of
    Tasks (section 3, data model). *)
Definition canonical_tasks (v : JSValue) : bool :=
  match v with
  | JArr es [] =>
      forallb (fun e => match e with Some t => canonical_task t | None => false end) es
  | _ => false
  end.

(** Modelled from the spec: a TaskCollection maps department names to
    sequences of Tasks (section 3, data model). *)
Definition canonical_collection (c : JSValue) : bool :=
  match c with
  | JObj ps => forallb (fun kv => canonical_tasks kv.2) ps
  | _ => false
  end.

(** [Object.hasOwn(o, k)]: [k] is the name of a property of [o] itself. *)
Definition has_own (o : JSValue) (k : jstring) : bool :=
  bool_decide (k ∈ map fst (own_enumerable o)).

(** An array of strings, as [JSON.parse] builds it. *)
Definition string_array (ss : list jstring) : JSValue :=
  JArr (map (fun s => Some (JStr s)) ss) [].

(** An object whose values are all arrays of strings. *)
Definition string_departments (entries : list (jstring * list jstring)) : JSValue :=
  JObj (map (fun kv => (kv.1, string_array kv.2)) entries).

(** An array element the validator lets through: a string (or a hole,
    which [every] does not visit). *)
Definition string_element (e : option JSValue) : bool :=
  match e with
  | Some x => typeof_is_string x
  | None => true
  end.

(** A property whose value the validator's loop passes over. *)
Definition string_entry (kv : jstring * JSValue) : bool :=
  match kv.2 with
  | JArr es _ => forallb string_element es
  | _ => false
  end.


(** Modelled from the spec: the export block of one task (section 4.5): a
    1-based ordinal, the task text, and an indented status line reading
    one of the two fixed strings. *)
Definition export_block (position : nat) (task : jstring * bool) : jstring :=
  Number_toString (Z.of_nat position + 1) ++ u ". " ++ task.1 ++ [newline]
    ++ u "   Status: " ++ (if task.2 then status_completed else status_in_progress).

(** The array of canonical tasks with the given texts and flags. *)
Definition task_array (tasks : list (jstring * bool)) : JSValue :=
  JArr (map (fun t => Some (task_literal (JStr t.1) t.2)) tasks) [].

(** [r] is the inclusive stretch of [t] from its first opening brace to its
    last closing brace. *)
Definition brace_span (t r : jstring) : Prop :=
  exists pre mid post,
    t = pre ++ r ++ post /\ r = lbrace :: mid ++ [rbrace]
    /\ (lbrace ∉ pre) /\ (rbrace ∉ post).

(** Modelled from the spec: the failure condition of section 4.1: no
    opening brace, no closing brace, or the last closing brace before the
    first opening one. *)
Definition no_object_boundaries (t : jstring) : Prop :=
  (lbrace ∉ t) \/ (rbrace ∉ t) \/ lastIndexOf rbrace t < indexOf lbrace t.

(** Modelled from the spec: a fenced block of section 4.1: an opening
    fence, an optional language tag, the content [cap] set off by blanks,
    and a closing fence. *)
Definition fenced_block (t cap : jstring) : Prop :=
  exists pre tag ws1 ws2 post,
    t = pre ++ fence ++ tag ++ ws1 ++ cap ++ ws2 ++ fence ++ post
    /\ (tag = [] \/ tag = u "json")
    /\ forallb is_ws ws1 = true /\ forallb is_ws ws2 = true.

(** The text begins with the end of a block: blanks and then a fence. *)
Definition closes (s : jstring) : bool := starts_with fence (trimStart s).

(** No fence of the text [a ++ rest] starts inside [a]. *)
Definition fence_free_before (a rest : jstring) : Prop :=
  forall a1 a2, a = a1 ++ a2 -> a2 <> [] -> starts_with fence (a2 ++ rest) = false.

(** Modelled from the spec: the first fenced block of section 4.1, made
    precise.  The block opens at the leftmost fence of [t]; a [json] that
    directly follows that fence is its language tag; the block closes at
    the next fence; and [cap] is what lies between, without the blanks at
    either end. *)
Definition first_fenced_block (t cap : jstring) : Prop :=
  exists pre tag body post,
    t = pre ++ fence ++ tag ++ body ++ fence ++ post
    /\ fence_free_before pre (fence ++ tag ++ body ++ fence ++ post)
    /\ (tag = u "json"
        \/ (tag = [] /\ starts_with (u "json") (body ++ fence ++ post) = false))
    /\ fence_free_before body (fence ++ post)
    /\ cap = trim body.

(** Two fences, the second after the end of the first. *)
Definition has_fence_pair (t : jstring) : Prop :=
  exists a b c, t = a ++ fence ++ b ++ fence ++ c.

(** What the fence step of [index_js.extractJsonFromResponse] turns the
    trimmed text [x] into. *)
Definition fence_step (x t : jstring) : Prop :=
  (exists cap, fence_regex_match x = Some cap /\ fenced_block x cap /\ t = trim cap)
  \/ (fence_regex_match x = None /\ ~ has_fence_pair x /\ t = x).

(** What the fence step turns the trimmed text [x] into, stated without
    the matcher: the content of the first fenced block when the text holds
    two fences, and the text itself otherwise. *)
Definition first_fence_step (x t : jstring) : Prop :=
  (exists cap, first_fenced_block x cap /\ t = cap)
  \/ (~ has_fence_pair x /\ t = x).

(** The claim's wording of a Task: an object that carries a string [text]
    and a boolean [completed], in any order and possibly among other
    properties. *)
Definition task_record (t : JSValue) : bool :=
  match t with
  | JObj ps =>
      match assoc text_key ps, assoc completed_key ps with
      | Some (JStr _), Some (JBool _) => true
      | _, _ => false
      end
  | _ => false
  end.

(** The Task record [{ text, completed }] that a task object carries. *)
Definition record_of (t : JSValue) : JSValue :=
  task_literal (get t text_key) (strict_true (get t completed_key)).

(** A department whose value is a sequence of task objects in the claim's
    wording, and a collection of such departments. *)
Definition record_tasks (v : JSValue) : bool :=
  match v with
  | JArr es [] =>
      forallb (fun e => match e with Some t => task_record t | None => false end) es
  | _ => false
  end.

Definition record_collection (c : JSValue) : bool :=
  match c with
  | JObj ps => forallb (fun kv => record_tasks kv.2) ps
  | _ => false
  end.

(** The same sequence, and the same collection, with every task replaced
    by the record it carries. *)
Definition records_in (v : JSValue) : JSValue :=
  match v with
  | JArr es _ => JArr (map (option_map record_of) es) []
  | _ => v
  end.

Definition records_of (c : JSValue) : JSValue :=
  match c with
  | JObj ps => JObj (map (fun kv => (kv.1, records_in kv.2)) ps)
  | _ => c
  end.

(* ===================================================================== *)
(** ** Further functions of the same files *)
(* ===================================================================== *)

(** [validateTaskText]. *)
Definition validateTaskText (text : JSValue) : ValidationResult :=
  match text with
  | JStr s =>
      let trimmed := trim s in
      if (length trimmed =? 0)%nat
      then invalid (u "Task cannot be empty")
      else if (1000 <? length trimmed)%nat
      then invalid (u "Task is too long (max 1000 characters)")
      else valid
  | _ => invalid (u "Task text must be a string")
  end.

(** [s.includes(pattern)]. *)
Fixpoint includes (pattern s : jstring) : bool :=
  starts_with pattern s
  || match s with
     | [] => false
     | _ :: r => includes pattern r
     end.

Module handler.

(** The loop of the request handlers' [validateJsonStructure]; [false] is
    an early [return false]. *)
Fixpoint validate_loop (entries : list (jstring * JSValue)) : bool :=
  match entries with
  | [] => true
  | (key, value) :: rest =>
      if negb (isArray value) then false
      else if negb (every_string value) then false
      else validate_loop rest
  end.

(** [validateJsonStructure] of the two request handlers (the same text in
    server.js and in the Gemini server file). *)
Definition validateJsonStructure (data : JSValue) : bool :=
  if negb (truthy data) || negb (typeof_is_object data) then false
  else validate_loop (own_enumerable data).

(** The handlers' opening test
    [!instructions || typeof instructions !== 'string' || !instructions.trim()],
    which answers the request with status 400. *)
Definition request_rejected (instructions : JSValue) : bool :=
  match instructions with
  | JStr s => negb (truthy instructions) || negb (truthy (JStr (trim s)))
  | _ => true
  end.

End handler.

(** The click handler of the parse button: the text it hands to
    [parseInstructions], [None] when it shows the "please enter" error
    instead. *)
Definition parse_click_instructions (value : jstring) : option jstring :=
  let instructions := trim value in
  if negb (truthy (JStr instructions)) then None else Some instructions.


Section Pipeline.
(** [JSON.parse]: the parsed value, or the message of the [SyntaxError]. *)
Variable JSON_parse : jstring -> JSValue + jstring.
(** The [extractJsonFromResponse] in scope, which differs between
    src/index.js and server.js. *)
Variable extract : jstring -> Completion jstring.

(** [parseAndValidateJson]. *)
Definition parseAndValidateJson (responseData : JSValue) : Completion JSValue :=
  let parsed : Completion JSValue :=
    if typeof_is_object responseData && negb (is_null responseData)
    then Return responseData
    else
      match responseData with
      | JStr s =>
          match extract s with
          | Throw e => Throw e
          | Return jsonString =>
              match JSON_parse jsonString with
              | inl v => Return v
              | inr message =>
                  Throw (Error (u "Failed to parse JSON response: " ++ message
                                  ++ u ". The response may not be valid JSON."))
              end
          end
      | _ =>
          Throw (Error (u "Invalid response type: expected string or object, got "
                          ++ typeof responseData))
      end in
  match parsed with
  | Throw e => Throw e
  | Return parsedData =>
      let validation := validateJsonStructure parsedData in
      if negb (isValid validation)
      then Throw (Error (default (u "null") (error validation)))
      else Return parsedData
  end.

(** [parseInstructions] after an ok response: [contentType] is
    [response.headers.get('content-type')] ([None] for [null]) and
    [responseText] the body. *)
Definition parseInstructions_response (contentType : option jstring)
    (responseText : jstring) : Completion Collection :=
  let responseData :=
    if match contentType with
       | Some ct => truthy (JStr ct) && includes (u "application/json") ct
       | None => false
       end
    then match JSON_parse responseText with
         | inl v => v
         | inr _ => JStr responseText
         end
    else JStr responseText in
  match parseAndValidateJson responseData with
  | Throw e => Throw e
  | Return parsedData => Return (convertTasksToObjects parsedData)
  end.
End Pipeline.

(** The same functions with the extractor of each file. *)
Definition index_extract (s : jstring) : Completion jstring :=
  index_js.extractJsonFromResponse (JStr s).

(** The tasks a successful parse seeds a department with: the slots of the
    parsed array, each string wrapped as an incomplete task. *)
Definition seeded_tasks (slots : list (option jstring)) : JSValue :=
  JArr (map (option_map (fun s => task_literal (JStr s) false)) slots) [].

Definition seeded_properties (entries : list (jstring * list (option jstring)))
  : list (jstring * JSValue) :=
  map (fun kv => (kv.1, seeded_tasks kv.2)) entries.

(** The collection a successful parse seeds the store with. *)
Definition seeded_collection (entries : list (jstring * list (option jstring))) : JSValue :=
  JObj (seeded_properties entries).

(** Number of filled slots whose task satisfies [p]. *)
Fixpoint count_slots (p : JSValue -> bool) (es : list (option JSValue)) : Z :=
  match es with
  | [] => 0
  | Some t :: r => (if p t then 1 else 0) + count_slots p r
  | None :: r => count_slots p r
  end.

(** Number of slots that hold a task. *)
Definition filled_slots (es : list (option JSValue)) : Z :=
  count_slots (fun _ => true) es.

(** Number of slots whose task counts as completed. *)
Definition completed_slots (es : list (option JSValue)) : Z :=
  count_slots counts_as_completed es.

(** A unit that is no blank occurs in the text. *)
Definition has_visible (s : jstring) : bool := existsb (fun c => negb (is_ws c)) s.

(** What one department adds to the progress pair [(completed, total)]. *)
Definition department_progress (v : JSValue) : Z * Z :=
  match v with
  | JArr es _ => (completed_slots es, filled_slots es)
  | _ => (0, 0)
  end.

(** The progress pair summed over the properties of a collection. *)
Fixpoint collection_progress (ps : list (jstring * JSValue)) : Z * Z :=
  match ps with
  | [] => (0, 0)
  | kv :: r =>
      ((department_progress kv.2).1 + (collection_progress r).1,
       (department_progress kv.2).2 + (collection_progress r).2)
  end.

(** A flag as a count. *)
Definition flag (b : bool) : Z := if b then 1 else 0.






(* ===================================================================== *)
(** ** Department order *)
(* ===================================================================== *)

Definition departmentOrder : list jstring :=
  [u "Marketing"; u "Product"; u "Legal"; u "Brand"; u "Other"].

(** [l.Array_indexOf(x)], counting from [i]. *)
Fixpoint Array_indexOf_from (x : jstring) (l : list jstring) (i : Z) : Z :=
  match l with
  | [] => -1
  | y :: r => if jstring_eqb y x then i else Array_indexOf_from x r (i + 1)
  end.

Definition Array_indexOf (x : jstring) (l : list jstring) : Z := Array_indexOf_from x l 0.

Section DepartmentSort.
(** [a.localeCompare(b)], which the host's collation determines. *)
Variable localeCompare : jstring -> jstring -> Z.

(** The comparator handed to [sort] in [renderDepartmentGroups] and in
    [updateExportSection]. *)
Definition department_compare (a b : jstring) : Z :=
  let aIndex := Array_indexOf a departmentOrder in
  let bIndex := Array_indexOf b departmentOrder in
  if (aIndex =? -1) && (bIndex =? -1) then localeCompare a b
  else if aIndex =? -1 then 1
  else if bIndex =? -1 then -1
  else aIndex - bIndex.
End DepartmentSort.

(* ===================================================================== *)
(** ** The task element *)
(* ===================================================================== *)

(** The [taskObj] of [createTaskElement]. *)
Definition task_view (task : JSValue) : JSValue :=
  if is_task_object task then task
  else task_literal (if typeof_is_string task then task else JStr (ToString task)) false.

(** [checkbox.checked = taskObj.completed === true]. *)
Definition checkbox_checked (task : JSValue) : bool :=
  strict_true (get (task_view task) completed_key).

(** [if (taskObj.completed) taskItem.classList.add("task-completed")]. *)
Definition completed_class (task : JSValue) : bool :=
  truthy (get (task_view task) completed_key).

(** The initial validation of [createTaskElement]: whether the element
    starts out marked invalid.  [taskObj.text.trim()] is a [TypeError]
    when the text is no string. *)
Definition initially_flagged (task : JSValue) : Completion bool :=
  let text := get (task_view task) text_key in
  if negb (isValid (validateTaskText text))
  then match text with
       | JStr s => Return (0 <? length (trim s))%nat
       | _ => Throw TypeError
       end
  else Return false.

(** The blur handler: whether the element is marked invalid afterwards. *)
Definition flagged_on_blur (value : jstring) : bool :=
  negb (isValid (validateTaskText (JStr value))).

(* ===================================================================== *)
(** ** The rendered page *)
(* ===================================================================== *)

(** A collection whose departments are arrays without named properties and
    whose filled slots are Tasks; unlike a canonical collection it may have
    holes. *)
Definition task_or_hole (e : option JSValue) : bool :=
  match e with Some t => canonical_task t | None => true end.

Definition sparse_tasks (v : JSValue) : bool :=
  match v with
  | JArr es [] => forallb task_or_hole es
  | _ => false
  end.

Definition sparse_collection (c : JSValue) : bool :=
  match c with
  | JObj ps => forallb (fun kv => sparse_tasks kv.2) ps
  | _ => false
  end.

(** The pairs [(index, task)] that [tasks.forEach] visits: the filled
    slots.  An array has at most [2^32 - 1] elements, so every index
    visited is an array index. *)
Fixpoint visited_slots (es : list (option JSValue)) (i : Z) : list (Z * JSValue) :=
  match es with
  | [] => []
  | None :: r => visited_slots r (i + 1)
  | Some task :: r =>
      if is_array_index i then (i, task) :: visited_slots r (i + 1)
      else visited_slots r (i + 1)
  end.

(** The calls [createTaskElement(department, index, task)] of
    [renderDepartmentGroups]. *)
Definition created_elements (data : JSValue) : list (jstring * Z * JSValue) :=
  flat_map
    (fun kv =>
       if truthy kv.2 && isArray kv.2
       then match kv.2 with
            | JArr es _ => map (fun it => (kv.1, it.1, it.2)) (visited_slots es 0)
            | _ => []
            end
       else [])
    (own_enumerable data).

(** A debounce timer armed by an input listener and not yet cleared: the
    render that created the listener's element, the department and index
    the listener closed over, and the value typed. *)
Record Timer : Type := mkTimer {
  timer_render : nat;
  timer_department : jstring;
  timer_index : Z;
  timer_value : jstring
}.

(** The page between two parses: the store, the department groups and
    task elements of the last render (elements are told apart by the
    render that created them), and the timers still armed, those of
    elements that no longer exist among them. *)
Record Page : Type := mkPage {
  page_store : JSValue;
  page_render : nat;
  page_groups : list jstring;
  page_elements : list (jstring * Z);
  page_timers : list Timer
}.

(** How a listener ends: with the page as it then is, with the
    [TypeError] of an element that cannot be created, or with a store
    whose prototype has been replaced. *)
Inductive Outcome : Type :=
| Shown (page : Page)
| Threw (e : JSError)
| Unmodelled (store : Collection).

(** The part of [renderDepartmentGroups] after [validateDataStructure]:
    the groups and elements are created anew; the timers stay armed. *)
Definition show (data : JSValue) (render : nat) (timers : list Timer) : Outcome :=
  let created := created_elements data in
  if existsb (fun e => match initially_flagged e.2 with
                       | Throw _ => true
                       | Return _ => false
                       end) created
  then Threw TypeError
  else Shown {| page_store := data;
                page_render := S render;
                page_groups := map fst (own_enumerable data);
                page_elements := map fst created;
                page_timers := timers |}.

(** The page after the click handler has stored the parsed collection and
    rendered it. *)
Definition open_page (parsedData : JSValue) : Outcome :=
  show (renderDepartmentGroups parsedData) 0 [].

(** The events that reach the store between two parses: the listeners of
    the controls shown and the callbacks of the timers.  A sequence need
    not fire every timer: one left armed stands for a timer that fires
    later or is cleared without firing. *)
Inductive Event : Type :=
| AddClick (department : jstring)
| DeleteClick (department : jstring) (index : Z)
| CheckboxChange (department : jstring) (index : Z) (checked : bool)
| TextInput (department : jstring) (index : Z) (value : jstring)
| TextBlur (department : jstring) (index : Z)
| TimerFires (position : nat).

(** The timer belongs to the element of the current render for
    [(department, index)]. *)
Definition timer_of (render : nat) (department : jstring) (index : Z) (t : Timer) : bool :=
  (timer_render t =? render)%nat && jstring_eqb (timer_department t) department
  && (timer_index t =? index).

(** The page with the store a text update leaves. *)
Definition with_store (p : Page) (timers : list Timer) (c : Collection) : Outcome :=
  match c with
  | Ordinary data =>
      Shown {| page_store := data;
               page_render := page_render p;
               page_groups := page_groups p;
               page_elements := page_elements p;
               page_timers := timers |}
  | Reparented _ _ => Unmodelled c
  end.

(** One listener or timer callback; [None] when the page has no such
    control or timer. *)
Definition step (p : Page) (e : Event) : option Outcome :=
  let data := page_store p in
  match e with
  | AddClick department =>
      if bool_decide (department ∈ page_groups p)
      then Some (show (addTask data department).2 (page_render p) (page_timers p))
      else None
  | DeleteClick department index =>
      if bool_decide ((department, index) ∈ page_elements p)
      then
        if negb (truthy data) || negb (truthy (get data department))
           || negb (isArray (get data department))
        then Some (Shown p)
        else Some (show (removeTask data department index)
                     (page_render p) (page_timers p))
      else None
  | CheckboxChange department index checked =>
      if bool_decide ((department, index) ∈ page_elements p)
      then Some (with_store p (page_timers p)
                   (Ordinary (updateTaskCompletionInData data department index
                                (JBool checked))))
      else None
  | TextInput department index value =>
      if bool_decide ((department, index) ∈ page_elements p)
      then
        let kept :=
          List.filter (fun t => negb (timer_of (page_render p) department index t))
            (page_timers p) in
        let armed := kept ++ [mkTimer (page_render p) department index value] in
        Some (with_store p armed (updateTaskTextInData data department index value))
      else None
  | TextBlur department index =>
      if bool_decide ((department, index) ∈ page_elements p)
      then
        Some (with_store p
                (List.filter (fun t => negb (timer_of (page_render p) department index t))
                   (page_timers p))
                (Ordinary data))
      else None
  | TimerFires position =>
      match page_timers p !! position with
      | Some t =>
          let rest := delete position (page_timers p) in
          if isValid (validateTaskText (JStr (timer_value t)))
          then Some (with_store p rest
                       (updateTaskTextInData data (timer_department t)
                          (timer_index t) (timer_value t)))
          else Some (with_store p rest (Ordinary data))
      | None => None
      end
  end.

(** A sequence of events, as far as the page stays shown. *)
Fixpoint run (p : Page) (events : list Event) : option Outcome :=
  match events with
  | [] => Some (Shown p)
  | e :: rest =>
      match step p e with
      | Some (Shown p') => run p' rest
      | other => other
      end
  end.

(** The events of a session: the page a parse opens, then the events one
    after the other. *)
Definition session (parsedData : JSValue) (events : list Event) : option Outcome :=
  match open_page parsedData with
  | Shown p => run p events
  | other => Some other
  end.

(** The departments are sparse arrays of Tasks, and every control and every
    armed timer carries a department the store holds and an array index. *)
Definition page_ok (p : Page) : Prop :=
  sparse_collection (page_store p) = true
  /\ (forall d, d ∈ page_groups p -> has_own (page_store p) d = true)
  /\ (forall d i, (d, i) ∈ page_elements p ->
        has_own (page_store p) d = true /\ is_array_index i = true)
  /\ (forall t, t ∈ page_timers p ->
        has_own (page_store p) (timer_department t) = true
        /\ is_array_index (timer_index t) = true).
(* ===================================================================== *)
(** ** Properties of the validator *)
(* ===================================================================== *)

Lemma array_every_forallb es :
  array_every typeof_is_string es = forallb string_element es.
Proof. reflexivity. Qed.

Lemma validate_loop_pass entries :
  forallb string_entry entries = true -> validate_loop entries = None.
Proof.
  induction entries as [|[key value] rest IH]; simpl; [done|].
  intros [Hkv Hrest]%andb_prop.
  unfold string_entry in Hkv; simpl in Hkv.
  destruct value; try discriminate; simpl.
  rewrite array_every_forallb, Hkv. simpl. auto.
Qed.

Lemma validate_loop_first_offender pre key es named post :
  forallb string_entry pre = true ->
  forallb string_element es = false ->
  validate_loop (pre ++ (key, JArr es named) :: post)
  = Some (invalid (msg_non_string key)).
Proof.
  intros Hpre Hes.
  induction pre as [|[k v] pre IH]; simpl.
  - rewrite array_every_forallb, Hes. reflexivity.
  - simpl in Hpre. apply andb_prop in Hpre as [Hkv Hpre].
    unfold string_entry in Hkv; simpl in Hkv.
    destruct v; try discriminate; simpl.
    rewrite array_every_forallb, Hkv. simpl. auto.
Qed.

(** C1, as the code has it.  The validator accepts an array element only
    when it is a string.  A non-empty object whose values are arrays of
    strings is valid; and when the first property that is not such an
    array holds an array with an element of any other shape (an object
    carrying a [text] field included), validation fails with the message
    that quotes that property's key. *)
Theorem validate_accepts_exactly_strings (entries : list (jstring * JSValue)) :
  (entries <> [] -> forallb string_entry entries = true ->
   validateJsonStructure (JObj entries) = valid)
  /\
  (forall pre key es named post,
     entries = pre ++ (key, JArr es named) :: post ->
     forallb string_entry pre = true ->
     forallb string_element es = false ->
     validateJsonStructure (JObj entries)
     = {| isValid := false;
          error := Some (u "Invalid structure: department " ++ [dquote] ++ key
                           ++ [dquote] ++ u " contains non-string items") |}).
Proof.
  split.
  - intros Hne Hall. unfold validateJsonStructure. simpl.
    rewrite (validate_loop_pass _ Hall).
    destruct entries; [done|reflexivity].
  - intros pre key es named post -> Hpre Hes.
    unfold validateJsonStructure. simpl.
    rewrite (validate_loop_first_offender _ _ _ _ _ Hpre Hes). reflexivity.
Qed.

Lemma validate_accepts_exactly_strings_witness :
  validateJsonStructure (JObj [(u "A", JArr [Some (JStr (u "x"))] [])]) = valid
  /\ validateJsonStructure
       (JObj [(u "A", JArr [Some (JStr (u "x"))] []);
              (u "B", JArr [Some (JStr (u "y")); Some (JNum 3)] [])])
     = {| isValid := false;
          error := Some (u "Invalid structure: department " ++ [dquote] ++ u "B"
                           ++ [dquote] ++ u " contains non-string items") |}.
Proof.
  split.
  - apply (proj1 (validate_accepts_exactly_strings
                    [(u "A", JArr [Some (JStr (u "x"))] [])]));
      [discriminate|reflexivity].
  - apply (proj2 (validate_accepts_exactly_strings _)
             [(u "A", JArr [Some (JStr (u "x"))] [])] (u "B")
             [Some (JStr (u "y")); Some (JNum 3)] [] []);
      reflexivity.
Defined.

(** C1 as stated fails: an element that is an object containing a [text]
    field is not accepted. *)
Lemma validate_rejects_text_object :
  let element := JObj [(text_key, JStr (u "x"))] in
  has element text_key = true
  /\ isValid (validateJsonStructure (JObj [(u "A", JArr [Some element] [])])) = false.
Proof. split; reflexivity. Qed.

(* ===================================================================== *)
(** ** Properties of the normaliser *)
(* ===================================================================== *)

Lemma js_or_empty_idem v : js_or (js_or v (JStr [])) (JStr []) = js_or v (JStr []).
Proof. unfold js_or. destruct (truthy v) eqn:E; [by rewrite E|reflexivity]. Qed.

Lemma js_or_string s : js_or (JStr s) (JStr []) = JStr s.
Proof. by destruct s. Qed.

Lemma is_task_object_literal t c : is_task_object (task_literal t c) = true.
Proof. reflexivity. Qed.

Lemma convert_task_literal t c :
  js_or t (JStr []) = t -> convert_task (task_literal t c) = task_literal t c.
Proof.
  intros Ht. unfold convert_task. rewrite is_task_object_literal.
  change (get (task_literal t c) text_key) with t.
  change (get (task_literal t c) completed_key) with (JBool c).
  rewrite Ht. by destruct c.
Qed.

Lemma convert_task_idem task : convert_task (convert_task task) = convert_task task.
Proof.
  unfold convert_task at 2 3.
  destruct (is_task_object task).
  - apply convert_task_literal, js_or_empty_idem.
  - destruct (typeof_is_string task) eqn:E.
    + destruct task; try discriminate. apply convert_task_literal, js_or_string.
    + apply convert_task_literal, js_or_string.
Qed.

Lemma convert_department_idem value :
  convert_department (convert_department value) = convert_department value.
Proof.
  destruct value; try reflexivity. simpl. unfold array_map. f_equal.
  rewrite map_map. apply map_ext. intros [x|]; simpl; [|done].
  by rewrite convert_task_idem.
Qed.

(** Without a key [__proto__] every visited key becomes a property of the
    converted object. *)
Lemma filter_without_key (k : jstring) (ps : list (jstring * JSValue)) :
  assoc k ps = None ->
  List.filter (fun kv => negb (jstring_eqb kv.1 k)) ps = ps.
Proof.
  induction ps as [|[k' v] ps IH]; simpl; [done|].
  destruct (jstring_eqb k' k); simpl; [done|]. intros H. by rewrite IH.
Qed.

Lemma assoc_none_iff (k : jstring) (ps : list (jstring * JSValue)) :
  assoc k ps = None <-> k ∉ map fst ps.
Proof.
  induction ps as [|[k' v] ps IH]; simpl.
  - split; [intros _; apply not_elem_of_nil|done].
  - unfold jstring_eqb. case_bool_decide as E.
    + subst. split; [done|]. intros H. exfalso. apply H. left.
    + rewrite IH, not_elem_of_cons. split; [by split|by intros [_ ?]].
Qed.

Lemma has_own_false ps k : has_own (JObj ps) k = false <-> assoc k ps = None.
Proof.
  unfold has_own. simpl. rewrite bool_decide_eq_false. symmetry. apply assoc_none_iff.
Qed.

Lemma convert_ordinary ps :
  assoc proto_key ps = None ->
  convertTasksToObjects (JObj ps)
  = Ordinary (JObj (map (fun kv => (kv.1, convert_department kv.2)) ps)).
Proof.
  intros H. unfold convertTasksToObjects. simpl.
  by rewrite H, (filter_without_key _ _ H).
Qed.

Lemma assoc_converted k ps :
  assoc k ps = None ->
  assoc k (map (fun kv : jstring * JSValue => (kv.1, convert_department kv.2)) ps) = None.
Proof.
  induction ps as [|[k' v] ps IH]; simpl; [done|].
  by destruct (jstring_eqb k' k).
Qed.

(** Normalising twice is normalising once, on every object that has no key
    [__proto__]. *)
Lemma convertTasksToObjects_idem ps :
  assoc proto_key ps = None ->
  exists y, convertTasksToObjects (JObj ps) = Ordinary y
            /\ convertTasksToObjects y = Ordinary y.
Proof.
  intros H. eexists. split; [by apply convert_ordinary|].
  rewrite convert_ordinary by (by apply assoc_converted).
  do 2 f_equal. rewrite map_map. apply map_ext. intros [k v]. simpl.
  by rewrite convert_department_idem.
Qed.

Lemma convert_task_canonical t : canonical_task t = true -> convert_task t = t.
Proof.
  intros H. unfold canonical_task in H.
  repeat case_match; try discriminate; subst.
  apply andb_prop in H as [H1 H2].
  apply bool_decide_eq_true in H1 as ->. apply bool_decide_eq_true in H2 as ->.
  apply convert_task_literal, js_or_string.
Qed.

Lemma map_convert_canonical es :
  forallb (fun e => match e with Some t => canonical_task t | None => false end) es = true ->
  array_map convert_task es = es.
Proof.
  induction es as [|[t|] es IH]; simpl; [done| |done].
  intros [Ht Hes]%andb_prop. by rewrite (convert_task_canonical _ Ht), (IH Hes).
Qed.

Lemma convert_department_canonical v :
  canonical_tasks v = true -> convert_department v = v.
Proof.
  destruct v as [| | | | |es named|]; try discriminate.
  destruct named; [|discriminate]. simpl. intros H.
  by rewrite (map_convert_canonical _ H).
Qed.

(** Whatever the order of its properties, a task record keeps its text
    and its completion flag under normalisation. *)
Lemma convert_task_record t :
  task_record t = true ->
  get (convert_task t) text_key = get t text_key
  /\ get (convert_task t) completed_key = get t completed_key.
Proof.
  destruct t as [| | | | | |ps]; try discriminate. unfold task_record.
  destruct (assoc text_key ps) as [[| | | |s| |]|] eqn:Ht; try discriminate.
  destruct (assoc completed_key ps) as [[| |b| | | |]|] eqn:Hc; try discriminate.
  intros _. unfold convert_task, is_task_object. simpl. rewrite Ht, Hc. simpl.
  rewrite js_or_string. by destruct b.
Qed.

Lemma convert_task_record_of t : task_record t = true -> convert_task t = record_of t.
Proof.
  destruct t as [| | | | | |ps]; try discriminate. unfold task_record.
  destruct (assoc text_key ps) as [[| | | |s| |]|] eqn:Ht; try discriminate.
  destruct (assoc completed_key ps) as [[| |b| | | |]|] eqn:Hc; try discriminate.
  intros _. unfold convert_task, is_task_object, record_of. simpl. rewrite Ht, Hc. simpl.
  by rewrite js_or_string.
Qed.

Lemma convert_department_records v :
  record_tasks v = true ->
  convert_department v = records_in v.
Proof.
  destruct v as [| | | | |es named|]; try discriminate.
  destruct named; [|discriminate]. simpl. intros H. f_equal.
  induction es as [|[t|] es IH]; simpl in *; [done| |done].
  apply andb_prop in H as [Ht Hes]. by rewrite (convert_task_record_of _ Ht), (IH Hes).
Qed.

Lemma record_of_literal s b : record_of (task_literal (JStr s) b) = task_literal (JStr s) b.
Proof. by destruct b. Qed.

(** C3, as the code has it.  On an object without a key [__proto__]:
    normalisation is idempotent on every value that passes validation; a
    collection whose tasks are objects with a string [text] and a boolean
    [completed] keeps its departments and positions, and each task becomes
    the record of its text and flag (any other property is dropped); and a
    collection whose tasks are exactly such records is a fixed point. *)
Theorem normalize_idempotent :
  (forall x, isValid (validateJsonStructure x) = true -> has_own x proto_key = false ->
     exists y, convertTasksToObjects x = Ordinary y
               /\ convertTasksToObjects y = Ordinary y)
  /\
  (forall c, record_collection c = true -> has_own c proto_key = false ->
     convertTasksToObjects c = Ordinary (records_of c))
  /\
  (forall c, canonical_collection c = true -> has_own c proto_key = false ->
     convertTasksToObjects c = Ordinary c).
Proof.
  split; [|split].
  - intros x Hvalid Hown.
    assert (exists ps, x = JObj ps) as [ps ->].
    { unfold validateJsonStructure in Hvalid.
      destruct x; try discriminate; try (by destruct (_ || _)). by eexists. }
    by apply convertTasksToObjects_idem, has_own_false.
  - intros [| | | | | |ps]; try discriminate. intros Hrec Hown%has_own_false.
    rewrite (convert_ordinary _ Hown). unfold records_of. do 2 f_equal.
    apply map_ext_in. intros [k v] Hin. cbn [fst snd]. f_equal.
    apply convert_department_records. simpl in Hrec.
    rewrite forallb_forall in Hrec. apply (Hrec (k, v) Hin).
  - intros [| | | | | |ps]; try discriminate. intros Hcan Hown%has_own_false.
    rewrite (convert_ordinary _ Hown). do 2 f_equal.
    rewrite <- (map_id ps) at 2.
    apply map_ext_in. intros [k v] Hin. cbn [fst snd]. f_equal.
    apply convert_department_canonical. simpl in Hcan.
    rewrite forallb_forall in Hcan. apply (Hcan (k, v) Hin).
Qed.

Lemma normalize_idempotent_witness :
  (exists y,
     convertTasksToObjects
       (JObj [(u "Marketing", JArr [Some (JStr (u "a")); Some (JStr [])] [])]) = Ordinary y
     /\ convertTasksToObjects y = Ordinary y)
  /\ convertTasksToObjects
       (JObj [(u "Legal",
               JArr [Some (JObj [(completed_key, JBool true); (u "note", JNum 1);
                                 (text_key, JStr (u "b"))])] [])])
     = Ordinary (JObj [(u "Legal", JArr [Some (task_literal (JStr (u "b")) true)] [])])
  /\ convertTasksToObjects
       (JObj [(u "Legal", JArr [Some (task_literal (JStr (u "b")) true)] [])])
     = Ordinary (JObj [(u "Legal", JArr [Some (task_literal (JStr (u "b")) true)] [])]).
Proof.
  split; [|split].
  - apply (proj1 normalize_idempotent); reflexivity.
  - apply (proj1 (proj2 normalize_idempotent)
             (JObj [(u "Legal",
                     JArr [Some (JObj [(completed_key, JBool true); (u "note", JNum 1);
                                       (text_key, JStr (u "b"))])] [])]));
      reflexivity.
  - apply (proj2 (proj2 normalize_idempotent)); reflexivity.
Defined.

(** C3 as stated fails in two ways.  A task that carries a further
    property is an object with a string [text] and a boolean [completed],
    and normalisation drops that property.  And a collection with a
    department named [__proto__] (the object [JSON.parse] builds from such
    a key) is not returned: the department's tasks become the prototype of
    the result, which has no department of its own. *)
Lemma normalize_changes_collection :
  (record_collection
     (JObj [(u "A", JArr [Some (JObj [(text_key, JStr (u "a")); (completed_key, JBool true);
                                      (u "note", JStr (u "x"))])] [])]) = true
   /\ convertTasksToObjects
        (JObj [(u "A", JArr [Some (JObj [(text_key, JStr (u "a")); (completed_key, JBool true);
                                         (u "note", JStr (u "x"))])] [])])
      = Ordinary (JObj [(u "A", JArr [Some (task_literal (JStr (u "a")) true)] [])])
   /\ convertTasksToObjects
        (JObj [(u "A", JArr [Some (JObj [(text_key, JStr (u "a")); (completed_key, JBool true);
                                         (u "note", JStr (u "x"))])] [])])
      <> Ordinary
           (JObj [(u "A", JArr [Some (JObj [(text_key, JStr (u "a"));
                                            (completed_key, JBool true);
                                            (u "note", JStr (u "x"))])] [])]))
  /\ (canonical_collection
        (JObj [(proto_key, JArr [Some (task_literal (JStr (u "a")) false)] [])]) = true
      /\ convertTasksToObjects
           (JObj [(proto_key, JArr [Some (task_literal (JStr (u "a")) false)] [])])
         = Reparented (JArr [Some (task_literal (JStr (u "a")) false)] []) []
      /\ convertTasksToObjects
           (JObj [(proto_key, JArr [Some (task_literal (JStr (u "a")) false)] [])])
         <> Ordinary (JObj [(proto_key, JArr [Some (task_literal (JStr (u "a")) false)] [])])).
Proof.
  split; (split; [reflexivity|split; [reflexivity|discriminate]]).
Qed.

Lemma validate_string_departments entries :
  entries <> [] -> validateJsonStructure (string_departments entries) = valid.
Proof.
  intros Hne. unfold validateJsonStructure, string_departments. simpl.
  rewrite validate_loop_pass.
  - by destruct entries.
  - clear Hne. induction entries as [|[k ss] entries IH]; simpl; [done|].
    rewrite IH, andb_true_r. unfold string_entry. simpl.
    by induction ss.
Qed.

Lemma convert_string_array ss :
  convert_department (string_array ss)
  = JArr (map (fun s => Some (task_literal (JStr s) false)) ss) [].
Proof.
  unfold string_array. simpl. f_equal. unfold array_map.
  rewrite map_map. reflexivity.
Qed.

Lemma string_departments_no_key k (entries : list (jstring * list jstring)) :
  k ∉ map fst entries ->
  assoc k (map (fun kv => (kv.1, string_array kv.2)) entries) = None.
Proof.
  intros H. apply assoc_none_iff. by rewrite map_map.
Qed.

(** C4, as the code has it.  For every object with at least one key, none
    of them [__proto__], whose values are all arrays of strings,
    validation succeeds, and normalising yields the same department keys
    in the same order, where the task at each position carries the
    original string as [text] and [false] as [completed]. *)
Theorem normalize_string_departments (entries : list (jstring * list jstring)) :
  entries <> [] ->
  proto_key ∉ map fst entries ->
  validateJsonStructure (string_departments entries) = valid
  /\ convertTasksToObjects (string_departments entries)
     = Ordinary
         (JObj (map (fun kv =>
                       (kv.1, JArr (map (fun s => Some (task_literal (JStr s) false)) kv.2) []))
                  entries)).
Proof.
  intros Hne Hproto. split; [by apply validate_string_departments|].
  unfold string_departments.
  rewrite convert_ordinary by (by apply string_departments_no_key).
  do 2 f_equal. rewrite map_map. apply map_ext. intros [k ss].
  cbn [fst snd]. by rewrite convert_string_array.
Qed.

Lemma normalize_string_departments_witness :
  validateJsonStructure
    (string_departments
       [(u "Marketing", [u "Use brand blue"; u "Set CTA"]); (u "Legal", [])]) = valid
  /\ convertTasksToObjects
       (string_departments
          [(u "Marketing", [u "Use brand blue"; u "Set CTA"]); (u "Legal", [])])
     = Ordinary
         (JObj [(u "Marketing",
                 JArr [Some (task_literal (JStr (u "Use brand blue")) false);
                       Some (task_literal (JStr (u "Set CTA")) false)] []);
                (u "Legal", JArr [] [])]).
Proof.
  apply (normalize_string_departments
           [(u "Marketing", [u "Use brand blue"; u "Set CTA"]); (u "Legal", [])]).
  - discriminate.
  - apply (bool_decide_unpack _). by vm_compute.
Defined.

(** C4 as stated fails in two ways.  The object without keys has only
    arrays of strings as values, and validation rejects it.  And an
    object with the key [__proto__] passes validation, but normalising
    does not keep that department: its tasks become the prototype of the
    result, which holds the other departments only. *)
Lemma validate_rejects_empty_object :
  (string_departments [] = JObj []
   /\ validateJsonStructure (string_departments [])
      = invalid (u "Invalid response: no departments found in the response"))
  /\ (validateJsonStructure
        (string_departments [(u "Marketing", [u "a"]); (proto_key, [u "x"])]) = valid
      /\ convertTasksToObjects
           (string_departments [(u "Marketing", [u "a"]); (proto_key, [u "x"])])
         = Reparented (JArr [Some (task_literal (JStr (u "x")) false)] [])
             [(u "Marketing", JArr [Some (task_literal (JStr (u "a")) false)] [])]).
Proof. split; split; reflexivity. Qed.

(* ===================================================================== *)
(** ** Properties of objects and arrays *)
(* ===================================================================== *)

Lemma assoc_set_same k x ps : assoc k (assoc_set k x ps) = Some x.
Proof.
  induction ps as [|[k' v] ps IH]; simpl; unfold jstring_eqb in *.
  - by rewrite bool_decide_eq_true_2.
  - destruct (bool_decide (k' = k)) eqn:E; simpl; unfold jstring_eqb.
    + by rewrite bool_decide_eq_true_2.
    + by rewrite E.
Qed.

Lemma assoc_set_other k k' x ps :
  k <> k' -> assoc k' (assoc_set k x ps) = assoc k' ps.
Proof.
  intros Hne. induction ps as [|[k0 v] ps IH]; simpl; unfold jstring_eqb in *.
  - by rewrite bool_decide_eq_false_2.
  - destruct (bool_decide (k0 = k)) eqn:E; simpl; unfold jstring_eqb.
    + apply bool_decide_eq_true in E as ->.
      by rewrite !bool_decide_eq_false_2.
    + by rewrite IH.
Qed.

Lemma assoc_set_set k x y ps : assoc_set k y (assoc_set k x ps) = assoc_set k y ps.
Proof.
  induction ps as [|[k' v] ps IH]; simpl; unfold jstring_eqb in *.
  - by rewrite bool_decide_eq_true_2.
  - destruct (bool_decide (k' = k)) eqn:E; simpl; unfold jstring_eqb.
    + by rewrite bool_decide_eq_true_2.
    + by rewrite E, IH.
Qed.

Lemma assoc_map_values (f : JSValue -> JSValue) k ps :
  assoc k (map (fun kv => (kv.1, f kv.2)) ps) = f <$> assoc k ps.
Proof.
  induction ps as [|[k' v] ps IH]; simpl; [done|].
  by destruct (jstring_eqb k' k).
Qed.

Lemma get_set_same ps k x : get (set (JObj ps) k x) k = x.
Proof. simpl. by rewrite assoc_set_same. Qed.

Lemma set_set ps k x y : set (set (JObj ps) k x) k y = set (JObj ps) k y.
Proof. simpl. by rewrite assoc_set_set. Qed.

Lemma get_Some ps k v : assoc k ps = Some v -> get (JObj ps) k = v.
Proof. simpl. by intros ->. Qed.

Lemma get_index_set_index es named i x :
  get_index (set_index (JArr es named) i x) i = x.
Proof.
  unfold set_index, get_index.
  destruct (is_array_index i) eqn:Hi.
  - case_bool_decide as Hlt.
    + by rewrite list_lookup_insert_eq.
    + rewrite lookup_app_r by lia.
      rewrite lookup_app_r by (rewrite length_replicate; lia).
      rewrite length_replicate.
      by replace (Z.to_nat i - length es - (Z.to_nat i - length es))%nat with 0%nat by lia.
  - by rewrite assoc_set_same.
Qed.

Lemma set_index_set_index es named i x y :
  set_index (set_index (JArr es named) i x) i y = set_index (JArr es named) i y.
Proof.
  unfold set_index.
  destruct (is_array_index i) eqn:Hi.
  - case_bool_decide as Hlt.
    + rewrite bool_decide_eq_true_2 by (by rewrite length_insert).
      by rewrite list_insert_insert_eq.
    + rewrite bool_decide_eq_true_2
        by (rewrite !length_app, length_replicate; simpl; lia).
      f_equal. rewrite insert_app_r_alt by lia.
      rewrite insert_app_r_alt by (rewrite length_replicate; lia).
      rewrite length_replicate.
      by replace (Z.to_nat i - length es - (Z.to_nat i - length es))%nat with 0%nat by lia.
  - by rewrite assoc_set_set.
Qed.

(* ===================================================================== *)
(** ** Properties of the store's self-healing *)
(* ===================================================================== *)

Lemma heal_task_literal t c :
  js_or t (JStr []) = t -> heal_task (task_literal t c) = task_literal t c.
Proof.
  intros Ht. unfold heal_task. rewrite is_task_object_literal.
  change (get (task_literal t c) text_key) with t.
  change (get (task_literal t c) completed_key) with (JBool c).
  rewrite Ht. by destruct c.
Qed.

Lemma heal_task_canonical t : canonical_task t = true -> heal_task t = t.
Proof.
  intros H. unfold canonical_task in H.
  repeat case_match; try discriminate; subst.
  apply andb_prop in H as [H1 H2].
  apply bool_decide_eq_true in H1 as ->. apply bool_decide_eq_true in H2 as ->.
  apply heal_task_literal, js_or_string.
Qed.

Lemma heal_elements_canonical es :
  forallb (fun e => match e with Some t => canonical_task t | None => false end) es = true ->
  array_map heal_task es = es.
Proof.
  induction es as [|[t|] es IH]; simpl; [done| |done].
  intros [Ht Hes]%andb_prop. by rewrite (heal_task_canonical _ Ht), (IH Hes).
Qed.

Lemma heal_department_canonical v :
  canonical_tasks v = true -> heal_department v = v.
Proof.
  destruct v as [| | | | |es named|]; try discriminate.
  destruct named; [|discriminate]. simpl. intros H.
  by rewrite (heal_elements_canonical _ H).
Qed.

Lemma validateDataStructure_canonical c :
  canonical_collection c = true -> validateDataStructure c = c.
Proof.
  destruct c as [| | | | | |ps]; try discriminate.
  unfold validateDataStructure. simpl. intros H. f_equal.
  induction ps as [|[k v] ps IH]; [done|].
  simpl in H. apply andb_prop in H as [Hv Hps]. simpl.
  by rewrite (heal_department_canonical _ Hv), (IH Hps).
Qed.

Lemma get_validateDataStructure ps k v :
  assoc k ps = Some v ->
  get (validateDataStructure (JObj ps)) k = heal_department v.
Proof.
  intros H. unfold validateDataStructure. simpl.
  by rewrite assoc_map_values, H.
Qed.

Lemma get_validate_set ps k x :
  get (validateDataStructure (set (JObj ps) k x)) k = heal_department x.
Proof. simpl set. apply get_validateDataStructure, assoc_set_same. Qed.

Lemma renderDepartmentGroups_set ps k x :
  renderDepartmentGroups (set (JObj ps) k x) = validateDataStructure (set (JObj ps) k x).
Proof.
  unfold renderDepartmentGroups. simpl.
  by destruct ps as [|[k' v] ps]; simpl; [|destruct (jstring_eqb k' k)].
Qed.

Lemma get_render_set ps k x :
  get (renderDepartmentGroups (set (JObj ps) k x)) k = heal_department x.
Proof.
  rewrite renderDepartmentGroups_set. simpl set.
  apply get_validateDataStructure, assoc_set_same.
Qed.

Lemma render_is_object ps k x :
  exists ps', renderDepartmentGroups (set (JObj ps) k x) = JObj ps'.
Proof. rewrite renderDepartmentGroups_set. simpl. eauto. Qed.

(** The sequence a department holds after [removeTask]. *)
Lemma get_removeTask ps department es named index :
  assoc department ps = Some (JArr es named) ->
  get (removeTask (JObj ps) department index) department
  = heal_department (splice1 (JArr es named) index).
Proof.
  intros H. unfold removeTask.
  rewrite (get_Some _ _ _ H). cbn [truthy isArray negb orb].
  apply get_render_set.
Qed.

Lemma removeTask_is_object ps department es named index :
  assoc department ps = Some (JArr es named) ->
  exists ps', removeTask (JObj ps) department index = JObj ps'.
Proof.
  intros H. unfold removeTask.
  rewrite (get_Some _ _ _ H). cbn [truthy isArray negb orb].
  apply render_is_object.
Qed.

Lemma array_map_lookup (f : JSValue -> JSValue) es (n : nat) :
  array_map f es !! n = option_map f <$> es !! n.
Proof.
  revert n. induction es as [|e es IH]; intros [|n]; simpl; by try done.
Qed.

Lemma set_index_lookup es named i x :
  is_array_index i = true ->
  exists es', set_index (JArr es named) i x = JArr es' named
              /\ es' !! Z.to_nat i = Some (Some x).
Proof.
  intros Hi. unfold set_index. rewrite Hi. case_bool_decide as Hlt.
  - eexists; split; [done|]. by rewrite list_lookup_insert_eq.
  - eexists; split; [done|].
    rewrite lookup_app_r by lia.
    rewrite lookup_app_r by (rewrite length_replicate; lia).
    rewrite length_replicate.
    by replace (Z.to_nat i - length es - (Z.to_nat i - length es))%nat with 0%nat by lia.
Qed.

(** The slot just written, as the next [validateDataStructure] leaves it. *)
Lemma get_index_heal_set_index es named i x :
  is_array_index i = true ->
  get_index (heal_department (set_index (JArr es named) i x)) i = heal_task x.
Proof.
  intros Hi. destruct (set_index_lookup es named i x Hi) as (es' & -> & Hes').
  simpl. rewrite Hi, array_map_lookup, Hes'. reflexivity.
Qed.

Lemma heal_task_after_text slot text :
  truthy slot = true -> typeof_is_object slot = true ->
  heal_task (set slot text_key (JStr text))
  = task_literal (JStr text) (strict_true (get slot completed_key)).
Proof.
  intros Ht Ho. unfold heal_task.
  assert (text_key <> completed_key) as Hne by discriminate.
  destruct slot as [| | | | |es ps|ps]; try discriminate.
  - unfold is_task_object. simpl.
    rewrite assoc_set_same, assoc_set_other by done.
    rewrite bool_decide_eq_true_2 by eauto. simpl. by rewrite js_or_string.
  - unfold is_task_object. simpl.
    rewrite assoc_set_same, assoc_set_other by done.
    rewrite bool_decide_eq_true_2 by eauto. simpl. by rewrite js_or_string.
Qed.

Lemma strict_true_get_primitive slot :
  negb (truthy slot) || negb (typeof_is_object slot) = true ->
  strict_true (get slot completed_key) = false.
Proof. by destruct slot. Qed.

(* ===================================================================== *)
(** ** Properties of the store operations *)
(* ===================================================================== *)

(** C5.  In a store whose department holds the three incomplete tasks
    [a; b; c], removing index 1 leaves [a; c] (the task that was at the
    greater index 2 now sits at index 1), and marking index 1 completed
    afterwards marks [c]. *)
Theorem remove_then_complete (ps : list (jstring * JSValue))
    (department a b c : jstring) :
  assoc department ps
  = Some (JArr [Some (task_literal (JStr a) false);
                Some (task_literal (JStr b) false);
                Some (task_literal (JStr c) false)] []) ->
  let removed := removeTask (JObj ps) department 1 in
  get removed department
  = JArr [Some (task_literal (JStr a) false); Some (task_literal (JStr c) false)] []
  /\ get (updateTaskCompletionInData removed department 1 (JBool true)) department
     = JArr [Some (task_literal (JStr a) false); Some (task_literal (JStr c) true)] [].
Proof.
  intros Hdep removed.
  assert (Hget : get removed department
    = JArr [Some (task_literal (JStr a) false); Some (task_literal (JStr c) false)] []).
  { unfold removed. rewrite (get_removeTask _ _ _ _ _ Hdep).
    cbv -[heal_task task_literal].
    by rewrite !heal_task_literal by apply js_or_string. }
  split; [exact Hget|].
  destruct (removeTask_is_object _ _ _ _ 1 Hdep) as [ps' Hobj].
  fold removed in Hobj. rewrite Hobj in *.
  unfold updateTaskCompletionInData. cbv zeta.
  rewrite !Hget. cbn [truthy isArray negb orb].
  rewrite !Hget.
  change (get_index (JArr [Some (task_literal (JStr a) false);
                           Some (task_literal (JStr c) false)] []) 1)
    with (task_literal (JStr c) false).
  cbn [truthy typeof_is_object task_literal negb orb].
  rewrite Hget. by rewrite get_set_same.
Qed.

Lemma remove_then_complete_witness :
  let task s b := task_literal (JStr s) b in
  let store := JObj [(u "Marketing", JArr [Some (task (u "a") false); Some (task (u "b") false);
                                           Some (task (u "c") false)] [])] in
  let removed := removeTask store (u "Marketing") 1 in
  get removed (u "Marketing") = JArr [Some (task (u "a") false); Some (task (u "c") false)] []
  /\ get (updateTaskCompletionInData removed (u "Marketing") 1 (JBool true)) (u "Marketing")
     = JArr [Some (task (u "a") false); Some (task (u "c") true)] [].
Proof.
  apply (remove_then_complete
           [(u "Marketing",
             JArr [Some (task_literal (JStr (u "a")) false);
                   Some (task_literal (JStr (u "b")) false);
                   Some (task_literal (JStr (u "c")) false)] [])]
           (u "Marketing") (u "a") (u "b") (u "c")).
  reflexivity.
Defined.

Lemma array_map_take_drop (f : JSValue -> JSValue) es n m :
  array_map f (take n es ++ drop m es)
  = take n (array_map f es) ++ drop m (array_map f es).
Proof. unfold array_map. by rewrite map_app, firstn_map, skipn_map. Qed.

Lemma heal_splice1_canonical es start :
  canonical_tasks (JArr es []) = true ->
  heal_department (splice1 (JArr es []) start)
  = splice1 (JArr es []) start.
Proof.
  intros H. simpl in H. simpl. f_equal.
  by rewrite array_map_take_drop, (heal_elements_canonical _ H).
Qed.

Lemma splice1_beyond es named start :
  Z.of_nat (length es) <= start -> splice1 (JArr es named) start = JArr es named.
Proof.
  intros Hle. unfold splice1.
  destruct (start <? 0) eqn:E; [lia|].
  rewrite Z.min_r by lia. rewrite Z.sub_diag.
  replace (Z.max 1 0 `min` 0) with 0 by lia. rewrite Z.add_0_r.
  by rewrite Nat2Z.id, take_drop.
Qed.

Lemma splice1_delete es named start :
  let len := Z.of_nat (length es) in
  let actual := if start <? 0 then Z.max (len + start) 0 else start in
  0 <= actual < len ->
  splice1 (JArr es named) start = JArr (delete (Z.to_nat actual) es) named.
Proof.
  intros len actual. unfold actual, splice1. fold len.
  destruct (start <? 0) eqn:E; intros Hr.
  - set (a := Z.max (len + start) 0) in *.
    replace (Z.max 1 0 `min` (len - a)) with 1 by lia.
    rewrite Z2Nat.inj_add by lia. f_equal.
    rewrite delete_take_drop. do 2 f_equal. change (Z.to_nat 1) with 1%nat. lia.
  - rewrite Z.min_l by lia.
    replace (Z.max 1 0 `min` (len - start)) with 1 by lia.
    rewrite Z2Nat.inj_add by lia. f_equal.
    rewrite delete_take_drop. do 2 f_equal. change (Z.to_nat 1) with 1%nat. lia.
Qed.

(** Removing inside the range deletes that slot: the tasks before it stay
    where they were and every task after it moves down by one position. *)
Lemma removeTask_shifts (ps : list (jstring * JSValue))
    (department : jstring) (es : list (option JSValue)) (index : Z) :
  assoc department ps = Some (JArr es []) ->
  canonical_tasks (JArr es []) = true ->
  0 <= index < Z.of_nat (length es) ->
  exists es',
    get (removeTask (JObj ps) department index) department = JArr es' []
    /\ S (length es') = length es
    /\ (forall j : nat, (j < Z.to_nat index)%nat -> es' !! j = es !! j)
    /\ (forall j : nat, (Z.to_nat index <= j)%nat -> es' !! j = es !! S j).
Proof.
  intros Hdep Hcan Hr. exists (delete (Z.to_nat index) es).
  rewrite (get_removeTask _ _ _ _ _ Hdep), (heal_splice1_canonical _ _ Hcan).
  split; [|split; [|split]].
  - rewrite splice1_delete; replace (index <? 0) with false by lia; [done|lia].
  - rewrite length_delete; [lia|]. apply lookup_lt_is_Some_2. lia.
  - intros j Hj. by apply list_lookup_delete_lt.
  - intros j Hj. by apply list_lookup_delete_ge.
Qed.

Lemma splice1_empty named start : splice1 (JArr [] named) start = JArr [] named.
Proof.
  unfold splice1. simpl length.
  by destruct (start <? 0); rewrite take_nil, drop_nil.
Qed.

(** C10.  For a department the store holds, removing at an index at or
    past the end leaves the department's sequence as it was, while
    removing at a negative index deletes the element counted from the end
    ([-1] the last), clamped to the first element when the index reaches
    before the start: a sequence that has elements gets one shorter, so
    the call is no no-op. *)
Theorem remove_index_out_of_range (ps : list (jstring * JSValue))
    (department : jstring) (es : list (option JSValue)) (index : Z) :
  assoc department ps = Some (JArr es []) ->
  canonical_tasks (JArr es []) = true ->
  (Z.of_nat (length es) <= index ->
   get (removeTask (JObj ps) department index) department = JArr es [])
  /\
  (index < 0 ->
   let position := Z.to_nat (Z.max (Z.of_nat (length es) + index) 0) in
   get (removeTask (JObj ps) department index) department
   = JArr (delete position es) []
   /\ (- Z.of_nat (length es) <= index ->
       Z.of_nat position = Z.of_nat (length es) + index)
   /\ (es <> [] -> S (length (delete position es)) = length es)).
Proof.
  intros Hdep Hcan.
  rewrite (get_removeTask _ _ _ _ _ Hdep), (heal_splice1_canonical _ _ Hcan).
  split.
  - apply splice1_beyond.
  - intros Hneg position. split; [|split].
    + destruct es as [|e es]; [by rewrite splice1_empty|].
      rewrite splice1_delete.
      * apply Z.ltb_lt in Hneg. by rewrite Hneg.
      * apply Z.ltb_lt in Hneg. rewrite Hneg. simpl length. lia.
    + unfold position. lia.
    + intros Hne.
      assert (0 < length es)%nat by (destruct es; simpl; [done|lia]).
      rewrite length_delete; [lia|].
      apply lookup_lt_is_Some_2. unfold position. lia.
Qed.

Lemma remove_index_out_of_range_witness :
  let task s := Some (task_literal (JStr s) false) in
  let store := JObj [(u "Legal", JArr [task (u "a"); task (u "b"); task (u "c")] [])] in
  get (removeTask store (u "Legal") 3) (u "Legal")
  = JArr [task (u "a"); task (u "b"); task (u "c")] []
  /\ get (removeTask store (u "Legal") (-1)) (u "Legal") = JArr [task (u "a"); task (u "b")] [].
Proof.
  pose proof (remove_index_out_of_range
    [(u "Legal", JArr [Some (task_literal (JStr (u "a")) false);
                       Some (task_literal (JStr (u "b")) false);
                       Some (task_literal (JStr (u "c")) false)] [])]
    (u "Legal")
    [Some (task_literal (JStr (u "a")) false);
     Some (task_literal (JStr (u "b")) false);
     Some (task_literal (JStr (u "c")) false)]) as H.
  split.
  - destruct (H 3 eq_refl eq_refl) as [Hbeyond _]. apply Hbeyond. simpl. lia.
  - destruct (H (-1) eq_refl eq_refl) as [_ Hneg].
    destruct Hneg as [Hlast _]; [lia|]. exact Hlast.
Defined.

(** Past its guard, and short of replacing the prototype,
    [updateTaskTextInData] runs its remaining statements. *)
Lemma updateTaskTextInData_own currentData department index text :
  truthy currentData = true ->
  truthy (get currentData department) = true ->
  updateTaskTextInData currentData department index text
  = Ordinary (updateTaskText_steps currentData department index text).
Proof.
  intros Hcd Hget. unfold updateTaskTextInData. rewrite Hcd, Hget. cbn [negb orb].
  assert (reads_inherited currentData department = false) as ->; [|done].
  destruct currentData as [| | | | | |ps]; try done. simpl in *.
  destruct (assoc department ps); [done|discriminate].
Qed.

Lemma updateTaskTextInData_inherited ps department index text :
  assoc department ps = None ->
  department ∈ Object_prototype_names ->
  department <> proto_key ->
  updateTaskTextInData (JObj ps) department index text
  = Ordinary (updateTaskText_steps (JObj ps) department index text).
Proof.
  intros Hnone Hin Hne. unfold updateTaskTextInData, reads_inherited.
  rewrite !bool_decide_eq_true_2 by done. cbn [truthy negb orb andb].
  rewrite orb_true_r. cbn [negb].
  unfold jstring_eqb. by rewrite bool_decide_eq_false_2.
Qed.

Lemma updateTaskTextInData_falsy ps department index text :
  truthy (get (JObj ps) department) = false ->
  assoc department ps <> None \/ department ∉ Object_prototype_names ->
  updateTaskTextInData (JObj ps) department index text = Ordinary (JObj ps).
Proof.
  intros Hget Hno. unfold updateTaskTextInData. rewrite Hget.
  assert (reads_inherited (JObj ps) department = false) as ->; [|done].
  unfold reads_inherited. destruct Hno as [Hno|Hno].
  - by rewrite bool_decide_eq_false_2.
  - rewrite (bool_decide_eq_false_2 (department ∈ _)) by done. apply andb_false_r.
Qed.

(** The slot after the statements, for a department that holds an array. *)
Lemma updateTaskText_steps_slot ps department index text es named :
  assoc department ps = Some (JArr es named) ->
  is_array_index index = true ->
  get_index (get (updateTaskText_steps (JObj ps) department index text) department) index
  = task_literal (JStr text)
      (strict_true (get (get_index (JArr es named) index) completed_key)).
Proof.
  intros Hdep Hi. set (slot := get_index (JArr es named) index).
  unfold updateTaskText_steps. cbv zeta.
  rewrite !(get_Some _ _ _ Hdep). cbn [truthy isArray negb orb].
  rewrite !(get_Some _ _ _ Hdep). fold slot.
  destruct (negb (truthy slot) || negb (typeof_is_object slot)) eqn:Hslot.
  - rewrite !get_set_same, get_index_set_index, set_set, set_index_set_index.
    rewrite get_validate_set, get_index_heal_set_index by done.
    rewrite (strict_true_get_primitive _ Hslot).
    apply (heal_task_literal (JStr text) false), js_or_string.
  - apply orb_false_elim in Hslot as [Ht Ho].
    apply negb_false_iff in Ht, Ho.
    rewrite !(get_Some _ _ _ Hdep). fold slot.
    rewrite get_validate_set, get_index_heal_set_index by done.
    by apply heal_task_after_text.
Qed.

(** A value that is no array is first replaced by an empty array. *)
Lemma updateTaskText_steps_reset ps department index text :
  isArray (get (JObj ps) department) = false ->
  updateTaskText_steps (JObj ps) department index text
  = updateTaskText_steps (set (JObj ps) department (JArr [] [])) department index text.
Proof.
  intros Harr. unfold updateTaskText_steps. cbv zeta. rewrite Harr. cbn [negb].
  rewrite !get_set_same. cbn [isArray negb]. by rewrite !get_set_same.
Qed.

Lemma updateTaskText_steps_created ps department index text :
  isArray (get (JObj ps) department) = false ->
  is_array_index index = true ->
  get_index (get (updateTaskText_steps (JObj ps) department index text) department) index
  = task_literal (JStr text) false.
Proof.
  intros Harr Hi. rewrite (updateTaskText_steps_reset _ _ _ _ Harr).
  cbn [set].
  rewrite (updateTaskText_steps_slot _ _ _ _ [] [] (assoc_set_same _ _ _) Hi).
  unfold get_index. rewrite Hi. by rewrite lookup_nil.
Qed.

(** C6, as the code has it, for a store that is an object and an array
    index.  Where [currentData[department]] is truthy (the store holds a
    truthy value under that name, or the name is one that every object
    inherits, other than [__proto__]) the call leaves an ordinary store in
    which the addressed slot is a task holding exactly the given text,
    with the completion state the slot had before: [false] for a slot
    that did not exist or held no object, and for a department whose
    value was no array, which is first replaced by an empty one.  Where
    [currentData[department]] is falsy (no such key and no inherited
    member, or a falsy value), and for the store [null], the call
    changes nothing. *)
Theorem updateTaskText_slot (ps : list (jstring * JSValue))
    (department : jstring) (index : Z) (text : jstring) :
  (forall v,
     assoc department ps = Some v -> truthy v = true ->
     is_array_index index = true ->
     let slot := if isArray v then get_index v index else JUndefined in
     exists after,
       updateTaskTextInData (JObj ps) department index text = Ordinary after
       /\ get_index (get after department) index
          = task_literal (JStr text) (strict_true (get slot completed_key))
       /\ (forall s b, slot = task_literal (JStr s) b ->
             get_index (get after department) index = task_literal (JStr text) b)
       /\ (slot = JUndefined ->
             get_index (get after department) index = task_literal (JStr text) false))
  /\ (assoc department ps = None ->
      department ∈ Object_prototype_names -> department <> proto_key ->
      is_array_index index = true ->
      exists after,
        updateTaskTextInData (JObj ps) department index text = Ordinary after
        /\ get_index (get after department) index = task_literal (JStr text) false)
  /\ (truthy (get (JObj ps) department) = false ->
      assoc department ps <> None \/ department ∉ Object_prototype_names ->
      updateTaskTextInData (JObj ps) department index text = Ordinary (JObj ps))
  /\ updateTaskTextInData JNull department index text = Ordinary JNull.
Proof.
  split; [|split; [|split; [|reflexivity]]].
  - intros v Hdep Hv Hi slot.
    exists (updateTaskText_steps (JObj ps) department index text).
    assert (Hmain :
      get_index (get (updateTaskText_steps (JObj ps) department index text) department)
        index
      = task_literal (JStr text) (strict_true (get slot completed_key))).
    { subst slot. destruct v as [| | | | |es named|props]; cbn [isArray].
      all: try (rewrite updateTaskText_steps_created;
                [reflexivity|by rewrite (get_Some _ _ _ Hdep)|done]).
      by apply updateTaskText_steps_slot. }
    split; [|split; [exact Hmain|split]].
    + apply updateTaskTextInData_own; [done|]. by rewrite (get_Some _ _ _ Hdep).
    + intros s b Hs. rewrite Hmain, Hs. by destruct b.
    + intros Hs. by rewrite Hmain, Hs.
  - intros Hnone Hin Hne Hi.
    exists (updateTaskText_steps (JObj ps) department index text).
    split; [by apply updateTaskTextInData_inherited|].
    apply updateTaskText_steps_created; [|done]. simpl. by rewrite Hnone.
  - apply updateTaskTextInData_falsy.
Qed.

Lemma updateTaskText_slot_witness :
  (exists after,
     updateTaskTextInData
       (JObj [(u "Brand", JArr [Some (task_literal (JStr (u "old")) true)] [])])
       (u "Brand") 0 (u "new") = Ordinary after
     /\ get_index (get after (u "Brand")) 0 = task_literal (JStr (u "new")) true)
  /\ (exists after,
        updateTaskTextInData (JObj [(u "Brand", JStr (u "none"))]) (u "Brand") 2 []
        = Ordinary after
        /\ get_index (get after (u "Brand")) 2 = task_literal (JStr []) false)
  /\ (exists after,
        updateTaskTextInData (JObj [(u "Brand", JArr [] [])]) (u "constructor") 0 (u "x")
        = Ordinary after
        /\ get_index (get after (u "constructor")) 0 = task_literal (JStr (u "x")) false)
  /\ updateTaskTextInData (JObj [(u "Brand", JArr [] [])]) (u "Legal") 0 (u "x")
     = Ordinary (JObj [(u "Brand", JArr [] [])]).
Proof.
  split; [|split; [|split]].
  - destruct (proj1 (updateTaskText_slot
             [(u "Brand", JArr [Some (task_literal (JStr (u "old")) true)] [])]
             (u "Brand") 0 (u "new"))
             (JArr [Some (task_literal (JStr (u "old")) true)] [])
             eq_refl eq_refl eq_refl) as (after & Hafter & Hslot & _).
    exists after. split; [exact Hafter|exact Hslot].
  - destruct (proj1 (updateTaskText_slot [(u "Brand", JStr (u "none"))]
             (u "Brand") 2 []) (JStr (u "none")) eq_refl eq_refl eq_refl)
      as (after & Hafter & Hslot & _).
    exists after. split; [exact Hafter|exact Hslot].
  - apply (proj1 (proj2 (updateTaskText_slot [(u "Brand", JArr [] [])]
             (u "constructor") 0 (u "x")))); [reflexivity| |discriminate|reflexivity].
    apply (bool_decide_unpack _). by vm_compute.
  - apply (proj1 (proj2 (proj2 (updateTaskText_slot [(u "Brand", JArr [] [])]
             (u "Legal") 0 (u "x"))))); [reflexivity|].
    right. apply (bool_decide_unpack _). by vm_compute.
Defined.

(** C6 as stated fails in several ways.  For a department the store does
    not hold, for one whose value is falsy, and for the store [null], no
    slot is created and the text is not stored.  For an index that is no
    array index, the text is written under a name of the array that the
    next re-map drops.  And for the name [__proto__] the fresh array
    becomes the prototype of the store, which gains a department named
    after the index instead. *)
Lemma updateTaskText_absent_department :
  (updateTaskTextInData (JObj [(u "Brand", JArr [] [])]) (u "Legal") 0 (u "x")
   = Ordinary (JObj [(u "Brand", JArr [] [])])
   /\ get_index (get (JObj [(u "Brand", JArr [] [])]) (u "Legal")) 0 = JUndefined)
  /\ updateTaskTextInData (JObj [(u "Brand", JNull)]) (u "Brand") 0 (u "x")
     = Ordinary (JObj [(u "Brand", JNull)])
  /\ updateTaskTextInData JNull (u "Brand") 0 (u "x") = Ordinary JNull
  /\ updateTaskTextInData
       (JObj [(u "Brand", JArr [Some (task_literal (JStr (u "old")) true)] [])])
       (u "Brand") (-1) (u "x")
     = Ordinary (JObj [(u "Brand", JArr [Some (task_literal (JStr (u "old")) true)] [])])
  /\ updateTaskTextInData (JObj [(u "Brand", JArr [] [])]) proto_key 0 (u "x")
     = Reparented (JArr [Some (task_literal (JStr (u "x")) false)] [])
         [(u "Brand", JArr [] []); (u "0", JArr [] [])].
Proof. split; [split; reflexivity|]. split; [|split; [|split]]; reflexivity. Qed.







(* ===================================================================== *)
(** ** Properties of the transport error classification *)
(* ===================================================================== *)



(** C9 at status 403.  The browser's [parseInstructions] does not map a
    403 response to the auth error: it throws the generic error with the
    response's message. *)
Theorem status_403_is_generic :
  let body := Some (JObj [(u "error", JStr (u "Forbidden"))]) in
  response_ok 403 = false
  /\ parseInstructions_failure 403 body = Some (Error (u "Forbidden"))
  /\ parseInstructions_failure 403 body <> Some (Error msg_auth).
Proof. repeat split. discriminate. Qed.

(** The handler of the Gemini server does classify 403 with 401: both are
    answered with status 401 and the invalid-key message. *)
Lemma gemini_server_auth (status : Z) (errorText : jstring) (parsed : option JSValue) :
  status = 401 \/ status = 403 ->
  parsed <> Some JNull -> parsed <> Some JUndefined ->
  gemini_server.parse_instructions_failure status errorText parsed
  = Replied 401
      (u "Invalid API key. Please check your GEMINI_API_KEY environment variable.").
Proof.
  intros Hs Hnull Hundef. unfold gemini_server.parse_instructions_failure.
  assert ((status =? 401) || (status =? 403) = true) as Hauth by (destruct Hs; subst; done).
  destruct parsed as [[| | | | | |]|]; try done; unfold error_message;
    by repeat (case_match; try rewrite Hauth).
Qed.

(** So a 403 of the provider reaches the user as the auth error through
    the Gemini server, and as a generic error through the OpenAI server. *)
Lemma provider_403_end_to_end :
  let body := Some (JObj [(u "error", JObj [(u "message", JStr (u "Forbidden"))])]) in
  (exists error,
     gemini_server.parse_instructions_failure 403 (u "ignored") body = Replied 401 error
     /\ client_on_reply 401 error = Some (Error msg_auth))
  /\ (exists error,
        openai_server.parse_instructions_failure 403 body = Replied 403 error
        /\ client_on_reply 403 error = Some (Error (u "API Error: Forbidden"))).
Proof. split; eexists; split; reflexivity. Qed.

(* ===================================================================== *)
(** ** Properties of trimming *)
(* ===================================================================== *)

Lemma trimStart_ws_prefix w s :
  forallb is_ws w = true -> trimStart (w ++ s) = trimStart s.
Proof.
  induction w as [|c w IH]; simpl; [done|].
  intros [Hc Hw]%andb_prop. rewrite Hc. auto.
Qed.

Lemma trimStart_head c s : is_ws c = false -> trimStart (c :: s) = c :: s.
Proof. simpl. by intros ->. Qed.

Lemma forallb_reverse (p : N -> bool) w : forallb p (reverse w) = forallb p w.
Proof.
  induction w as [|c w IH]; [done|].
  rewrite reverse_cons, forallb_app, IH. simpl. rewrite andb_true_r. apply andb_comm.
Qed.

Lemma trimEnd_ws_suffix s c w :
  is_ws c = false -> forallb is_ws w = true ->
  trimEnd (s ++ [c] ++ w) = s ++ [c].
Proof.
  intros Hc Hw. unfold trimEnd.
  rewrite !reverse_app, <- !app_assoc.
  rewrite trimStart_ws_prefix by (by rewrite forallb_reverse).
  rewrite reverse_singleton. simpl. rewrite Hc.
  by rewrite reverse_cons, reverse_involutive.
Qed.

(** Trimming a text that begins and ends with a non-blank unit and is
    followed by blanks removes exactly those blanks. *)
Lemma trim_core c s c' w :
  is_ws c = false -> is_ws c' = false -> forallb is_ws w = true ->
  trim ((c :: s) ++ [c'] ++ w) = (c :: s) ++ [c'].
Proof.
  intros Hc Hc' Hw. unfold trim.
  change ((c :: s) ++ [c'] ++ w) with (c :: (s ++ [c'] ++ w)).
  rewrite trimStart_head by done.
  by apply (trimEnd_ws_suffix (c :: s)).
Qed.

(* ===================================================================== *)
(** ** Properties of the export formatter *)
(* ===================================================================== *)

Lemma export_task_lines_canonical (k : nat) (t : jstring * bool) :
  export_task_lines (task_literal (JStr t.1) t.2) (Z.of_nat k)
  = export_block k t ++ [newline; newline].
Proof.
  unfold export_task_lines, export_block.
  rewrite is_task_object_literal.
  change (get (task_literal (JStr t.1) t.2) completed_key) with (JBool t.2).
  change (get (task_literal (JStr t.1) t.2) text_key) with (JStr t.1).
  destruct t as [s [|]]; simpl ToString; cbn [strict_true fst snd];
    by rewrite <- !app_assoc.
Qed.

Lemma export_forEach_canonical tasks (k : nat) acc :
  export_forEach (map (fun t => Some (task_literal (JStr t.1) t.2)) tasks) (Z.of_nat k) acc
  = acc ++ concat (imap (fun j t => export_block (k + j) t ++ [newline; newline]) tasks).
Proof.
  revert k acc. induction tasks as [|t tasks IH]; intros k acc; simpl.
  - by rewrite app_nil_r.
  - replace (Z.of_nat k + 1) with (Z.of_nat (S k)) by lia.
    rewrite IH, export_task_lines_canonical, <- app_assoc.
    rewrite Nat.add_0_r. do 2 f_equal. simpl. f_equal.
    apply imap_ext. intros j x _. simpl. do 2 f_equal. lia.
Qed.

Lemma concat_blocks_join (sep : jstring) blocks :
  blocks <> [] ->
  concat (map (fun b => b ++ sep) blocks) = join_with sep blocks ++ sep.
Proof.
  induction blocks as [|b [|b' blocks] IH]; [done| |]; intros _.
  - simpl. by rewrite app_nil_r.
  - change (concat (map (fun b => b ++ sep) (b :: b' :: blocks)))
      with ((b ++ sep) ++ concat (map (fun b => b ++ sep) (b' :: blocks))).
    rewrite IH by done.
    change (join_with sep (b :: b' :: blocks)) with (b ++ sep ++ join_with sep (b' :: blocks)).
    by rewrite <- !app_assoc.
Qed.

Lemma export_block_ends k t :
  exists body c, export_block k t = body ++ [c] /\ is_ws c = false.
Proof.
  unfold export_block. destruct t as [s [|]]; cbn [fst snd].
  - exists (Number_toString (Z.of_nat k + 1) ++ u ". " ++ s ++ [newline]
              ++ u "   Status: " ++ [10004%N; 65039%N] ++ u " Complete"), 100%N.
    split; [|done]. by rewrite <- !app_assoc.
  - exists (Number_toString (Z.of_nat k + 1) ++ u ". " ++ s ++ [newline]
              ++ u "   Status: " ++ [9203%N] ++ u " In progres"), 115%N.
    split; [|done]. by rewrite <- !app_assoc.
Qed.

Lemma join_with_ends (sep : jstring) blocks :
  blocks <> [] ->
  (forall b, b ∈ blocks -> exists body c, b = body ++ [c] /\ is_ws c = false) ->
  exists body c, join_with sep blocks = body ++ [c] /\ is_ws c = false.
Proof.
  induction blocks as [|b [|b' blocks] IH]; [done| |]; intros _ Hall.
  - apply Hall. by left.
  - destruct IH as (body & c & Heq & Hc); [done| |].
    { intros x Hx. apply Hall. by right. }
    exists (b ++ sep ++ body), c. split; [|done].
    change (join_with sep (b :: b' :: blocks)) with (b ++ sep ++ join_with sep (b' :: blocks)).
    by rewrite Heq, <- !app_assoc.
Qed.

Lemma map_imap {A B C : Type} (g : B -> C) (f : nat -> A -> B) (l : list A) :
  map g (imap f l) = imap (fun j x => g (f j x)) l.
Proof.
  revert f. induction l as [|x l IH]; intros f; simpl; [done|].
  f_equal. apply IH.
Qed.

Lemma generateExportText_tasks (Date : Type) (toLocaleTimeString : Date -> jstring)
    (currentData : JSValue) (now : Date) (department : jstring)
    (e : option JSValue) (es : list (option JSValue)) named :
  get currentData department = JArr (e :: es) named ->
  generateExportText Date toLocaleTimeString currentData now department
  = trim (export_forEach (e :: es) 0
            ((department ++ [newline])
               ++ (u "Status as of " ++ toLocaleTimeString now ++ [newline; newline]))).
Proof.
  intros Hget. unfold generateExportText. rewrite !Hget.
  by destruct currentData.
Qed.

Lemma trimStart_app s x :
  trimStart (s ++ x) = if has_visible s then trimStart s ++ x else trimStart x.
Proof.
  induction s as [|c s IH]; simpl; [done|].
  destruct (is_ws c); simpl; [exact IH|done].
Qed.

(** The header line that survives the final [trim]: the department name
    without its leading blanks, and nothing for a name that is empty or
    blank. *)
Lemma trim_export_text department time body c' :
  is_ws c' = false ->
  trim ((department ++ [newline])
          ++ (u "Status as of " ++ time ++ [newline; newline]) ++ body ++ [c']
          ++ [newline; newline])
  = (if has_visible department then trimStart department ++ [newline] else [])
      ++ u "Status as of " ++ time ++ [newline] ++ [newline] ++ body ++ [c'].
Proof.
  intros Hc'. unfold trim. rewrite <- (app_assoc department), trimStart_app.
  pose proof (trimEnd_ws_suffix
    ((if has_visible department then trimStart department ++ [newline] else [])
       ++ u "Status as of " ++ time ++ [newline] ++ [newline] ++ body)
    c' [newline; newline] Hc' eq_refl) as Hend.
  rewrite <- !app_assoc in Hend. rewrite <- Hend. f_equal.
  destruct (has_visible department).
  - by rewrite <- !app_assoc.
  - simpl. by rewrite <- !app_assoc.
Qed.

(** C8, as the code has it.  The formatter returns the empty string when
    the department holds no tasks.  For a department holding tasks it
    returns: the department name without its leading blanks as header
    line (no header line for a name that is empty or blank), the line
    [Status as of <time>] with the locale-formatted time of the clock
    value, a blank line, and then the tasks' blocks in order, separated by
    blank lines, where a block is the 1-based ordinal, a dot and the task
    text, followed by the line [   Status: ] with one of the two fixed
    strings chosen by [completed].  The clock enters only through its
    formatted time, so equal times give equal texts. *)
Theorem generateExportText_layout (Date : Type) (toLocaleTimeString : Date -> jstring)
    (currentData : JSValue) (now : Date) (department : jstring) :
  ((forall es named, get currentData department = JArr es named -> es = []) ->
   generateExportText Date toLocaleTimeString currentData now department = [])
  /\
  (forall tasks,
     get currentData department = task_array tasks ->
     tasks <> [] ->
     generateExportText Date toLocaleTimeString currentData now department
     = (if has_visible department then trimStart department ++ [newline] else [])
         ++ u "Status as of " ++ toLocaleTimeString now ++ [newline]
         ++ [newline]
         ++ join_with [newline; newline] (imap export_block tasks))
  /\
  (forall tasks c name,
     get currentData department = task_array tasks ->
     tasks <> [] ->
     department = c :: name -> is_ws c = false ->
     generateExportText Date toLocaleTimeString currentData now department
     = department ++ [newline]
         ++ u "Status as of " ++ toLocaleTimeString now ++ [newline]
         ++ [newline]
         ++ join_with [newline; newline] (imap export_block tasks))
  /\
  (forall now',
     toLocaleTimeString now' = toLocaleTimeString now ->
     generateExportText Date toLocaleTimeString currentData now' department
     = generateExportText Date toLocaleTimeString currentData now department).
Proof.
  assert (Hlayout : forall tasks,
     get currentData department = task_array tasks ->
     tasks <> [] ->
     generateExportText Date toLocaleTimeString currentData now department
     = (if has_visible department then trimStart department ++ [newline] else [])
         ++ u "Status as of " ++ toLocaleTimeString now ++ [newline]
         ++ [newline]
         ++ join_with [newline; newline] (imap export_block tasks)).
  { intros tasks Hget Hne.
    destruct tasks as [|t tasks]; [done|].
    rewrite (generateExportText_tasks _ _ _ _ _ _ _ _ Hget).
    pose proof (export_forEach_canonical (t :: tasks) 0
      ((department ++ [newline])
         ++ (u "Status as of " ++ toLocaleTimeString now ++ [newline; newline]))) as Hfe.
    change (Z.of_nat 0) with 0 in Hfe. cbn [map] in Hfe.
    etransitivity; [exact (f_equal trim Hfe)|]. clear Hfe.
    assert (imap (fun j t => export_block (0 + j) t ++ [newline; newline]) (t :: tasks)
            = map (fun b => b ++ [newline; newline]) (imap export_block (t :: tasks))) as ->.
    { by rewrite map_imap. }
    rewrite concat_blocks_join by done.
    destruct (join_with_ends [newline; newline] (imap export_block (t :: tasks)))
      as (body & c' & Hjoin & Hc'); [done| |].
    { intros b (j & x & -> & _)%elem_of_lookup_imap. apply export_block_ends. }
    rewrite Hjoin.
    rewrite <- (trim_export_text department (toLocaleTimeString now) body c' Hc').
    f_equal. by rewrite <- !app_assoc. }
  split; [|split; [exact Hlayout|split]].
  - intros Hnone. unfold generateExportText.
    destruct (get currentData department) as [| | | | |es named|] eqn:Hget;
      rewrite ?orb_true_r; try reflexivity.
    rewrite (Hnone es named eq_refl). by destruct (negb (truthy currentData)).
  - intros tasks c name Hget Hne -> Hc.
    rewrite (Hlayout tasks Hget Hne).
    cbn [has_visible existsb trimStart]. rewrite Hc. cbn [negb orb].
    by rewrite <- app_assoc.
  - intros now' Heq. unfold generateExportText. by rewrite Heq.
Qed.

Lemma generateExportText_layout_witness :
  let clock (_ : unit) := u "3:45 PM" in
  let store := JObj [(u "Legal", task_array [(u "Add T&C", true)])] in
  generateExportText unit clock store tt (u "Legal")
  = u "Legal" ++ [newline] ++ u "Status as of 3:45 PM" ++ [newline] ++ [newline]
      ++ u "1. Add T&C" ++ [newline] ++ u "   Status: " ++ status_completed
  /\ generateExportText unit clock store tt (u "Brand") = [].
Proof.
  pose proof (generateExportText_layout unit (fun _ => u "3:45 PM")
    (JObj [(u "Legal", task_array [(u "Add T&C", true)])]) tt) as H.
  split.
  - destruct (H (u "Legal")) as (_ & _ & Hlayout & _).
    apply (Hlayout [(u "Add T&C", true)] 76%N (u "egal")); try reflexivity.
    discriminate.
  - destruct (H (u "Brand")) as (Hempty & _).
    apply Hempty. intros es named Hget. discriminate Hget.
Defined.

(** C8 as stated fails for a department whose name is blank or empty:
    trimming removes the header line, and the text begins with the status
    line.  Blanks at the start of a name are removed as well. *)
Lemma generateExportText_blank_department :
  (generateExportText unit (fun _ => u "3:45 PM")
     (JObj [(u " ", task_array [(u "x", true)])]) tt (u " ")
   = u "Status as of 3:45 PM" ++ [newline] ++ [newline]
       ++ u "1. x" ++ [newline] ++ u "   Status: " ++ status_completed
   /\ starts_with (u " " ++ [newline])
        (generateExportText unit (fun _ => u "3:45 PM")
           (JObj [(u " ", task_array [(u "x", true)])]) tt (u " "))
      = false)
  /\ generateExportText unit (fun _ => u "3:45 PM")
       (JObj [([], task_array [(u "x", true)])]) tt []
     = u "Status as of 3:45 PM" ++ [newline] ++ [newline]
         ++ u "1. x" ++ [newline] ++ u "   Status: " ++ status_completed
  /\ generateExportText unit (fun _ => u "3:45 PM")
       (JObj [(u " Legal", task_array [(u "x", true)])]) tt (u " Legal")
     = u "Legal" ++ [newline] ++ u "Status as of 3:45 PM" ++ [newline] ++ [newline]
         ++ u "1. x" ++ [newline] ++ u "   Status: " ++ status_completed.
Proof. split; [split; reflexivity|split; reflexivity]. Qed.

(* ===================================================================== *)
(** ** Properties of string search *)
(* ===================================================================== *)

Lemma indexOf_from_spec c s i :
  ((c ∉ s) /\ indexOf_from c s i = -1)
  \/ (exists pre post, s = pre ++ c :: post /\ (c ∉ pre)
                       /\ indexOf_from c s i = i + Z.of_nat (length pre)).
Proof.
  revert i. induction s as [|x s IH]; intros i; simpl.
  - left. split; [|done]. apply not_elem_of_nil.
  - destruct (N.eqb_spec x c) as [->|Hne].
    + right. exists [], s. repeat split; [apply not_elem_of_nil|simpl; lia].
    + destruct (IH (i + 1)) as [[Hnot Heq]|(pre & post & -> & Hnot & Heq)].
      * left. split; [|done]. apply not_elem_of_cons. split; [congruence|done].
      * right. exists (x :: pre), post. repeat split.
        -- apply not_elem_of_cons. split; [congruence|done].
        -- rewrite Heq. simpl length. lia.
Qed.

Lemma indexOf_spec c s :
  ((c ∉ s) /\ indexOf c s = -1)
  \/ (exists pre post, s = pre ++ c :: post /\ (c ∉ pre)
                       /\ indexOf c s = Z.of_nat (length pre)).
Proof. apply (indexOf_from_spec c s 0). Qed.

Lemma lastIndexOf_from_spec c s i acc :
  ((c ∉ s) /\ lastIndexOf_from c s i acc = acc)
  \/ (exists pre post, s = pre ++ c :: post /\ (c ∉ post)
                       /\ lastIndexOf_from c s i acc = i + Z.of_nat (length pre)).
Proof.
  revert i acc. induction s as [|x s IH]; intros i acc; simpl.
  - left. split; [|done]. apply not_elem_of_nil.
  - destruct (IH (i + 1) (if (x =? c)%N then i else acc))
      as [[Hnot Heq]|(pre & post & -> & Hnot & Heq)].
    + destruct (N.eqb_spec x c) as [->|Hne].
      * right. exists [], s. repeat split; [done|simpl; lia].
      * left. split; [|done]. apply not_elem_of_cons. split; [congruence|done].
    + right. exists (x :: pre), post. repeat split; [done|].
      rewrite Heq. simpl length. lia.
Qed.

Lemma lastIndexOf_spec c s :
  ((c ∉ s) /\ lastIndexOf c s = -1)
  \/ (exists pre post, s = pre ++ c :: post /\ (c ∉ post)
                       /\ lastIndexOf c s = Z.of_nat (length pre)).
Proof. apply (lastIndexOf_from_spec c s 0 (-1)). Qed.

Lemma indexOf_first c pre post :
  (c ∉ pre) -> indexOf c (pre ++ c :: post) = Z.of_nat (length pre).
Proof.
  intros Hnot.
  destruct (indexOf_spec c (pre ++ c :: post))
    as [[Habs _]|(pre' & post' & Heq & Hnot' & ->)].
  - exfalso. apply Habs. apply elem_of_app. right. by left.
  - f_equal.
    destruct (Nat.lt_trichotomy (length pre) (length pre')) as [Hlt|[Heq'|Hgt]]; [|done|].
    + exfalso. apply Hnot'.
      apply (f_equal (fun l => l !! length pre)) in Heq.
      rewrite list_lookup_middle in Heq by done.
      rewrite lookup_app_l in Heq by done.
      symmetry in Heq. by apply list_elem_of_lookup_2 in Heq.
    + exfalso. apply Hnot.
      apply (f_equal (fun l => l !! length pre')) in Heq.
      rewrite (list_lookup_middle pre') in Heq by done.
      rewrite lookup_app_l in Heq by done.
      by apply list_elem_of_lookup_2 in Heq.
Qed.

Lemma lastIndexOf_last c pre post :
  (c ∉ post) -> lastIndexOf c (pre ++ c :: post) = Z.of_nat (length pre).
Proof.
  intros Hnot.
  destruct (lastIndexOf_spec c (pre ++ c :: post))
    as [[Habs _]|(pre' & post' & Heq & Hnot' & ->)].
  - exfalso. apply Habs. apply elem_of_app. right. by left.
  - f_equal.
    assert (Hlen : (length pre + S (length post) = length pre' + S (length post'))%nat).
    { apply (f_equal length) in Heq. rewrite !length_app in Heq. simpl in Heq. lia. }
    destruct (Nat.lt_trichotomy (length pre) (length pre')) as [Hlt|[Heq'|Hgt]]; [|done|].
    + exfalso. apply Hnot.
      apply (f_equal (fun l => l !! length pre')) in Heq.
      rewrite (list_lookup_middle pre') in Heq by done.
      rewrite lookup_app_r in Heq by lia.
      destruct (length pre' - length pre)%nat as [|n] eqn:En; [lia|].
      simpl in Heq. by apply list_elem_of_lookup_2 in Heq.
    + exfalso. apply Hnot'.
      apply (f_equal (fun l => l !! length pre)) in Heq.
      rewrite list_lookup_middle in Heq by done.
      rewrite lookup_app_r in Heq by lia.
      destruct (length pre - length pre')%nat as [|n] eqn:En; [lia|].
      simpl in Heq. symmetry in Heq. by apply list_elem_of_lookup_2 in Heq.
Qed.

Lemma substring_middle pre r post :
  substring (pre ++ r ++ post) (Z.of_nat (length pre)) (Z.of_nat (length pre + length r)) = r.
Proof.
  unfold substring. rewrite !length_app.
  rewrite (Z.max_l (Z.of_nat (length pre))) by lia.
  rewrite (Z.max_l (Z.of_nat (length pre + length r))) by lia.
  rewrite !Z.min_l by lia. rewrite Z.max_r by lia.
  replace (Z.to_nat (Z.of_nat (length pre + length r) - Z.of_nat (length pre)))
    with (length r) by lia.
  by rewrite Nat2Z.id, drop_app_length, take_app_length.
Qed.

(** Either the text has no usable object boundaries, or the brace search
    finds the span and [substring] cuts it out. *)
Lemma brace_cases t :
  (no_object_boundaries t
   /\ (indexOf lbrace t = -1 \/ lastIndexOf rbrace t = -1
       \/ lastIndexOf rbrace t < indexOf lbrace t))
  \/ (exists r, brace_span t r
        /\ 0 <= indexOf lbrace t /\ indexOf lbrace t < lastIndexOf rbrace t
        /\ substring t (indexOf lbrace t) (lastIndexOf rbrace t + 1) = r).
Proof.
  destruct (indexOf_spec lbrace t) as [[Hno Hi]|(pre & post & Ht & Hpre & Hi)].
  { left. split; [by left|by left]. }
  destruct (lastIndexOf_spec rbrace t) as [[Hno Hj]|(pre' & post' & Ht' & Hpost' & Hj)].
  { left. split; [by right; left|by right; left]. }
  assert (Heq : pre ++ lbrace :: post = pre' ++ rbrace :: post') by congruence.
  apply app_eq_inv in Heq as [(k & Hk & Hk')|(k & Hk & Hk')].
  - destruct k as [|x k]; [discriminate|]. injection Hk' as <- ->.
    left. split.
    + right; right. rewrite Hi, Hj, Hk, length_app. simpl. lia.
    + right; right. rewrite Hi, Hj, Hk, length_app. simpl. lia.
  - destruct k as [|x mid]; [discriminate|]. injection Hk' as <- ->.
    right. exists (lbrace :: mid ++ [rbrace]). split; [|split; [|split]].
    + exists pre, mid, post'. repeat split; [|done|done].
      rewrite Ht. simpl. by rewrite <- app_assoc.
    + lia.
    + rewrite Hi, Hj, Hk, length_app. simpl. lia.
    + rewrite Hi, Hj, Hk, Ht.
      replace (pre ++ lbrace :: mid ++ rbrace :: post')
        with (pre ++ (lbrace :: mid ++ [rbrace]) ++ post')
        by (simpl; by rewrite <- app_assoc).
      replace (Z.of_nat (length (pre ++ lbrace :: mid)) + 1)
        with (Z.of_nat (length pre + length (lbrace :: mid ++ [rbrace])))
        by (rewrite !length_app; simpl; rewrite length_app; simpl; lia).
      apply substring_middle.
Qed.

Lemma brace_span_excludes t r : brace_span t r -> ~ no_object_boundaries t.
Proof.
  intros (pre & mid & post & -> & -> & Hpre & Hpost) Hno.
  assert (Hfirst : indexOf lbrace (pre ++ (lbrace :: mid ++ [rbrace]) ++ post)
                   = Z.of_nat (length pre)).
  { simpl. by apply indexOf_first. }
  assert (Hlast : lastIndexOf rbrace (pre ++ (lbrace :: mid ++ [rbrace]) ++ post)
                  = Z.of_nat (length (pre ++ lbrace :: mid))).
  { replace (pre ++ (lbrace :: mid ++ [rbrace]) ++ post)
      with ((pre ++ lbrace :: mid) ++ rbrace :: post)
      by (simpl; by rewrite <- !app_assoc).
    by apply lastIndexOf_last. }
  destruct Hno as [Hno|[Hno|Hno]].
  - apply Hno. apply elem_of_app. right. by left.
  - apply Hno. apply elem_of_app. right. apply elem_of_app. left.
    right. apply elem_of_app. right. by left.
  - rewrite Hfirst, Hlast, length_app in Hno. simpl in Hno. lia.
Qed.

Lemma brace_span_unique t r r' : brace_span t r -> brace_span t r' -> r = r'.
Proof.
  intros H H'.
  destruct (brace_cases t) as [[Hno _]|(r0 & _ & _ & _ & Hsub)].
  { by destruct (brace_span_excludes _ _ H). }
  assert (Hdet : forall x, brace_span t x ->
            x = substring t (indexOf lbrace t) (lastIndexOf rbrace t + 1)).
  { intros x (pre & mid & post & Ht & Hx & Hpre & Hpost).
    subst x. rewrite Ht at 2 3 1.
    assert (Hfirst : indexOf lbrace (pre ++ (lbrace :: mid ++ [rbrace]) ++ post)
                     = Z.of_nat (length pre)).
    { simpl. by apply indexOf_first. }
    assert (Hlast : lastIndexOf rbrace (pre ++ (lbrace :: mid ++ [rbrace]) ++ post)
                    = Z.of_nat (length (pre ++ lbrace :: mid))).
    { replace (pre ++ (lbrace :: mid ++ [rbrace]) ++ post)
        with ((pre ++ lbrace :: mid) ++ rbrace :: post)
        by (simpl; by rewrite <- !app_assoc).
      by apply lastIndexOf_last. }
    rewrite Hfirst, Hlast.
    replace (Z.of_nat (length (pre ++ lbrace :: mid)) + 1)
      with (Z.of_nat (length pre + length (lbrace :: mid ++ [rbrace])))
      by (rewrite !length_app; simpl; rewrite length_app; simpl; lia).
    by rewrite substring_middle. }
  by rewrite (Hdet _ H), (Hdet _ H').
Qed.

(* ===================================================================== *)
(** ** Properties of the fence pattern *)
(* ===================================================================== *)

Lemma starts_with_app p s : starts_with p (p ++ s) = true.
Proof. induction p as [|c p IH]; simpl; [done|]. by rewrite N.eqb_refl. Qed.

Lemma starts_with_inv p s :
  starts_with p s = true -> s = p ++ drop (length p) s.
Proof.
  revert s. induction p as [|c p IH]; intros [|x s]; simpl; try done.
  intros [Hc Hp]%andb_prop. apply N.eqb_eq in Hc as ->. f_equal. by apply IH.
Qed.

Section RegexFacts.
Context {A : Type}.
Implicit Types (k : jstring -> option A) (s : jstring).

Lemma lit_inv p k s a :
  lit p k s = Some a -> exists s', s = p ++ s' /\ k s' = Some a.
Proof.
  unfold lit. destruct (starts_with p s) eqn:E; [|done].
  intros Hk. exists (drop (length p) s). split; [by apply starts_with_inv|done].
Qed.

Lemma lit_app p k s : lit p k (p ++ s) = k s.
Proof. unfold lit. by rewrite starts_with_app, drop_app_length. Qed.

Lemma opt_greedy_inv r k s a :
  opt_greedy r k s = Some a -> r k s = Some a \/ k s = Some a.
Proof. unfold opt_greedy. destruct (r k s); intros; simplify_eq; auto. Qed.

Lemma opt_greedy_skip r k s : is_Some (k s) -> is_Some (opt_greedy r k s).
Proof. unfold opt_greedy. by destruct (r k s). Qed.

Lemma star_greedy_inv c k s a :
  star_greedy c k s = Some a ->
  exists w s', s = w ++ s' /\ forallb c w = true /\ k s' = Some a.
Proof.
  induction s as [|x s IH]; simpl.
  - intros Hk. by exists [], [].
  - destruct (c x) eqn:Hc.
    + destruct (star_greedy c k s) as [a'|] eqn:Hs.
      * intros [= ->]. destruct (IH eq_refl) as (w & s' & -> & Hw & Hk).
        exists (x :: w), s'. simpl. by rewrite Hc, Hw.
      * intros Hk. by exists [], (x :: s).
    + intros Hk. by exists [], (x :: s).
Qed.

Lemma star_greedy_complete c k w s :
  forallb c w = true -> is_Some (k s) -> is_Some (star_greedy c k (w ++ s)).
Proof.
  intros Hw Hk. induction w as [|x w IH]; simpl.
  - destruct s as [|y s]; simpl; [done|].
    destruct (c y); [|done]. by destruct (star_greedy c k s).
  - simpl in Hw. apply andb_prop in Hw as [Hx Hw]. rewrite Hx.
    destruct (IH Hw) as [a ->]. eauto.
Qed.

Lemma star_lazy_capture_inv c (k2 : jstring -> jstring -> option A) cap s a :
  star_lazy_capture c k2 cap s = Some a ->
  exists m s', s = m ++ s' /\ k2 (cap ++ m) s' = Some a.
Proof.
  revert cap. induction s as [|x s IH]; intros cap; simpl.
  - destruct (k2 cap []) eqn:Hk; [|done].
    intros [= ->]. exists [], []. split; [done|]. by rewrite app_nil_r.
  - destruct (k2 cap (x :: s)) eqn:Hk.
    + intros [= ->]. exists [], (x :: s). split; [done|]. by rewrite app_nil_r.
    + destruct (c x); [|done]. intros H.
      destruct (IH _ H) as (m & s' & -> & Hk2).
      exists (x :: m), s'. split; [done|]. by rewrite <- app_assoc in Hk2.
Qed.

Lemma star_lazy_capture_complete (k2 : jstring -> jstring -> option A) cap m s :
  is_Some (k2 (cap ++ m) s) ->
  is_Some (star_lazy_capture (fun _ => true) k2 cap (m ++ s)).
Proof.
  revert cap. induction m as [|x m IH]; intros cap Hk.
  - rewrite app_nil_r in Hk. destruct Hk as [a Hk].
    destruct s; simpl; rewrite Hk; eauto.
  - simpl. destruct (k2 cap (x :: m ++ s)); [eauto|].
    apply IH. by rewrite <- app_assoc.
Qed.
End RegexFacts.

(** What a match at the head of [s] looks like. *)
Lemma fence_regex_at_inv s cap :
  fence_regex_at s = Some cap ->
  exists tag ws1 ws2 post,
    s = fence ++ tag ++ ws1 ++ cap ++ ws2 ++ fence ++ post
    /\ (tag = [] \/ tag = u "json")
    /\ forallb is_ws ws1 = true /\ forallb is_ws ws2 = true.
Proof.
  unfold fence_regex_at. intros H.
  apply lit_inv in H as (s1 & -> & H).
  assert (exists tag s2, s1 = tag ++ s2 /\ (tag = [] \/ tag = u "json")
            /\ star_greedy is_ws
                 (star_lazy_capture (fun _ => true)
                    (fun cap => star_greedy is_ws (lit fence (fun _ => Some cap))) [])
                 s2 = Some cap) as (tag & s2 & -> & Htag & H2).
  { apply opt_greedy_inv in H as [H|H].
    - apply lit_inv in H as (s2 & -> & H). exists (u "json"), s2. auto.
    - exists [], s1. auto. }
  apply star_greedy_inv in H2 as (ws1 & s3 & -> & Hws1 & H3).
  apply star_lazy_capture_inv in H3 as (m & s4 & -> & H4).
  apply star_greedy_inv in H4 as (ws2 & s5 & -> & Hws2 & H5).
  apply lit_inv in H5 as (post & -> & [= <-]).
  by exists tag, ws1, ws2, post.
Qed.

(** A match is a fenced block. *)
Lemma fence_regex_match_sound s cap :
  fence_regex_match s = Some cap -> fenced_block s cap.
Proof.
  induction s as [|x s IH].
  - intros H. discriminate H.
  - simpl. destruct (fence_regex_at (x :: s)) as [c|] eqn:E.
    + intros [= ->].
      apply fence_regex_at_inv in E as (tag & ws1 & ws2 & post & E & Htag & H1 & H2).
      by exists [], tag, ws1, ws2, post.
    + intros H. destruct (IH H) as (pre & tag & ws1 & ws2 & post & -> & Htag & H1 & H2).
      by exists (x :: pre), tag, ws1, ws2, post.
Qed.

Lemma fence_regex_at_complete b c :
  is_Some (fence_regex_at (fence ++ b ++ fence ++ c)).
Proof.
  unfold fence_regex_at. rewrite lit_app.
  apply opt_greedy_skip.
  apply (star_greedy_complete is_ws _ [] (b ++ fence ++ c) eq_refl).
  apply (star_lazy_capture_complete _ [] b (fence ++ c)).
  apply (star_greedy_complete is_ws _ [] (fence ++ c) eq_refl).
  rewrite lit_app. eauto.
Qed.

Lemma fence_regex_match_here s :
  is_Some (fence_regex_at s) -> is_Some (fence_regex_match s).
Proof. intros [cap H]. destruct s; cbn [fence_regex_match]; rewrite H; eauto. Qed.

Lemma fence_regex_match_later x s :
  is_Some (fence_regex_match s) -> is_Some (fence_regex_match (x :: s)).
Proof. intros H. cbn [fence_regex_match]. by destruct (fence_regex_at (x :: s)). Qed.

(** The pattern matches as soon as the text holds two fences. *)
Lemma fence_regex_match_complete s :
  has_fence_pair s -> is_Some (fence_regex_match s).
Proof.
  intros (a & b & c & ->). induction a as [|x a IH].
  - apply fence_regex_match_here, fence_regex_at_complete.
  - by apply fence_regex_match_later.
Qed.

Lemma fence_step_total x : exists t, fence_step x t.
Proof.
  destruct (fence_regex_match x) as [cap|] eqn:E.
  - exists (trim cap). left. exists cap. eauto using fence_regex_match_sound.
  - exists x. right. repeat split; [done|].
    intros Hpair. apply fence_regex_match_complete in Hpair as [? ?]. congruence.
Qed.

(* ===================================================================== *)
(** ** Properties of the extractors *)
(* ===================================================================== *)

Lemma index_extract_unfold s :
  s <> [] ->
  index_js.extractJsonFromResponse (JStr s)
  = let t := match fence_regex_match (trim s) with
             | Some group1 => trim group1
             | None => trim s
             end in
    if negb (indexOf lbrace t =? -1) && negb (lastIndexOf rbrace t =? -1)
       && (indexOf lbrace t <? lastIndexOf rbrace t)
    then Return (substring t (indexOf lbrace t) (lastIndexOf rbrace t + 1))
    else Return t.
Proof. by destruct s. Qed.

Lemma index_extract_narrow s t :
  s <> [] -> fence_step (trim s) t ->
  (exists r, brace_span t r /\ index_js.extractJsonFromResponse (JStr s) = Return r)
  \/ (no_object_boundaries t /\ index_js.extractJsonFromResponse (JStr s) = Return t).
Proof.
  intros Hs Hstep. rewrite (index_extract_unfold _ Hs).
  assert (match fence_regex_match (trim s) with
          | Some group1 => trim group1
          | None => trim s
          end = t) as ->.
  { destruct Hstep as [(cap & -> & _ & ->)|(-> & _ & ->)]; reflexivity. }
  cbv zeta.
  destruct (brace_cases t) as [[Hno Hcond]|(r & Hspan & H0 & Hlt & Hsub)].
  - right. split; [done|].
    destruct Hcond as [->|[->|Hlt]]; [done|by rewrite andb_false_r|].
    replace (indexOf lbrace t <? lastIndexOf rbrace t) with false by lia.
    by rewrite andb_false_r.
  - left. exists r. split; [done|].
    replace (indexOf lbrace t =? -1) with false by lia.
    replace (lastIndexOf rbrace t =? -1) with false by lia.
    replace (indexOf lbrace t <? lastIndexOf rbrace t) with true by lia.
    simpl. by rewrite Hsub.
Qed.

(** The extractor of src/index.js is the handler's extractor followed by
    the narrowing to the brace span. *)
Lemma index_extract_after_handler s :
  s <> [] ->
  let t := server_js.extractJsonFromResponse_handler s in
  index_js.extractJsonFromResponse (JStr s)
  = if negb (indexOf lbrace t =? -1) && negb (lastIndexOf rbrace t =? -1)
       && (indexOf lbrace t <? lastIndexOf rbrace t)
    then Return (substring t (indexOf lbrace t) (lastIndexOf rbrace t + 1))
    else Return t.
Proof. intros Hs. by rewrite (index_extract_unfold _ Hs). Qed.

Lemma server_extract_cases s :
  (exists r, brace_span s r /\ server_js.extractJsonFromResponse s = Return r)
  \/ (no_object_boundaries s
      /\ server_js.extractJsonFromResponse s
         = Throw (Error (u "No JSON object found in Gemini response"))).
Proof.
  unfold server_js.extractJsonFromResponse.
  destruct (brace_cases s) as [[Hno Hcond]|(r & Hspan & H0 & Hlt & Hsub)].
  - right. split; [done|].
    destruct Hcond as [->|[->|Hlt]]; [done|by rewrite orb_true_r|].
    replace (lastIndexOf rbrace s <=? indexOf lbrace s) with true by lia.
    by rewrite orb_true_r.
  - left. exists r. split; [done|].
    replace (indexOf lbrace s =? -1) with false by lia.
    replace (lastIndexOf rbrace s =? -1) with false by lia.
    replace (lastIndexOf rbrace s <=? indexOf lbrace s) with false by lia.
    simpl. by rewrite Hsub.
Qed.

(* ===================================================================== *)
(** ** Canonical collections under the store operations *)
(* ===================================================================== *)

(** Seeding gives a canonical collection; adding and removing keep a
    collection canonical for every argument, and the two updates keep it
    for an index that addresses an existing slot.  (A debounce timer can
    write at an index past the end; the page as a whole is treated
    further below, with collections that may have holes.) *)

Lemma forallb_values_assoc (P : JSValue -> bool) k ps v :
  forallb (fun kv => P kv.2) ps = true -> assoc k ps = Some v -> P v = true.
Proof.
  induction ps as [|[k' v'] ps IH]; simpl; [done|].
  intros [Hv Hps]%andb_prop. destruct (jstring_eqb k' k); [|by auto].
  by intros [= <-].
Qed.

Lemma forallb_values_assoc_set (P : JSValue -> bool) k x ps :
  forallb (fun kv => P kv.2) ps = true -> P x = true ->
  forallb (fun kv => P kv.2) (assoc_set k x ps) = true.
Proof.
  intros Hps Hx. induction ps as [|[k' v'] ps IH]; simpl.
  - by rewrite Hx.
  - simpl in Hps. apply andb_prop in Hps as [Hv Hps].
    destruct (jstring_eqb k' k); simpl.
    + by rewrite Hx, Hps.
    + by rewrite Hv, IH.
Qed.

Lemma forallb_take {A} (p : A -> bool) n l :
  forallb p l = true -> forallb p (take n l) = true.
Proof.
  revert n. induction l as [|x l IH]; intros [|n]; simpl; try done.
  intros [-> Hl]%andb_prop. by apply IH.
Qed.

Lemma forallb_drop {A} (p : A -> bool) n l :
  forallb p l = true -> forallb p (drop n l) = true.
Proof.
  revert n. induction l as [|x l IH]; intros [|n]; simpl; try done.
  intros [_ Hl]%andb_prop. by apply IH.
Qed.

Lemma forallb_insert {A} (p : A -> bool) n x l :
  forallb p l = true -> p x = true -> forallb p (<[n := x]> l) = true.
Proof.
  revert n. induction l as [|y l IH]; intros [|n]; simpl; try done.
  - intros [_ ->]%andb_prop ->. done.
  - intros [-> Hl]%andb_prop Hx. by apply IH.
Qed.

Lemma canonical_get ps department :
  canonical_collection (JObj ps) = true ->
  get (JObj ps) department = JUndefined
  \/ exists es, get (JObj ps) department = JArr es []
                /\ canonical_tasks (JArr es []) = true.
Proof.
  intros Hcan. simpl. destruct (assoc department ps) as [v|] eqn:E; [|by left].
  right. pose proof (forallb_values_assoc canonical_tasks _ _ _ Hcan E) as Hv.
  destruct v as [| | | | |es named|]; try discriminate.
  destruct named; [|discriminate]. by exists es.
Qed.

Lemma canonical_set ps department x :
  canonical_collection (JObj ps) = true -> canonical_tasks x = true ->
  canonical_collection (set (JObj ps) department x) = true.
Proof. intros. by apply (forallb_values_assoc_set canonical_tasks). Qed.

Lemma renderDepartmentGroups_canonical c :
  canonical_collection c = true -> renderDepartmentGroups c = c.
Proof.
  intros Hcan. unfold renderDepartmentGroups.
  destruct (negb (truthy c) || (length (own_enumerable c) =? 0)%nat); [done|].
  by apply validateDataStructure_canonical.
Qed.

(** Seeding: normalising a validated object of string arrays, none of them
    under the key [__proto__], gives a canonical collection. *)
Lemma seed_canonical (entries : list (jstring * list jstring)) :
  proto_key ∉ map fst entries ->
  exists seed,
    convertTasksToObjects (string_departments entries) = Ordinary seed
    /\ canonical_collection seed = true.
Proof.
  intros Hproto. eexists. split.
  - unfold string_departments. apply convert_ordinary.
    by apply string_departments_no_key.
  - simpl. clear Hproto. induction entries as [|[k ss] entries IH]; simpl; [done|].
    rewrite IH, andb_true_r. unfold array_map. rewrite map_map. simpl.
    by induction ss.
Qed.

Lemma removeTask_canonical c department index :
  canonical_collection c = true ->
  canonical_collection (removeTask c department index) = true.
Proof.
  intros Hcan. destruct c as [| | | | | |ps]; try discriminate.
  unfold removeTask.
  destruct (canonical_get ps department Hcan) as [->|(es & -> & Hes)]; [done|].
  cbn [truthy isArray negb orb].
  assert (canonical_collection
            (set (JObj ps) department (splice1 (JArr es []) index)) = true) as Hset.
  { apply canonical_set; [done|]. simpl. rewrite forallb_app.
    simpl in Hes. by rewrite forallb_take, forallb_drop. }
  by rewrite renderDepartmentGroups_canonical.
Qed.

Lemma addTask_canonical c department :
  c = JNull \/ canonical_collection c = true ->
  canonical_collection (addTask c department).2 = true.
Proof.
  intros Hc.
  assert (exists ps, canonical_collection (JObj ps) = true
                     /\ addTask c department = addTask (JObj ps) department)
    as (ps & Hcan & ->).
  { destruct Hc as [->|Hcan]; [by exists []|].
    destruct c as [| | | | | |ps]; try discriminate. by exists ps. }
  unfold addTask. cbv zeta. cbn [truthy negb snd].
  assert (canonical_tasks (JArr [] []) = true) as Hnil by done.
  destruct (canonical_get ps department Hcan) as [Hget|(es & Hget & Hes)];
    rewrite !Hget; cbn [truthy negb isArray].
  - rewrite !get_set_same. cbn [isArray negb]. rewrite get_set_same, set_set.
    rewrite renderDepartmentGroups_canonical; by apply canonical_set.
  - rewrite !Hget. cbn [isArray negb]. rewrite Hget.
    assert (canonical_tasks (push (JArr es []) (task_literal (JStr []) false)) = true).
    { simpl. rewrite forallb_app. simpl in Hes. by rewrite Hes. }
    rewrite renderDepartmentGroups_canonical; by apply canonical_set.
Qed.

Lemma canonical_slot es (n : nat) :
  canonical_tasks (JArr es []) = true -> (n < length es)%nat ->
  exists s b, es !! n = Some (Some (task_literal (JStr s) b)).
Proof.
  simpl. revert n. induction es as [|e es IH]; intros n Hes Hn; simpl in *; [lia|].
  apply andb_prop in Hes as [He Hes].
  destruct n as [|n]; [|apply IH; [done|lia]].
  destruct e as [t|]; [|discriminate]. unfold canonical_task in He.
  repeat case_match; try discriminate; subst.
  apply andb_prop in He as [H1 H2].
  apply bool_decide_eq_true in H1 as ->. apply bool_decide_eq_true in H2 as ->.
  by eexists _, _.
Qed.

Lemma get_index_canonical_slot es index s b :
  is_array_index index = true ->
  es !! Z.to_nat index = Some (Some (task_literal (JStr s) b)) ->
  get_index (JArr es []) index = task_literal (JStr s) b.
Proof. intros Hi Hslot. unfold get_index. by rewrite Hi, Hslot. Qed.

Lemma set_index_canonical es index s b :
  canonical_tasks (JArr es []) = true ->
  is_array_index index = true -> (Z.to_nat index < length es)%nat ->
  canonical_tasks (set_index (JArr es []) index (task_literal (JStr s) b)) = true.
Proof.
  intros Hes Hi Hlt. unfold set_index. rewrite Hi.
  rewrite bool_decide_eq_true_2 by done. simpl.
  by apply forallb_insert.
Qed.

Lemma updateTaskCompletionInData_canonical c department index completed :
  canonical_collection c = true ->
  is_array_index index = true ->
  (Z.to_nat index < length match get c department with JArr es _ => es | _ => [] end)%nat ->
  canonical_collection (updateTaskCompletionInData c department index completed) = true.
Proof.
  intros Hcan Hi Hrange. destruct c as [| | | | | |ps]; try discriminate.
  unfold updateTaskCompletionInData. cbv zeta.
  destruct (canonical_get ps department Hcan) as [Hget|(es & Hget & Hes)];
    rewrite !Hget in *; [simpl in Hrange; lia|].
  cbn [truthy negb isArray orb]. rewrite !Hget.
  destruct (canonical_slot es (Z.to_nat index) Hes Hrange) as (s & b & Hslot).
  rewrite (get_index_canonical_slot _ _ _ _ Hi Hslot).
  cbn [truthy typeof_is_object task_literal negb orb]. rewrite Hget.
  rewrite (get_index_canonical_slot _ _ _ _ Hi Hslot).
  apply canonical_set; [done|].
  by apply (set_index_canonical es index s (strict_true completed)).
Qed.

Lemma updateTaskTextInData_canonical c department index text :
  canonical_collection c = true ->
  is_array_index index = true ->
  (Z.to_nat index < length match get c department with JArr es _ => es | _ => [] end)%nat ->
  exists after,
    updateTaskTextInData c department index text = Ordinary after
    /\ canonical_collection after = true.
Proof.
  intros Hcan Hi Hrange. destruct c as [| | | | | |ps]; try discriminate.
  destruct (canonical_get ps department Hcan) as [Hget|(es & Hget & Hes)];
    rewrite !Hget in *; [simpl in Hrange; lia|].
  eexists. split.
  { apply updateTaskTextInData_own; [done|]. by rewrite Hget. }
  unfold updateTaskText_steps. cbv zeta.
  rewrite !Hget. cbn [truthy negb isArray orb]. rewrite !Hget.
  destruct (canonical_slot es (Z.to_nat index) Hes Hrange) as (s & b & Hslot).
  rewrite (get_index_canonical_slot _ _ _ _ Hi Hslot).
  cbn [truthy typeof_is_object task_literal negb orb]. rewrite Hget.
  rewrite (get_index_canonical_slot _ _ _ _ Hi Hslot).
  assert (canonical_collection
            (set (JObj ps) department
               (set_index (JArr es []) index (task_literal (JStr text) b))) = true) as Hset.
  { apply canonical_set; [done|]. by apply set_index_canonical. }
  by rewrite validateDataStructure_canonical.
Qed.

(** Testable properties 4 and 6 of the design document. *)
Example validate_rejects_array :
  validateJsonStructure (JArr [Some (JNum 1); Some (JNum 2); Some (JNum 3)] [])
  = invalid (u "Invalid response: expected an object with department keys").
Proof. reflexivity. Qed.

Example validate_names_key :
  validateJsonStructure (JObj [(u "A", JStr (u "not-array"))])
  = invalid (u "Invalid structure: department " ++ [dquote] ++ u "A" ++ [dquote]
               ++ u " should be an array, got string").
Proof. reflexivity. Qed.

Example progress_sample :
  calculateProgress
    (JObj [(u "Marketing", task_array [(u "a", false); (u "b", true); (u "c", false)]);
           (u "Legal", task_array [])])
  = (1, 3).
Proof. reflexivity. Qed.

(* ===================================================================== *)
(** ** More on trimming *)
(* ===================================================================== *)

Lemma trimStart_app_visible x c y :
  is_ws c = false -> trimStart (x ++ c :: y) = trimStart x ++ c :: y.
Proof.
  intros Hc. induction x as [|a x IH]; simpl.
  - by rewrite Hc.
  - destruct (is_ws a); [exact IH|done].
Qed.

Lemma trimEnd_app_visible x c y :
  is_ws c = false -> trimEnd (x ++ c :: y) = x ++ c :: trimEnd y.
Proof.
  intros Hc. unfold trimEnd.
  rewrite reverse_app, reverse_cons, <- app_assoc.
  change ([c] ++ reverse x) with (c :: reverse x).
  rewrite (trimStart_app_visible (reverse y) c (reverse x) Hc).
  rewrite reverse_app, reverse_cons, reverse_involutive.
  by rewrite <- app_assoc.
Qed.

Lemma trim_visible x c y :
  is_ws c = false -> trim (x ++ c :: y) = trimStart x ++ c :: trimEnd y.
Proof.
  intros Hc. unfold trim.
  by rewrite trimStart_app_visible, trimEnd_app_visible.
Qed.

Lemma trimStart_blank s : forallb is_ws s = true -> trimStart s = [].
Proof.
  induction s as [|c s IH]; simpl; [done|].
  intros [-> Hs]%andb_prop. auto.
Qed.

Lemma trimEnd_blank s : forallb is_ws s = true -> trimEnd s = [].
Proof.
  intros Hs. unfold trimEnd.
  by rewrite trimStart_blank by (by rewrite forallb_reverse).
Qed.

Lemma trimEnd_blank_suffix y w :
  forallb is_ws w = true -> trimEnd (y ++ w) = trimEnd y.
Proof.
  intros Hw. unfold trimEnd. rewrite reverse_app.
  by rewrite trimStart_ws_prefix by (by rewrite forallb_reverse).
Qed.

Lemma has_visible_false s : has_visible s = false <-> forallb is_ws s = true.
Proof.
  unfold has_visible. induction s as [|c s IH]; simpl; [done|].
  destruct (is_ws c); simpl; [exact IH|done].
Qed.

(** The first unit that is no blank, with the blanks before it. *)
Lemma has_visible_split s :
  has_visible s = true ->
  exists x c y, s = x ++ c :: y /\ forallb is_ws x = true /\ is_ws c = false.
Proof.
  unfold has_visible. induction s as [|a s IH]; simpl; [done|].
  destruct (is_ws a) eqn:Ha; simpl.
  - intros H. destruct (IH H) as (x & c & y & -> & Hx & Hc).
    exists (a :: x), c, y. simpl. by rewrite Ha.
  - intros _. by exists [], a, s.
Qed.

Lemma trim_blank s : has_visible s = false -> trim s = [].
Proof.
  intros H%has_visible_false. unfold trim. by rewrite trimStart_blank.
Qed.

Lemma trim_of_visible s :
  has_visible s = true ->
  exists x c y, s = x ++ c :: y /\ forallb is_ws x = true /\ is_ws c = false
                /\ trim s = c :: trimEnd y.
Proof.
  intros H. destruct (has_visible_split s H) as (x & c & y & -> & Hx & Hc).
  exists x, c, y. repeat split; try done.
  by rewrite trim_visible, trimStart_blank.
Qed.

Lemma trim_nil_iff s : trim s = [] <-> has_visible s = false.
Proof.
  split; [|apply trim_blank].
  destruct (has_visible s) eqn:H; [|done].
  destruct (trim_of_visible s H) as (x & c & y & _ & _ & _ & ->). done.
Qed.

Lemma trimStart_idem s : trimStart (trimStart s) = trimStart s.
Proof.
  induction s as [|c s IH]; simpl; [done|].
  destruct (is_ws c) eqn:Hc; [exact IH|]. simpl. by rewrite Hc.
Qed.

Lemma trimEnd_idem s : trimEnd (trimEnd s) = trimEnd s.
Proof. unfold trimEnd. by rewrite reverse_involutive, trimStart_idem. Qed.

Lemma trim_idem s : trim (trim s) = trim s.
Proof.
  destruct (has_visible s) eqn:H.
  - destruct (trim_of_visible s H) as (x & c & y & _ & _ & Hc & ->).
    pose proof (trim_visible [] c (trimEnd y) Hc) as Ht. simpl in Ht.
    by rewrite Ht, trimEnd_idem.
  - by rewrite (trim_blank s H).
Qed.

Lemma trim_padding w1 s w2 :
  forallb is_ws w1 = true -> forallb is_ws w2 = true ->
  trim (w1 ++ s ++ w2) = trim s.
Proof.
  intros H1 H2. destruct (has_visible s) eqn:H.
  - destruct (has_visible_split s H) as (x & c & y & -> & Hx & Hc).
    replace (w1 ++ (x ++ c :: y) ++ w2) with ((w1 ++ x) ++ c :: (y ++ w2))
      by (by rewrite <- !app_assoc).
    rewrite !trim_visible by done.
    by rewrite trimStart_ws_prefix, trimEnd_blank_suffix.
  - rewrite (trim_blank s H). apply trim_blank, has_visible_false.
    apply has_visible_false in H. by rewrite !forallb_app, H1, H, H2.
Qed.

Lemma elem_of_trimStart c s : c ∈ trimStart s -> c ∈ s.
Proof.
  induction s as [|a s IH]; simpl; [done|].
  destruct (is_ws a); [|done]. intros H. right. auto.
Qed.

Lemma elem_of_trimEnd c s : c ∈ trimEnd s -> c ∈ s.
Proof.
  unfold trimEnd. rewrite elem_of_reverse. intros H%elem_of_trimStart.
  by apply elem_of_reverse.
Qed.

(* ===================================================================== *)
(** ** Task text validity and the instructions field *)
(* ===================================================================== *)

(** X1.  A task text is valid exactly when it holds a unit that is no
    blank and is at most 1000 units long once trimmed; blanks around a text
    never change the verdict. *)
Theorem validateTaskText_verdict (s : jstring) :
  (isValid (validateTaskText (JStr s)) = true
   <-> has_visible s = true /\ (length (trim s) <= 1000)%nat)
  /\ (forall w1 w2,
        forallb is_ws w1 = true -> forallb is_ws w2 = true ->
        validateTaskText (JStr (w1 ++ s ++ w2)) = validateTaskText (JStr s)).
Proof.
  split.
  - unfold validateTaskText. cbv zeta.
    destruct (Nat.eqb_spec (length (trim s)) 0) as [H0|H0].
    + apply length_zero_iff_nil, trim_nil_iff in H0. rewrite H0.
      split; [done|]. by intros [? _].
    + assert (has_visible s = true) as Hv.
      { destruct (has_visible s) eqn:E; [done|].
        apply trim_blank in E. by rewrite E in H0. }
      destruct (Nat.ltb_spec 1000 (length (trim s))) as [Hlt|Hle].
      * split; [done|]. intros [_ ?]. lia.
      * by split.
  - intros w1 w2 H1 H2. unfold validateTaskText. by rewrite trim_padding.
Qed.

Lemma validateTaskText_verdict_witness :
  validateTaskText (JStr ([32%N] ++ u "Ship it" ++ [newline]))
  = validateTaskText (JStr (u "Ship it")).
Proof.
  apply (proj2 (validateTaskText_verdict (u "Ship it")) [32%N] [newline]); reflexivity.
Defined.

Lemma request_rejected_iff s :
  handler.request_rejected (JStr s) = negb (has_visible s).
Proof.
  unfold handler.request_rejected. simpl.
  destruct (has_visible s) eqn:H.
  - destruct (trim_of_visible s H) as (x & c & y & -> & _ & _ & ->).
    by destruct x.
  - rewrite (trim_blank s H). by destruct s.
Qed.

(** X2.  The parse button's click handler sends nothing exactly when the
    field holds only blanks; what it does send is the trimmed text, and a
    request handler never answers that text with "invalid request". *)
Theorem click_text_accepted (value : jstring) :
  (parse_click_instructions value = None <-> has_visible value = false)
  /\ (forall instructions,
        parse_click_instructions value = Some instructions ->
        instructions = trim value
        /\ handler.request_rejected (JStr instructions) = false).
Proof.
  unfold parse_click_instructions. cbv zeta.
  destruct (trim value) as [|c t] eqn:Ht; cbn [truthy negb].
  - apply trim_nil_iff in Ht. split; [by split|]. by intros ?.
  - assert (has_visible value = true) as Hv.
    { destruct (has_visible value) eqn:E; [done|].
      apply trim_blank in E. congruence. }
    split; [split; congruence|].
    intros i [= <-]. split; [done|].
    rewrite request_rejected_iff.
    destruct (has_visible (c :: t)) eqn:E; [done|].
    apply trim_blank in E. rewrite <- Ht, trim_idem in E. congruence.
Qed.

Lemma click_text_accepted_witness :
  parse_click_instructions (u "  make the logo bigger ") = Some (u "make the logo bigger")
  /\ handler.request_rejected (JStr (u "make the logo bigger")) = false.
Proof.
  split; [reflexivity|].
  apply (proj2 (click_text_accepted (u "  make the logo bigger ")) _ eq_refl).
Defined.

(* ===================================================================== *)
(** ** More on the extractors *)
(* ===================================================================== *)

Lemma trimStart_suffix s :
  exists w, s = w ++ trimStart s /\ forallb is_ws w = true.
Proof.
  induction s as [|c s (w & IH & Hw)]; simpl; [by exists []|].
  destruct (is_ws c) eqn:Hc; [|by exists []].
  exists (c :: w). simpl. rewrite Hc, Hw. split; [by f_equal|done].
Qed.

Lemma trimEnd_prefix s :
  exists w, s = trimEnd s ++ w /\ forallb is_ws w = true.
Proof.
  unfold trimEnd. destruct (trimStart_suffix (reverse s)) as (w & Hw & Hws).
  exists (reverse w). split; [|by rewrite forallb_reverse].
  rewrite <- reverse_app, <- Hw. by rewrite reverse_involutive.
Qed.

(** A text is its trimmed form between two runs of blanks. *)
Lemma trim_infix s :
  exists w1 w2, s = w1 ++ trim s ++ w2
                /\ forallb is_ws w1 = true /\ forallb is_ws w2 = true.
Proof.
  destruct (trimStart_suffix s) as (w1 & H1 & Hw1).
  destruct (trimEnd_prefix (trimStart s)) as (w2 & H2 & Hw2).
  exists w1, w2. unfold trim. by rewrite <- H2.
Qed.

Lemma blank_has_no_visible c w :
  forallb is_ws w = true -> is_ws c = false -> c ∉ w.
Proof.
  intros Hw Hc Hin. induction w as [|a w IH]; [by apply elem_of_nil in Hin|].
  simpl in Hw. apply andb_prop in Hw as [Ha Hw].
  apply elem_of_cons in Hin as [->|Hin]; [congruence|auto].
Qed.

Lemma brace_span_untrim s r : brace_span (trim s) r -> brace_span s r.
Proof.
  intros (pre & mid & post & Ht & -> & Hpre & Hpost).
  destruct (trim_infix s) as (w1 & w2 & Hs & Hw1 & Hw2).
  exists (w1 ++ pre), mid, (post ++ w2). repeat split.
  - rewrite Hs at 1. rewrite Ht. by rewrite <- !app_assoc.
  - apply not_elem_of_app. split; [by apply blank_has_no_visible|done].
  - apply not_elem_of_app. split; [done|by apply blank_has_no_visible].
Qed.

Lemma no_fence_pair_trim s : ~ has_fence_pair s -> ~ has_fence_pair (trim s).
Proof.
  intros Hno (a & b & c & Heq). apply Hno.
  destruct (trim_infix s) as (w1 & w2 & Hs & _).
  exists (w1 ++ a), b, (c ++ w2). rewrite Hs, Heq. by rewrite <- !app_assoc.
Qed.

Lemma brace_span_trim s r : brace_span s r -> brace_span (trim s) r.
Proof.
  intros (pre & mid & post & -> & -> & Hpre & Hpost).
  exists (trimStart pre), mid, (trimEnd post). repeat split.
  - replace (pre ++ (lbrace :: mid ++ [rbrace]) ++ post)
      with (pre ++ lbrace :: (mid ++ rbrace :: post))
      by (simpl; by rewrite <- !app_assoc).
    unfold trim. rewrite trimStart_app_visible by done.
    replace (trimStart pre ++ lbrace :: mid ++ rbrace :: post)
      with ((trimStart pre ++ lbrace :: mid) ++ rbrace :: post)
      by (by rewrite <- !app_assoc).
    rewrite trimEnd_app_visible by done. simpl. by rewrite <- !app_assoc.
  - intros H. by apply Hpre, elem_of_trimStart.
  - intros H. by apply Hpost, elem_of_trimEnd.
Qed.

Lemma index_extract_some s r :
  index_js.extractJsonFromResponse (JStr s) = Return r -> s <> [].
Proof. by destruct s. Qed.

(** X3.  Whatever the extractor of src/index.js returns has no blank at
    either end: trimming it again changes nothing.  The same holds for the
    request handlers' extractor. *)
Theorem extract_result_trimmed (s : jstring) :
  (forall r, index_js.extractJsonFromResponse (JStr s) = Return r -> trim r = r)
  /\ trim (server_js.extractJsonFromResponse_handler s)
     = server_js.extractJsonFromResponse_handler s.
Proof.
  split.
  - intros r Hr. pose proof (index_extract_some s r Hr) as Hs.
    destruct (fence_step_total (trim s)) as [t Ht].
    destruct (index_extract_narrow s t Hs Ht) as [(r' & Hspan & Hr')|[_ Hr']].
    + assert (r = r') as <- by congruence.
      destruct Hspan as (_ & mid & _ & _ & -> & _).
      pose proof (trim_core lbrace mid rbrace [] eq_refl eq_refl eq_refl) as H.
      by rewrite app_nil_r in H.
    + assert (r = t) as -> by congruence.
      destruct Ht as [(cap & _ & _ & ->)|(_ & _ & ->)]; apply trim_idem.
  - unfold server_js.extractJsonFromResponse_handler. cbv zeta.
    destruct (fence_regex_match (trim s)); apply trim_idem.
Qed.

Lemma extract_result_trimmed_witness :
  trim (u "{x}") = u "{x}".
Proof.
  apply (proj1 (extract_result_trimmed (u " see {x} there ")) (u "{x}")). reflexivity.
Defined.

(** X4.  On a text without a pair of fences the two browser extractors
    agree wherever the one of server.js succeeds; where it fails, the one
    of src/index.js returns the trimmed text instead. *)
Theorem extractors_agree_without_fences (s : jstring) :
  ~ has_fence_pair s ->
  (forall r, server_js.extractJsonFromResponse s = Return r ->
             index_js.extractJsonFromResponse (JStr s) = Return r)
  /\ (forall e, server_js.extractJsonFromResponse s = Throw e -> s <> [] ->
                index_js.extractJsonFromResponse (JStr s) = Return (trim s)).
Proof.
  intros Hno.
  assert (Hstep : fence_step (trim s) (trim s)).
  { right. repeat split; [|by apply no_fence_pair_trim].
    destruct (fence_regex_match (trim s)) as [cap|] eqn:E; [|done].
    exfalso. apply (no_fence_pair_trim s Hno).
    destruct (fence_regex_match_sound _ _ E) as (pre & tag & ws1 & ws2 & post & Heq & _).
    exists pre, (tag ++ ws1 ++ cap ++ ws2), post. rewrite Heq. by rewrite <- !app_assoc. }
  split.
  - intros r Hr.
    destruct (server_extract_cases s) as [(r' & Hspan & Hr')|[_ Hthrow]]; [|congruence].
    assert (r' = r) as -> by congruence.
    assert (s <> []) as Hs.
    { intros ->. destruct Hspan as (pre & mid & post & Heq & _). by destruct pre. }
    destruct (index_extract_narrow s _ Hs Hstep) as [(r2 & Hspan2 & Hr2)|[Hnob _]].
    + by rewrite Hr2, (brace_span_unique _ _ _ Hspan2 (brace_span_trim _ _ Hspan)).
    + by destruct (brace_span_excludes _ _ (brace_span_trim _ _ Hspan)).
  - intros e He Hs.
    destruct (server_extract_cases s) as [(r' & _ & Hr')|[Hnob _]]; [congruence|].
    destruct (index_extract_narrow s _ Hs Hstep) as [(r2 & Hspan2 & _)|[_ Hr2]]; [|done].
    by destruct (brace_span_excludes _ _ (brace_span_untrim _ _ Hspan2)).
Qed.

Lemma extractors_agree_without_fences_witness :
  index_js.extractJsonFromResponse (JStr (u "prefix {x} suffix")) = Return (u "{x}").
Proof.
  apply (extractors_agree_without_fences (u "prefix {x} suffix")); [|reflexivity].
  intros (a & b & c & Heq).
  assert (backtick ∈ u "prefix {x} suffix") as Hin.
  { rewrite Heq. apply elem_of_app. right. by left. }
  repeat (apply elem_of_cons in Hin as [Hin|Hin]; [discriminate Hin|]).
  by apply elem_of_nil in Hin.
Defined.

(* ===================================================================== *)
(** ** Exact effects of the store operations *)
(* ===================================================================== *)

Lemma assoc_set_id k v ps : assoc k ps = Some v -> assoc_set k v ps = ps.
Proof.
  induction ps as [|[k' v'] ps IH]; simpl; [done|].
  unfold jstring_eqb. case_bool_decide as E.
  - intros [= ->]. by subst.
  - intros H. by rewrite IH.
Qed.

Lemma get_set_other ps k k' x :
  k <> k' -> get (set (JObj ps) k x) k' = get (JObj ps) k'.
Proof. intros H. simpl. by rewrite assoc_set_other. Qed.

Lemma set_same ps k v : get (JObj ps) k = v -> v <> JUndefined -> set (JObj ps) k v = JObj ps.
Proof.
  simpl. intros Hget Hv. destruct (assoc k ps) as [v'|] eqn:E; simpl in Hget.
  - subst. by rewrite assoc_set_id.
  - congruence.
Qed.

Lemma map_values_assoc_set (f : JSValue -> JSValue) k x ps :
  map (fun kv => (kv.1, f kv.2)) (assoc_set k x ps)
  = assoc_set k (f x) (map (fun kv => (kv.1, f kv.2)) ps).
Proof.
  induction ps as [|[k' v'] ps IH]; simpl; [done|].
  destruct (jstring_eqb k' k); simpl; [done|]. by rewrite IH.
Qed.

Lemma validateDataStructure_set ps k x :
  validateDataStructure (set (JObj ps) k x)
  = set (validateDataStructure (JObj ps)) k (heal_department x).
Proof. unfold validateDataStructure. simpl. by rewrite map_values_assoc_set. Qed.




(** X5.  [updateTaskCompletionInData] on a slot that holds an object, in
    any store: only the [completed] property of that one slot changes.  It
    becomes [true] when the argument is the boolean [true] and [false] for
    every other argument; the task's text, the other slots and the other
    departments stay as they were. *)
Theorem updateTaskCompletion_frame (ps : list (jstring * JSValue))
    (department : jstring) (index : Z) (completed : JSValue)
    (es : list (option JSValue)) (named tps : list (jstring * JSValue)) :
  assoc department ps = Some (JArr es named) ->
  is_array_index index = true ->
  es !! Z.to_nat index = Some (Some (JObj tps)) ->
  let after := updateTaskCompletionInData (JObj ps) department index completed in
  after = set (JObj ps) department
            (JArr (<[Z.to_nat index :=
                       Some (set (JObj tps) completed_key (JBool (strict_true completed)))]> es)
               named)
  /\ get (get_index (get after department) index) completed_key
     = JBool (strict_true completed)
  /\ get (get_index (get after department) index) text_key = get (JObj tps) text_key
  /\ (forall j, j <> index -> is_array_index j = true ->
        get_index (get after department) j = get_index (JArr es named) j)
  /\ (forall other, other <> department -> get after other = get (JObj ps) other).
Proof.
  intros Hdep Hi Hslot after.
  assert (Hlt : (Z.to_nat index < length es)%nat) by (by eapply lookup_lt_Some).
  assert (Hexact : after = set (JObj ps) department
            (JArr (<[Z.to_nat index :=
                       Some (set (JObj tps) completed_key (JBool (strict_true completed)))]> es)
               named)).
  { unfold after, updateTaskCompletionInData. cbv zeta.
    rewrite !(get_Some _ _ _ Hdep). cbn [truthy isArray negb orb].
    rewrite !(get_Some _ _ _ Hdep).
    assert (get_index (JArr es named) index = JObj tps) as ->.
    { unfold get_index. by rewrite Hi, Hslot. }
    cbn [truthy typeof_is_object negb orb]. rewrite !(get_Some _ _ _ Hdep).
    assert (get_index (JArr es named) index = JObj tps) as ->.
    { unfold get_index. by rewrite Hi, Hslot. }
    unfold set_index. rewrite Hi. by rewrite bool_decide_eq_true_2. }
  split; [exact Hexact|]. rewrite Hexact, get_set_same.
  assert (Hnew : get_index
            (JArr (<[Z.to_nat index :=
                       Some (set (JObj tps) completed_key (JBool (strict_true completed)))]> es)
               named) index
          = set (JObj tps) completed_key (JBool (strict_true completed))).
  { unfold get_index. by rewrite Hi, list_lookup_insert_eq. }
  rewrite Hnew. split; [|split; [|split]].
  - simpl. by rewrite assoc_set_same.
  - simpl. by rewrite assoc_set_other.
  - intros j Hj Hij. unfold get_index. rewrite Hij.
    rewrite list_lookup_insert_ne; [done|].
    unfold is_array_index in Hi, Hij. lia.
  - intros other Hother. by apply get_set_other.
Qed.

Lemma updateTaskCompletion_frame_witness :
  let store := JObj [(u "Brand", JArr [Some (task_literal (JStr (u "logo")) false)] []);
                     (u "Legal", JStr (u "left alone"))] in
  updateTaskCompletionInData store (u "Brand") 0 (JStr (u "true"))
  = store.
Proof.
  pose proof (updateTaskCompletion_frame
    [(u "Brand", JArr [Some (task_literal (JStr (u "logo")) false)] []);
     (u "Legal", JStr (u "left alone"))]
    (u "Brand") 0 (JStr (u "true"))
    [Some (task_literal (JStr (u "logo")) false)] []
    [(text_key, JStr (u "logo")); (completed_key, JBool false)]
    eq_refl eq_refl eq_refl) as [H _].
  exact H.
Defined.

Lemma updateTaskText_on_object_slot ps department index text es s b :
  canonical_collection (JObj ps) = true ->
  get (JObj ps) department = JArr es [] ->
  is_array_index index = true ->
  es !! Z.to_nat index = Some (Some (task_literal (JStr s) b)) ->
  updateTaskTextInData (JObj ps) department index text
  = Ordinary
      (set (JObj ps) department
         (JArr (<[Z.to_nat index := Some (task_literal (JStr text) b)]> es) [])).
Proof.
  intros Hcan Hget Hi Hslot.
  assert (Hlt : (Z.to_nat index < length es)%nat) by (by eapply lookup_lt_Some).
  destruct (canonical_get ps department Hcan) as [Hu|(es' & Hget' & Hes)]; [congruence|].
  assert (es' = es) as -> by congruence.
  rewrite updateTaskTextInData_own by (by rewrite ?Hget). f_equal.
  unfold updateTaskText_steps. cbv zeta.
  rewrite !Hget. cbn [truthy negb isArray orb]. rewrite !Hget.
  rewrite (get_index_canonical_slot _ _ _ _ Hi Hslot).
  cbn [truthy typeof_is_object task_literal negb orb]. rewrite Hget.
  rewrite (get_index_canonical_slot _ _ _ _ Hi Hslot).
  match goal with
  | |- validateDataStructure ?X = _ =>
      assert (X = set (JObj ps) department
                    (JArr (<[Z.to_nat index := Some (task_literal (JStr text) b)]> es) []))
        as ->
  end.
  { f_equal. unfold set_index. rewrite Hi. by rewrite bool_decide_eq_true_2. }
  apply validateDataStructure_canonical, canonical_set; [done|].
  simpl. by apply forallb_insert.
Qed.

Lemma updateTaskText_on_missing_slot ps department index text es :
  canonical_collection (JObj ps) = true ->
  get (JObj ps) department = JArr es [] ->
  get_index (JArr es []) index = JUndefined ->
  updateTaskTextInData (JObj ps) department index text
  = Ordinary
      (set (JObj ps) department
         (heal_department (set_index (JArr es []) index (task_literal (JStr text) false)))).
Proof.
  intros Hcan Hget Hslot.
  rewrite updateTaskTextInData_own by (by rewrite ?Hget). f_equal.
  unfold updateTaskText_steps. cbv zeta.
  rewrite !Hget. cbn [truthy negb isArray orb]. rewrite !Hget, Hslot.
  cbn [truthy negb orb].
  rewrite !get_set_same, get_index_set_index, set_set, set_index_set_index.
  rewrite validateDataStructure_set, (validateDataStructure_canonical _ Hcan).
  reflexivity.
Qed.

Lemma array_map_app (f : JSValue -> JSValue) a b :
  array_map f (a ++ b) = array_map f a ++ array_map f b.
Proof. unfold array_map. by rewrite map_app. Qed.

Lemma array_map_holes (f : JSValue -> JSValue) n :
  array_map f (replicate n None) = replicate n None.
Proof. induction n as [|n IH]; simpl; [done|]. by f_equal. Qed.

(** X6.  [updateTaskTextInData] on a canonical store, for a department the
    store holds.  At an index that addresses a task, only that task's text
    changes.  At an index past the end, the array is extended: the new task
    sits at that index and the slots in between are holes.  At an index
    that is no array index (a negative one, say) the text is dropped and
    the store is left as it was. *)
Theorem updateTaskText_effect (ps : list (jstring * JSValue))
    (department : jstring) (index : Z) (text : jstring) (es : list (option JSValue)) :
  canonical_collection (JObj ps) = true ->
  get (JObj ps) department = JArr es [] ->
  let after := updateTaskTextInData (JObj ps) department index text in
  (forall s b,
     is_array_index index = true ->
     es !! Z.to_nat index = Some (Some (task_literal (JStr s) b)) ->
     after = Ordinary
               (set (JObj ps) department
                  (JArr (<[Z.to_nat index := Some (task_literal (JStr text) b)]> es) [])))
  /\ (is_array_index index = true -> (length es <= Z.to_nat index)%nat ->
      after = Ordinary
                (set (JObj ps) department
                   (JArr (es ++ replicate (Z.to_nat index - length es) None
                             ++ [Some (task_literal (JStr text) false)]) [])))
  /\ (is_array_index index = false -> after = Ordinary (JObj ps)).
Proof.
  intros Hcan Hget after.
  destruct (canonical_get ps department Hcan) as [Hu|(es' & Hget' & Hes)]; [congruence|].
  assert (es' = es) as -> by congruence.
  assert (Hheal : array_map heal_task es = es)
    by (by apply heal_elements_canonical).
  split; [|split].
  - intros s b Hi Hslot. by apply (updateTaskText_on_object_slot _ _ _ _ _ s b).
  - intros Hi Hlen. unfold after.
    rewrite (updateTaskText_on_missing_slot _ _ _ _ es Hcan Hget).
    + f_equal. unfold set_index. rewrite Hi.
      rewrite bool_decide_eq_false_2 by lia. cbn [heal_department].
      rewrite !array_map_app, array_map_holes, Hheal.
      cbn [array_map map option_map].
      by rewrite heal_task_literal by apply js_or_string.
    + unfold get_index. rewrite Hi.
      by rewrite lookup_ge_None_2.
  - intros Hi. unfold after.
    rewrite (updateTaskText_on_missing_slot _ _ _ _ es Hcan Hget).
    + f_equal. unfold set_index. rewrite Hi. cbn [heal_department]. rewrite Hheal.
      apply set_same; [done|discriminate].
    + unfold get_index. by rewrite Hi.
Qed.

Lemma updateTaskText_effect_witness :
  let store := JObj [(u "Brand", JArr [Some (task_literal (JStr (u "logo")) true)] [])] in
  updateTaskTextInData store (u "Brand") 0 (u "new logo")
  = Ordinary (JObj [(u "Brand", JArr [Some (task_literal (JStr (u "new logo")) true)] [])])
  /\ updateTaskTextInData store (u "Brand") 2 (u "x")
     = Ordinary
         (JObj [(u "Brand", JArr [Some (task_literal (JStr (u "logo")) true); None;
                                  Some (task_literal (JStr (u "x")) false)] [])])
  /\ updateTaskTextInData store (u "Brand") (-1) (u "lost") = Ordinary store.
Proof.
  pose proof (fun i t => updateTaskText_effect
    [(u "Brand", JArr [Some (task_literal (JStr (u "logo")) true)] [])]
    (u "Brand") i t [Some (task_literal (JStr (u "logo")) true)] eq_refl eq_refl) as H.
  split; [|split].
  - destruct (H 0 (u "new logo")) as (H0 & _). apply (H0 (u "logo") true); reflexivity.
  - destruct (H 2 (u "x")) as (_ & H2 & _). apply H2; [reflexivity|simpl; lia].
  - destruct (H (-1) (u "lost")) as (_ & _ & Hneg). by apply Hneg.
Defined.

(** X7.  Two completion updates of the same slot: the later one wins; and
    writing the flag the slot already carries leaves the store as it was,
    so ticking a box and unticking it restores the store. *)
Theorem updateTaskCompletion_overwrite (ps : list (jstring * JSValue))
    (department : jstring) (index : Z)
    (es : list (option JSValue)) (named tps : list (jstring * JSValue)) (b : bool) :
  assoc department ps = Some (JArr es named) ->
  is_array_index index = true ->
  es !! Z.to_nat index = Some (Some (JObj tps)) ->
  assoc completed_key tps = Some (JBool b) ->
  (forall c1 c2,
     updateTaskCompletionInData
       (updateTaskCompletionInData (JObj ps) department index c1) department index c2
     = updateTaskCompletionInData (JObj ps) department index c2)
  /\ updateTaskCompletionInData (JObj ps) department index (JBool b) = JObj ps
  /\ (forall c,
        updateTaskCompletionInData
          (updateTaskCompletionInData (JObj ps) department index c)
          department index (JBool b)
        = JObj ps).
Proof.
  intros Hdep Hi Hslot Hflag.
  assert (Hlt : (Z.to_nat index < length es)%nat) by (by eapply lookup_lt_Some).
  assert (Hlast : forall c1 c2,
     updateTaskCompletionInData
       (updateTaskCompletionInData (JObj ps) department index c1) department index c2
     = updateTaskCompletionInData (JObj ps) department index c2).
  { intros c1 c2.
    destruct (updateTaskCompletion_frame ps department index c1 es named tps Hdep Hi Hslot)
      as [-> _].
    destruct (updateTaskCompletion_frame ps department index c2 es named tps Hdep Hi Hslot)
      as [-> _].
    cbn [set].
    pose proof (updateTaskCompletion_frame
      (assoc_set department
         (JArr (<[Z.to_nat index :=
                    Some (JObj (assoc_set completed_key (JBool (strict_true c1)) tps))]> es)
            named) ps)
      department index c2
      (<[Z.to_nat index :=
           Some (JObj (assoc_set completed_key (JBool (strict_true c1)) tps))]> es)
      named (assoc_set completed_key (JBool (strict_true c1)) tps)
      (assoc_set_same _ _ _) Hi (list_lookup_insert_eq _ _ _ Hlt)) as [Heq _].
    cbn [set] in Heq. rewrite Heq.
    by rewrite assoc_set_set, list_insert_insert_eq, assoc_set_set. }
  assert (Hsame : updateTaskCompletionInData (JObj ps) department index (JBool b) = JObj ps).
  { destruct (updateTaskCompletion_frame ps department index (JBool b) es named tps
                Hdep Hi Hslot) as [-> _].
    assert (strict_true (JBool b) = b) as -> by (by destruct b).
    simpl set at 2. rewrite (assoc_set_id _ _ _ Hflag).
    rewrite list_insert_id by done.
    apply set_same; [by apply get_Some|discriminate]. }
  split; [exact Hlast|split; [exact Hsame|]].
  intros c. by rewrite Hlast.
Qed.

Lemma updateTaskCompletion_overwrite_witness :
  let store := JObj [(u "Brand", JArr [Some (task_literal (JStr (u "logo")) false)] [])] in
  updateTaskCompletionInData
    (updateTaskCompletionInData store (u "Brand") 0 (JBool true)) (u "Brand") 0 (JBool false)
  = store.
Proof.
  destruct (updateTaskCompletion_overwrite
    [(u "Brand", JArr [Some (task_literal (JStr (u "logo")) false)] [])]
    (u "Brand") 0 [Some (task_literal (JStr (u "logo")) false)] []
    [(text_key, JStr (u "logo")); (completed_key, JBool false)] false
    eq_refl eq_refl eq_refl eq_refl) as (_ & _ & H).
  apply (H (JBool true)).
Defined.



(* ===================================================================== *)
(** ** Progress accounting *)
(* ===================================================================== *)

Lemma count_department_fold es a b :
  fold_left
    (fun (acc : Z * Z) (e : option JSValue) =>
       match e with
       | Some task => (if counts_as_completed task then acc.1 + 1 else acc.1, acc.2 + 1)
       | None => acc
       end) es (a, b)
  = (a + completed_slots es, b + filled_slots es).
Proof.
  unfold completed_slots, filled_slots.
  revert a b. induction es as [|[t|] es IH]; intros a b; simpl.
  - f_equal; lia.
  - rewrite IH. destruct (counts_as_completed t); f_equal; lia.
  - apply IH.
Qed.

Lemma count_department_progress v : count_department v = department_progress v.
Proof.
  destruct v; try reflexivity. unfold count_department.
  rewrite count_department_fold. simpl. f_equal; lia.
Qed.

Lemma calculateProgress_fold ps a b :
  fold_left
    (fun (acc : Z * Z) (kv : jstring * JSValue) =>
       let c := count_department kv.2 in (acc.1 + c.1, acc.2 + c.2)) ps (a, b)
  = (a + (collection_progress ps).1, b + (collection_progress ps).2).
Proof.
  revert a b. induction ps as [|kv ps IH]; intros a b; simpl.
  - f_equal; lia.
  - rewrite IH, count_department_progress. f_equal; lia.
Qed.

Lemma calculateProgress_sum cd :
  calculateProgress cd
  = if truthy cd then collection_progress (own_enumerable cd) else (0, 0).
Proof.
  unfold calculateProgress. destruct (truthy cd); [|reflexivity]. simpl.
  rewrite calculateProgress_fold.
  by destruct (collection_progress (own_enumerable cd)).
Qed.

Lemma count_slots_bounds es : 0 <= completed_slots es <= filled_slots es.
Proof.
  unfold completed_slots, filled_slots.
  induction es as [|[t|] es IH]; simpl; [lia| |lia].
  destruct (counts_as_completed t); lia.
Qed.

Lemma collection_progress_bounds ps :
  0 <= (collection_progress ps).1 <= (collection_progress ps).2.
Proof.
  induction ps as [|[k v] ps IH]; simpl; [lia|].
  assert (0 <= (department_progress v).1 <= (department_progress v).2).
  { destruct v; simpl; try lia. apply count_slots_bounds. }
  lia.
Qed.

(** X9.  The progress pair is sound for every store, well-formed or not:
    the completed count is never negative and never exceeds the total. *)
Theorem progress_bounds (currentData : JSValue) :
  0 <= (calculateProgress currentData).1 <= (calculateProgress currentData).2.
Proof.
  rewrite calculateProgress_sum. destruct (truthy currentData); [|simpl; lia].
  apply collection_progress_bounds.
Qed.

Lemma collection_progress_set k x ps :
  collection_progress (assoc_set k x ps)
  = ((collection_progress ps).1
       - (department_progress (default JUndefined (assoc k ps))).1
       + (department_progress x).1,
     (collection_progress ps).2
       - (department_progress (default JUndefined (assoc k ps))).2
       + (department_progress x).2).
Proof.
  induction ps as [|[k' v] ps IH]; simpl.
  - f_equal; lia.
  - destruct (jstring_eqb k' k); simpl.
    + f_equal; lia.
    + rewrite IH. simpl. f_equal; lia.
Qed.

(** Replacing one department changes the progress by that department's
    share. *)
Lemma calculateProgress_set ps k x :
  calculateProgress (set (JObj ps) k x)
  = ((calculateProgress (JObj ps)).1 - (department_progress (get (JObj ps) k)).1
       + (department_progress x).1,
     (calculateProgress (JObj ps)).2 - (department_progress (get (JObj ps) k)).2
       + (department_progress x).2).
Proof.
  rewrite !calculateProgress_sum. simpl. by rewrite collection_progress_set.
Qed.


Lemma count_slots_insert p es (n : nat) t t' :
  es !! n = Some (Some t) ->
  count_slots p (<[n := Some t']> es)
  = count_slots p es - (if p t then 1 else 0) + (if p t' then 1 else 0).
Proof.
  revert n. induction es as [|e es IH]; intros [|n] H; simpl in *; try done.
  - injection H as ->. lia.
  - rewrite (IH _ H). destruct e; lia.
Qed.


Lemma counts_as_completed_literal t b : counts_as_completed (task_literal t b) = b.
Proof. by destruct b. Qed.



(** X11.  On a canonical store, a completion update of an addressed task
    leaves the total and moves the completed count by the difference
    between the new flag and the old one; a text update of an addressed
    task leaves an ordinary store and changes neither. *)
Theorem progress_updates (ps : list (jstring * JSValue)) (department : jstring)
    (index : Z) (es : list (option JSValue)) (s : jstring) (b : bool) :
  canonical_collection (JObj ps) = true ->
  get (JObj ps) department = JArr es [] ->
  is_array_index index = true ->
  es !! Z.to_nat index = Some (Some (task_literal (JStr s) b)) ->
  (forall completed,
     calculateProgress (updateTaskCompletionInData (JObj ps) department index completed)
     = ((calculateProgress (JObj ps)).1 - flag b + flag (strict_true completed),
        (calculateProgress (JObj ps)).2))
  /\ (forall text,
        exists after,
          updateTaskTextInData (JObj ps) department index text = Ordinary after
          /\ calculateProgress after = calculateProgress (JObj ps)).
Proof.
  intros Hcan Hget Hi Hslot.
  assert (Hdep : assoc department ps = Some (JArr es [])).
  { simpl in Hget. by destruct (assoc department ps) as [v|]; simplify_eq/=. }
  split.
  - intros completed.
    destruct (updateTaskCompletion_frame ps department index completed es []
                [(text_key, JStr s); (completed_key, JBool b)] Hdep Hi Hslot) as [-> _].
    rewrite calculateProgress_set, Hget. simpl department_progress.
    unfold completed_slots, filled_slots.
    rewrite !(count_slots_insert _ _ _ _ _ Hslot).
    rewrite !counts_as_completed_literal. simpl.
    change (JObj [(text_key, JStr s); (completed_key, JBool (strict_true completed))])
      with (task_literal (JStr s) (strict_true completed)).
    rewrite counts_as_completed_literal. unfold flag. f_equal; lia.
  - intros text. eexists.
    split; [exact (updateTaskText_on_object_slot _ _ _ _ _ s b Hcan Hget Hi Hslot)|].
    rewrite calculateProgress_set, Hget. simpl department_progress.
    unfold completed_slots, filled_slots.
    rewrite !(count_slots_insert _ _ _ _ _ Hslot), !counts_as_completed_literal.
    destruct (calculateProgress (JObj ps)). simpl. f_equal; lia.
Qed.

Lemma progress_updates_witness :
  let store := JObj [(u "Brand", task_array [(u "logo", false); (u "font", false)])] in
  calculateProgress (updateTaskCompletionInData store (u "Brand") 1 (JBool true)) = (1, 2)
  /\ (exists after,
        updateTaskTextInData store (u "Brand") 1 (u "serif") = Ordinary after
        /\ calculateProgress after = (0, 2)).
Proof.
  destruct (progress_updates
    [(u "Brand", task_array [(u "logo", false); (u "font", false)])]
    (u "Brand") 1 _ (u "font") false eq_refl eq_refl eq_refl eq_refl) as [Hc Ht].
  split; [apply (Hc (JBool true))|apply (Ht (u "serif"))].
Defined.

(* ===================================================================== *)
(** ** The two validators and the parse pipeline *)
(* ===================================================================== *)

Lemma handler_loop_iff entries :
  handler.validate_loop entries = true <-> validate_loop entries = None.
Proof.
  induction entries as [|[k v] entries IH]; simpl; [done|].
  destruct (negb (isArray v)); [done|].
  destruct (negb (every_string v)); [done|]. exact IH.
Qed.

Lemma browser_valid_inv data :
  isValid (validateJsonStructure data) = true ->
  exists ps, data = JObj ps /\ ps <> [] /\ validate_loop ps = None.
Proof.
  unfold validateJsonStructure.
  destruct data as [| | | | |es named|ps]; try discriminate;
    try (by destruct (_ || _)). simpl.
  destruct (validate_loop ps) as [r|] eqn:Hloop.
  - intros Hr. exfalso. clear -Hloop Hr.
    induction ps as [|[k v] ps IH]; simpl in Hloop; [done|].
    destruct (negb (isArray v)); [by simplify_eq|].
    destruct (negb (every_string v)); [by simplify_eq|]. auto.
  - destruct ps; [discriminate|]. intros _. by eexists.
Qed.

(** X12.  The browser's validator is the request handlers' validator and
    two more tests: whatever the browser accepts the handlers accept, and
    what the handlers accept the browser rejects exactly when it is not an
    object with at least one key (the empty object, or an array of string
    arrays). *)
Theorem browser_and_handler_validation (data : JSValue) :
  (isValid (validateJsonStructure data) = true ->
   handler.validateJsonStructure data = true)
  /\ (handler.validateJsonStructure data = true ->
      (isValid (validateJsonStructure data) = true
       <-> exists ps, data = JObj ps /\ ps <> [])).
Proof.
  split.
  - intros (ps & -> & _ & Hloop)%browser_valid_inv.
    unfold handler.validateJsonStructure. simpl. by apply handler_loop_iff.
  - intros Hh. split.
    + intros (ps & -> & Hne & _)%browser_valid_inv. eauto.
    + intros (ps & -> & Hne). unfold handler.validateJsonStructure in Hh.
      simpl in Hh. apply handler_loop_iff in Hh.
      unfold validateJsonStructure. simpl. rewrite Hh. by destruct ps.
Qed.

Lemma browser_and_handler_validation_witness :
  handler.validateJsonStructure (JObj [(u "Brand", string_array [u "logo"])]) = true
  /\ handler.validateJsonStructure (JObj []) = true
  /\ isValid (validateJsonStructure (JObj [])) = false.
Proof.
  split; [|split; reflexivity].
  apply (proj1 (browser_and_handler_validation _)). reflexivity.
Defined.

Lemma convert_string_slots es :
  array_every typeof_is_string es = true ->
  array_map convert_task es
  = map (option_map (fun s => task_literal (JStr s) false))
      (map (fun e => match e with Some (JStr s) => Some s | _ => None end) es).
Proof.
  induction es as [|[t|] es IH]; simpl; [done| |].
  - intros [Ht Hes]%andb_prop. destruct t; try discriminate.
    simpl. f_equal. by apply IH.
  - intros Hes. f_equal. by apply IH.
Qed.

Lemma valid_loop_seeds ps :
  validate_loop ps = None ->
  exists entries,
    length entries = length ps
    /\ map (fun kv => (kv.1, convert_department kv.2)) ps = seeded_properties entries.
Proof.
  induction ps as [|[k v] ps IH]; simpl.
  - intros _. by exists [].
  - destruct v as [| | | | |es named|]; simpl; try discriminate.
    destruct (array_every typeof_is_string es) eqn:Hes; simpl; [|discriminate].
    intros Hloop. destruct (IH Hloop) as (entries & Hlen & Heq).
    exists ((k, map (fun e => match e with Some (JStr s) => Some s | _ => None end) es)
              :: entries).
    unfold seeded_properties, seeded_tasks in *. simpl.
    rewrite Hlen, Heq, (convert_string_slots _ Hes). done.
Qed.

Lemma filter_map_values (f : JSValue -> JSValue) (p : jstring -> bool)
    (ps : list (jstring * JSValue)) :
  map (fun kv => (kv.1, f kv.2)) (List.filter (fun kv => p kv.1) ps)
  = List.filter (fun kv => p kv.1) (map (fun kv => (kv.1, f kv.2)) ps).
Proof.
  induction ps as [|[k v] ps IH]; simpl; [done|].
  destruct (p k); simpl; by rewrite IH.
Qed.

(** The result of [convertTasksToObjects] read off the converted
    properties. *)
Lemma convert_by_properties ps :
  convertTasksToObjects (JObj ps)
  = let converted := map (fun kv => (kv.1, convert_department kv.2)) ps in
    match assoc proto_key converted with
    | Some tasks =>
        Reparented tasks
          (List.filter (fun kv => negb (jstring_eqb kv.1 proto_key)) converted)
    | None => Ordinary (JObj converted)
    end.
Proof.
  cbv zeta. rewrite assoc_map_values. unfold convertTasksToObjects. simpl.
  rewrite (filter_map_values convert_department
             (fun k => negb (jstring_eqb k proto_key))).
  destruct (assoc proto_key ps) as [v|] eqn:E; simpl; [done|].
  by rewrite <- (filter_map_values convert_department
                   (fun k => negb (jstring_eqb k proto_key))),
       (filter_without_key _ _ E).
Qed.

Lemma seeded_render entries :
  renderDepartmentGroups (seeded_collection entries) = seeded_collection entries.
Proof.
  unfold renderDepartmentGroups.
  destruct (negb (truthy (seeded_collection entries))
            || (length (own_enumerable (seeded_collection entries)) =? 0)%nat); [done|].
  unfold validateDataStructure, seeded_collection, seeded_properties, seeded_tasks.
  simpl. f_equal.
  rewrite map_map. apply map_ext. intros [k ses]. simpl. do 2 f_equal.
  unfold array_map. rewrite map_map. apply map_ext. intros [s|]; simpl; [|done].
  f_equal. apply heal_task_literal, js_or_string.
Qed.

Lemma seeded_nothing_completed entries :
  (collection_progress (seeded_properties entries)).1 = 0.
Proof.
  induction entries as [|[k ses] entries IH]; simpl; [done|].
  rewrite IH. unfold completed_slots.
  assert (count_slots counts_as_completed
            (map (option_map (fun s => task_literal (JStr s) false)) ses) = 0) as ->; [|done].
  induction ses as [|[s|] ses IHs]; simpl; [done| |done]. by rewrite IHs.
Qed.

(** X13.  Whatever [parseInstructions] resolves to after an ok response,
    for every behaviour of [JSON.parse] and either extractor.  There is
    at least one parsed department, and the filled slots of each are
    incomplete tasks wrapping a string.  Without a department named
    [__proto__] the result is the ordinary collection of these
    departments: rendering it changes nothing, and its progress shows no
    completed task.  With one, the result holds the other departments
    only, and the tasks of that department are its prototype. *)
Theorem parse_result_seeded (JSON_parse : jstring -> JSValue + jstring)
    (extract : jstring -> Completion jstring)
    (contentType : option jstring) (responseText : jstring) (seed : Collection) :
  parseInstructions_response JSON_parse extract contentType responseText = Return seed ->
  (exists entries,
     entries <> []
     /\ seed = match assoc proto_key (seeded_properties entries) with
               | Some tasks =>
                   Reparented tasks
                     (List.filter (fun kv => negb (jstring_eqb kv.1 proto_key))
                        (seeded_properties entries))
               | None => Ordinary (seeded_collection entries)
               end)
  /\ (forall store,
        seed = Ordinary store ->
        renderDepartmentGroups store = store /\ (calculateProgress store).1 = 0).
Proof.
  unfold parseInstructions_response. cbv zeta.
  match goal with
  | |- context [parseAndValidateJson _ _ ?r] => generalize r; intros responseData
  end.
  destruct (parseAndValidateJson JSON_parse extract responseData) as [parsed|e] eqn:Hp;
    [|discriminate].
  intros [= <-].
  assert (Hvalid : isValid (validateJsonStructure parsed) = true).
  { unfold parseAndValidateJson in Hp. cbv zeta in Hp.
    repeat case_match; simplify_eq; by apply negb_false_iff. }
  destruct (browser_valid_inv _ Hvalid) as (ps & -> & Hne & Hloop).
  destruct (valid_loop_seeds ps Hloop) as (entries & Hlen & Heq).
  rewrite convert_by_properties. cbv zeta. rewrite Heq. split.
  - exists entries. split; [|done]. destruct entries; [|done]. by destruct ps.
  - intros store Hstore.
    destruct (assoc proto_key (seeded_properties entries)); [discriminate|].
    injection Hstore as <-. fold (seeded_collection entries). split.
    + apply seeded_render.
    + rewrite calculateProgress_sum. simpl. apply seeded_nothing_completed.
Qed.

Lemma parse_result_seeded_witness :
  renderDepartmentGroups (JObj [(u "Brand", task_array [(u "logo", false)])])
  = JObj [(u "Brand", task_array [(u "logo", false)])]
  /\ (calculateProgress (JObj [(u "Brand", task_array [(u "logo", false)])])).1 = 0.
Proof.
  apply (proj2 (parse_result_seeded
                  (fun _ => inl (JObj [(u "Brand", string_array [u "logo"])]))
                  index_extract None (u "{}")
                  (Ordinary (JObj [(u "Brand", task_array [(u "logo", false)])]))
                  eq_refl)).
  reflexivity.
Defined.

(* ===================================================================== *)
(** ** Self-healing *)
(* ===================================================================== *)




(* ===================================================================== *)
(** ** The export dropdown and the formatter *)
(* ===================================================================== *)





(* ===================================================================== *)
(** ** A provider failure, from the request handler to the browser *)
(* ===================================================================== *)



Lemma client_server_error error : client_on_reply 500 error = Some (Error msg_server).
Proof. reflexivity. Qed.

Lemma error_message_throws d :
  d = JNull \/ d = JUndefined -> error_message d = Throw TypeError.
Proof. by intros [-> | ->]. Qed.






(* ===================================================================== *)
(** ** The order of the department groups *)
(* ===================================================================== *)

Lemma Array_indexOf_from_range x l i :
  Array_indexOf_from x l i = -1 \/ i <= Array_indexOf_from x l i.
Proof.
  revert i. induction l as [|y l IH]; intros i; simpl; [by left|].
  destruct (jstring_eqb y x); [right; lia|].
  destruct (IH (i + 1)) as [H|H]; [by left|right; lia].
Qed.

Lemma Array_indexOf_from_absent x l i :
  0 <= i -> (Array_indexOf_from x l i = -1 <-> x ∉ l).
Proof.
  revert i. induction l as [|y l IH]; intros i Hi; simpl.
  - split; [intros _; apply not_elem_of_nil|done].
  - unfold jstring_eqb. case_bool_decide as E.
    + subst y. split; [lia|]. intros H. exfalso. apply H. left.
    + rewrite (IH (i + 1)) by lia. rewrite not_elem_of_cons. split; [by split|by intros [_ ?]].
Qed.

Lemma Array_indexOf_from_inj x y l i :
  Array_indexOf_from x l i <> -1 -> Array_indexOf_from x l i = Array_indexOf_from y l i -> x = y.
Proof.
  revert i. induction l as [|z l IH]; intros i; simpl; [done|].
  unfold jstring_eqb. do 2 case_bool_decide; subst; try done.
  - intros Hne Heq. destruct (Array_indexOf_from_range y l (i + 1)); lia.
  - intros Hne Heq. destruct (Array_indexOf_from_range x l (i + 1)); lia.
  - apply IH.
Qed.

(** X18.  The comparator that orders the department groups is as
    consistent as the collation it falls back on: with an antisymmetric
    and transitive [localeCompare] it is antisymmetric and transitive
    itself, so [sort] has one well-defined outcome.  Whatever the
    collation, a listed department precedes every unlisted one, and two
    listed departments compare equal only when they are the same. *)
Theorem department_compare_consistent (localeCompare : jstring -> jstring -> Z) :
  (forall a b, Z.sgn (localeCompare a b) = - Z.sgn (localeCompare b a)) ->
  (forall a b c, localeCompare a b <= 0 -> localeCompare b c <= 0 ->
                 localeCompare a c <= 0) ->
  let compare := department_compare localeCompare in
  (forall a b, Z.sgn (compare a b) = - Z.sgn (compare b a))
  /\ (forall a b c, compare a b <= 0 -> compare b c <= 0 -> compare a c <= 0)
  /\ (forall a b, a ∈ departmentOrder -> b ∉ departmentOrder ->
                  compare a b < 0 /\ 0 < compare b a)
  /\ (forall a b, a ∈ departmentOrder -> compare a b = 0 -> a = b).
Proof.
  intros Hanti Htrans compare. subst compare. unfold department_compare. cbv zeta.
  assert (Hr : forall x, Array_indexOf x departmentOrder = -1 \/ 0 <= Array_indexOf x departmentOrder)
    by (intros x; apply Array_indexOf_from_range).
  assert (Habs : forall x, Array_indexOf x departmentOrder = -1 <-> x ∉ departmentOrder)
    by (intros x; by apply Array_indexOf_from_absent).
  split; [|split; [|split]].
  - intros a b. destruct (Hr a) as [Ha|Ha], (Hr b) as [Hb|Hb];
      repeat (case_match; try lia); apply Hanti.
  - intros a b c. destruct (Hr a) as [Ha|Ha], (Hr b) as [Hb|Hb], (Hr c) as [Hc|Hc];
      repeat (case_match; try lia); apply Htrans.
  - intros a b Ha Hb. apply Habs in Hb.
    assert (Array_indexOf a departmentOrder <> -1) as Ha' by (intros H; by apply Habs in H).
    destruct (Hr a) as [|Hpos]; [done|]. repeat (case_match; try lia).
  - intros a b Ha.
    assert (Array_indexOf a departmentOrder <> -1) as Ha' by (intros H; by apply Habs in H).
    destruct (Hr a) as [|Hpos]; [done|]. destruct (Hr b) as [Hb|Hb];
      repeat (case_match; try lia).
    intros Hzero. apply (Array_indexOf_from_inj a b departmentOrder 0); [done|].
    unfold Array_indexOf in *. lia.
Qed.

Lemma department_compare_consistent_witness :
  department_compare (fun a b => Z.of_nat (length a) - Z.of_nat (length b))
    (u "Legal") (u "Zebra") < 0
  /\ 0 < department_compare (fun a b => Z.of_nat (length a) - Z.of_nat (length b))
          (u "Zebra") (u "Legal").
Proof.
  apply (department_compare_consistent
           (fun a b => Z.of_nat (length a) - Z.of_nat (length b))).
  - intros a b. rewrite <- Z.sgn_opp. f_equal. lia.
  - intros a b c. lia.
  - apply (bool_decide_unpack _). by vm_compute.
  - apply (bool_decide_unpack _). by vm_compute.
Defined.

(* ===================================================================== *)
(** ** The task element and the store *)
(* ===================================================================== *)

Lemma task_view_literal x b : task_view (task_literal x b) = task_literal x b.
Proof. reflexivity. Qed.

Lemma heal_task_is_literal t : exists x b, heal_task t = task_literal x b.
Proof. unfold heal_task. destruct (is_task_object t); by eexists _, _. Qed.

Lemma initially_flagged_string s b :
  initially_flagged (task_literal (JStr s) b) = Return (1000 <? length (trim s))%nat.
Proof.
  unfold initially_flagged. cbv zeta. rewrite task_view_literal.
  change (get (task_literal (JStr s) b) text_key) with (JStr s).
  unfold validateTaskText. cbv zeta.
  destruct (Nat.eqb_spec (length (trim s)) 0) as [H0|H0]; cbn [isValid invalid negb].
  - rewrite H0. done.
  - destruct (Nat.ltb_spec 1000 (length (trim s))) as [Hlt|Hle];
      cbn [isValid invalid valid negb]; [|done].
    f_equal. apply Nat.ltb_lt. lia.
Qed.

(** X19.  How a task element starts out and what a blur does.  An element
    created for a task with a string text is marked invalid at creation
    exactly when the trimmed text is over 1000 units long, so the empty
    task of [addTask] starts unmarked; a blur marks blank texts too.
    Creating the element for a text that is no string is a [TypeError]. *)
Theorem task_element_flags :
  (forall s b,
     initially_flagged (task_literal (JStr s) b)
     = Return (1000 <? length (trim s))%nat)
  /\ (forall value,
        flagged_on_blur value
        = negb (has_visible value) || (1000 <? length (trim value))%nat)
  /\ (forall x b,
        typeof_is_string x = false ->
        initially_flagged (task_literal x b) = Throw TypeError).
Proof.
  split; [|split].
  - apply initially_flagged_string.
  - intros value. unfold flagged_on_blur, validateTaskText. cbv zeta.
    destruct (has_visible value) eqn:Hv.
    + destruct (Nat.eqb_spec (length (trim value)) 0) as [H0|H0].
      * apply length_zero_iff_nil, trim_nil_iff in H0. congruence.
      * by destruct (1000 <? length (trim value))%nat.
    + by rewrite (trim_blank _ Hv).
  - intros x b Hx. unfold initially_flagged. cbv zeta. rewrite task_view_literal.
    change (get (task_literal x b) text_key) with x.
    by destruct x.
Qed.

Lemma task_element_flags_witness :
  initially_flagged (task_literal (JNum 5) false) = Throw TypeError.
Proof. apply (proj2 (proj2 task_element_flags)). reflexivity. Defined.

(** X20.  After [validateDataStructure], which [renderDepartmentGroups]
    runs before it creates the elements, the page and the store agree on
    every task: the checkbox is checked exactly when the element carries
    the completed class, and exactly when [calculateProgress] counts the
    task.  Before healing they can differ. *)
Theorem healed_task_view (task : JSValue) :
  let healed := heal_task task in
  task_view healed = healed
  /\ checkbox_checked healed = completed_class healed
  /\ counts_as_completed healed = checkbox_checked healed
  /\ (exists raw, checkbox_checked raw = false /\ completed_class raw = true).
Proof.
  intros healed. destruct (heal_task_is_literal task) as (x & b & Hh).
  subst healed. rewrite Hh. split; [done|]. split; [by destruct b|].
  split; [by destruct b|].
  by exists (JObj [(text_key, JStr (u "a")); (completed_key, JStr (u "yes"))]).
Qed.

(* ===================================================================== *)
(** ** What the handler lets through, in the browser *)
(* ===================================================================== *)

(** X22.  What [parseAndValidateJson] does with a value the request
    handler's validator accepted: an object with departments is returned
    as it is, the empty object is rejected for having no departments, and
    an array (of string arrays) for not being an object, whatever the
    extractor and [JSON.parse] are, since neither is consulted. *)
Theorem handler_accepted_in_browser (JSON_parse : jstring -> JSValue + jstring)
    (extract : jstring -> Completion jstring) (data : JSValue) :
  handler.validateJsonStructure data = true ->
  parseAndValidateJson JSON_parse extract data
  = match data with
    | JObj [] => Throw (Error msg_no_departments)
    | JObj _ => Return data
    | _ => Throw (Error msg_expected_object)
    end.
Proof.
  unfold handler.validateJsonStructure.
  destruct data as [| | | | |es named|ps]; try discriminate;
    try (cbn [typeof_is_object negb]; rewrite orb_true_r; discriminate).
  - intros _. reflexivity.
  - cbn [truthy typeof_is_object negb orb own_enumerable].
    intros Hloop%handler_loop_iff.
    unfold parseAndValidateJson, validateJsonStructure. cbv zeta.
    cbn [truthy typeof_is_object is_null isArray negb orb andb].
    rewrite Hloop. by destruct ps.
Qed.

Lemma handler_accepted_in_browser_witness :
  parseAndValidateJson (fun _ => inr []) index_extract (JObj [])
  = Throw (Error msg_no_departments)
  /\ parseAndValidateJson (fun _ => inr []) index_extract
       (JArr [Some (string_array [u "logo"])] [])
     = Throw (Error msg_expected_object).
Proof.
  split.
  - apply (handler_accepted_in_browser _ _ (JObj [])). reflexivity.
  - apply (handler_accepted_in_browser _ _ (JArr [Some (string_array [u "logo"])] [])).
    reflexivity.
Defined.

(* ===================================================================== *)
(** ** Instances *)
(* ===================================================================== *)

Lemma removeTask_shifts_witness :
  exists es',
    get (removeTask (JObj [(u "Brand", task_array [(u "a", false); (u "b", true)])])
           (u "Brand") 0) (u "Brand") = JArr es' []
    /\ S (length es') = 2%nat
    /\ (forall j : nat, (j < 0)%nat ->
          es' !! j = [Some (task_literal (JStr (u "a")) false);
                      Some (task_literal (JStr (u "b")) true)] !! j)
    /\ (forall j : nat, (0 <= j)%nat ->
          es' !! j = [Some (task_literal (JStr (u "a")) false);
                      Some (task_literal (JStr (u "b")) true)] !! S j).
Proof.
  apply (removeTask_shifts
           [(u "Brand", task_array [(u "a", false); (u "b", true)])]
           (u "Brand")
           [Some (task_literal (JStr (u "a")) false);
            Some (task_literal (JStr (u "b")) true)] 0).
  - reflexivity.
  - reflexivity.
  - simpl. lia.
Defined.

(* ===================================================================== *)
(** ** The store under the page's listeners and timers *)
(* ===================================================================== *)

Lemma canonical_task_inv t :
  canonical_task t = true -> exists s b, t = task_literal (JStr s) b.
Proof.
  intros H. unfold canonical_task in H.
  repeat case_match; try discriminate; subst.
  apply andb_prop in H as [H1 H2].
  apply bool_decide_eq_true in H1 as ->. apply bool_decide_eq_true in H2 as ->.
  by eexists _, _.
Qed.

Lemma canonical_task_literal s b : canonical_task (task_literal (JStr s) b) = true.
Proof. by vm_compute. Qed.

Lemma canonical_sparse c : canonical_collection c = true -> sparse_collection c = true.
Proof.
  destruct c as [| | | | | |ps]; try discriminate. simpl.
  induction ps as [|[k v] ps IH]; simpl; [done|].
  intros [Hv Hps]%andb_prop. rewrite (IH Hps), andb_true_r.
  destruct v as [| | | | |es named|]; try discriminate.
  destruct named; [|discriminate]. simpl in *.
  induction es as [|[t|] es IHes]; simpl in *; try done.
  apply andb_prop in Hv as [-> Hes]. by apply IHes.
Qed.

Lemma heal_elements_sparse es :
  forallb task_or_hole es = true -> array_map heal_task es = es.
Proof.
  induction es as [|[t|] es IH]; simpl; [done| |].
  - intros [Ht Hes]%andb_prop. by rewrite (heal_task_canonical _ Ht), (IH Hes).
  - intros Hes. by rewrite (IH Hes).
Qed.

Lemma heal_department_sparse v : sparse_tasks v = true -> heal_department v = v.
Proof.
  destruct v as [| | | | |es named|]; try discriminate.
  destruct named; [|discriminate]. simpl. intros H.
  by rewrite (heal_elements_sparse _ H).
Qed.

Lemma validateDataStructure_sparse c :
  sparse_collection c = true -> validateDataStructure c = c.
Proof.
  destruct c as [| | | | | |ps]; try discriminate.
  unfold validateDataStructure. simpl. intros H. f_equal.
  induction ps as [|[k v] ps IH]; [done|].
  simpl in H. apply andb_prop in H as [Hv Hps]. simpl.
  by rewrite (heal_department_sparse _ Hv), (IH Hps).
Qed.

Lemma renderDepartmentGroups_sparse c :
  sparse_collection c = true -> renderDepartmentGroups c = c.
Proof.
  intros Hs. unfold renderDepartmentGroups.
  destruct (negb (truthy c) || (length (own_enumerable c) =? 0)%nat); [done|].
  by apply validateDataStructure_sparse.
Qed.

Lemma sparse_get ps d :
  sparse_collection (JObj ps) = true -> has_own (JObj ps) d = true ->
  exists es, assoc d ps = Some (JArr es []) /\ forallb task_or_hole es = true.
Proof.
  intros Hs Ho. destruct (assoc d ps) as [v|] eqn:E.
  - pose proof (forallb_values_assoc sparse_tasks _ _ _ Hs E) as Hv.
    destruct v as [| | | | |es named|]; try discriminate.
    destruct named; [|discriminate]. by exists es.
  - apply has_own_false in E. congruence.
Qed.

Lemma keys_assoc_set k d x ps : k ∈ map fst ps -> k ∈ map fst (assoc_set d x ps).
Proof.
  induction ps as [|[k' v] ps IH]; simpl.
  - by intros ?%elem_of_nil.
  - unfold jstring_eqb. case_bool_decide as E; simpl; [by subst|].
    rewrite !elem_of_cons. intros [->|H]; [by left|right; auto].
Qed.

(** An assignment to a department keeps the store sparse and keeps its
    keys. *)
Lemma sparse_set ps d x :
  sparse_collection (JObj ps) = true -> sparse_tasks x = true ->
  sparse_collection (set (JObj ps) d x) = true
  /\ forall k, has_own (JObj ps) k = true -> has_own (set (JObj ps) d x) k = true.
Proof.
  intros Hs Hx. split; [by apply (forallb_values_assoc_set sparse_tasks)|].
  intros k. unfold has_own. simpl. rewrite !bool_decide_eq_true. apply keys_assoc_set.
Qed.

Lemma sparse_slot es i :
  forallb task_or_hole es = true -> is_array_index i = true ->
  get_index (JArr es []) i = JUndefined
  \/ exists s b, es !! Z.to_nat i = Some (Some (task_literal (JStr s) b))
                 /\ get_index (JArr es []) i = task_literal (JStr s) b.
Proof.
  intros Hes Hi. unfold get_index. rewrite Hi.
  destruct (es !! Z.to_nat i) as [[t|]|] eqn:E; simpl; [|by left..].
  right. rewrite forallb_forall in Hes.
  specialize (Hes (Some t)). simpl in Hes.
  destruct (canonical_task_inv t) as (s & b & ->); [|by eauto].
  apply Hes. apply list_elem_of_In. by eapply list_elem_of_lookup_2.
Qed.

Lemma forallb_holes n : forallb task_or_hole (replicate n None) = true.
Proof. by induction n. Qed.

Lemma sparse_set_index es i s b :
  forallb task_or_hole es = true -> is_array_index i = true ->
  sparse_tasks (set_index (JArr es []) i (task_literal (JStr s) b)) = true.
Proof.
  intros Hes Hi. unfold set_index. rewrite Hi. case_bool_decide; cbn [sparse_tasks].
  - apply forallb_insert; [done|]. apply canonical_task_literal.
  - rewrite !forallb_app, Hes, forallb_holes. cbn [forallb task_or_hole].
    by rewrite canonical_task_literal.
Qed.

Lemma set_completed_literal s b c :
  set (task_literal (JStr s) b) completed_key (JBool c) = task_literal (JStr s) c.
Proof. by vm_compute. Qed.

Lemma set_text_literal s b text :
  set (task_literal (JStr s) b) text_key (JStr text) = task_literal (JStr text) b.
Proof. by vm_compute. Qed.

(** The checkbox listener on a slot of a sparse store. *)
Lemma updateTaskCompletionInData_sparse ps d i completed :
  sparse_collection (JObj ps) = true -> has_own (JObj ps) d = true ->
  is_array_index i = true ->
  exists x, updateTaskCompletionInData (JObj ps) d i completed = set (JObj ps) d x
            /\ sparse_tasks x = true.
Proof.
  intros Hs Ho Hi. destruct (sparse_get ps d Hs Ho) as (es & Hd & Hes).
  pose proof (get_Some _ _ _ Hd) as Hget.
  unfold updateTaskCompletionInData. cbv zeta.
  rewrite !Hget. cbn [truthy negb isArray orb]. rewrite !Hget.
  destruct (sparse_slot es i Hes Hi) as [Hslot|(s & b & _ & Hslot)]; rewrite Hslot.
  - cbn [truthy negb orb]. rewrite !get_set_same, set_set.
    rewrite get_index_set_index, set_index_set_index.
    eexists. split; [done|].
    change (js_or JUndefined (JStr [])) with (JStr []).
    rewrite set_completed_literal. by apply sparse_set_index.
  - cbn [truthy typeof_is_object task_literal negb orb]. rewrite Hget, Hslot.
    eexists. split; [done|].
    rewrite set_completed_literal. by apply sparse_set_index.
Qed.

(** The text listeners on a slot of a sparse store. *)
Lemma updateTaskTextInData_sparse ps d i text :
  sparse_collection (JObj ps) = true -> has_own (JObj ps) d = true ->
  is_array_index i = true ->
  exists x, updateTaskTextInData (JObj ps) d i text = Ordinary (set (JObj ps) d x)
            /\ sparse_tasks x = true.
Proof.
  intros Hs Ho Hi. destruct (sparse_get ps d Hs Ho) as (es & Hd & Hes).
  pose proof (get_Some _ _ _ Hd) as Hget.
  rewrite updateTaskTextInData_own by (by rewrite ?Hget).
  unfold updateTaskText_steps. cbv zeta.
  rewrite !Hget. cbn [truthy negb isArray orb]. rewrite !Hget.
  destruct (sparse_slot es i Hes Hi) as [Hslot|(s & b & _ & Hslot)]; rewrite Hslot.
  - cbn [truthy negb orb]. rewrite !get_set_same, set_set.
    rewrite get_index_set_index, set_index_set_index, set_text_literal.
    pose proof (sparse_set_index es i text false Hes Hi) as Hx.
    rewrite validateDataStructure_sparse by (by apply sparse_set).
    by eexists.
  - cbn [truthy typeof_is_object task_literal negb orb]. rewrite Hget, Hslot.
    rewrite set_text_literal.
    pose proof (sparse_set_index es i text b Hes Hi) as Hx.
    rewrite validateDataStructure_sparse by (by apply sparse_set).
    by eexists.
Qed.

(** The delete listener: its guard passes and one slot at most goes. *)
Lemma removeTask_sparse ps d i :
  sparse_collection (JObj ps) = true -> has_own (JObj ps) d = true ->
  negb (truthy (JObj ps)) || negb (truthy (get (JObj ps) d))
    || negb (isArray (get (JObj ps) d)) = false
  /\ exists x, removeTask (JObj ps) d i = set (JObj ps) d x /\ sparse_tasks x = true.
Proof.
  intros Hs Ho. destruct (sparse_get ps d Hs Ho) as (es & Hd & Hes).
  pose proof (get_Some _ _ _ Hd) as Hget.
  unfold removeTask. rewrite !Hget. cbn [truthy isArray negb orb]. split; [done|].
  assert (Hx : sparse_tasks (splice1 (JArr es []) i) = true).
  { cbn [splice1 sparse_tasks]. rewrite forallb_app.
    by rewrite forallb_take, forallb_drop. }
  rewrite renderDepartmentGroups_sparse by (by apply sparse_set).
  by eexists.
Qed.

(** The add listener: a Task with an empty text is appended. *)
Lemma addTask_sparse ps d :
  sparse_collection (JObj ps) = true -> has_own (JObj ps) d = true ->
  exists x, (addTask (JObj ps) d).2 = set (JObj ps) d x /\ sparse_tasks x = true.
Proof.
  intros Hs Ho. destruct (sparse_get ps d Hs Ho) as (es & Hd & Hes).
  pose proof (get_Some _ _ _ Hd) as Hget.
  unfold addTask. cbv zeta. cbn [truthy negb snd].
  rewrite !Hget. cbn [truthy negb isArray]. rewrite !Hget. cbn [isArray negb].
  rewrite Hget.
  assert (Hx : sparse_tasks (push (JArr es []) (task_literal (JStr []) false)) = true).
  { cbn [push sparse_tasks]. rewrite forallb_app, Hes. cbn [forallb task_or_hole].
    by rewrite canonical_task_literal. }
  rewrite renderDepartmentGroups_sparse by (by apply sparse_set).
  by eexists.
Qed.

Lemma visited_slots_In es j i t :
  In (i, t) (visited_slots es j) -> is_array_index i = true /\ In (Some t) es.
Proof.
  revert j. induction es as [|[x|] es IH]; intros j; simpl; [done| |].
  - destruct (is_array_index j) eqn:Hj.
    + intros [[= -> ->]|H]; [by split; [|left]|].
      destruct (IH _ H). split; [done|by right].
    + intros H. destruct (IH _ H). split; [done|by right].
  - intros H. destruct (IH _ H). split; [done|by right].
Qed.

(** The elements a render creates sit on Tasks of the store. *)
Lemma created_elements_sparse ps d i t :
  sparse_collection (JObj ps) = true ->
  In (d, i, t) (created_elements (JObj ps)) ->
  has_own (JObj ps) d = true /\ is_array_index i = true /\ canonical_task t = true.
Proof.
  intros Hs Hin. unfold created_elements in Hin.
  apply in_flat_map in Hin as ([k v] & Hkv & Hin). cbn [own_enumerable] in Hkv.
  cbn [fst snd] in Hin.
  assert (Hv : sparse_tasks v = true).
  { cbn [sparse_collection] in Hs. rewrite forallb_forall in Hs. apply (Hs _ Hkv). }
  destruct v as [| | | | |es named|]; try discriminate.
  destruct named; [|discriminate]. cbn [truthy isArray andb] in Hin.
  apply in_map_iff in Hin as ([j x] & Heq & Hjx). cbn [fst snd] in Heq.
  injection Heq as -> -> ->.
  apply visited_slots_In in Hjx as [Hi Hx].
  split; [|split; [done|]].
  - unfold has_own. apply bool_decide_eq_true. apply list_elem_of_In.
    apply in_map_iff. by exists (d, JArr es []).
  - cbn [sparse_tasks] in Hv. rewrite forallb_forall in Hv. apply (Hv _ Hx).
Qed.

(** A render of a sparse store creates its elements without an error. *)
Lemma show_page_ok store store' render groups elements timers :
  page_ok (mkPage store render groups elements timers) ->
  sparse_collection store' = true ->
  (forall k, has_own store k = true -> has_own store' k = true) ->
  exists p', show store' render timers = Shown p' /\ page_store p' = store' /\ page_ok p'.
Proof.
  intros (_ & _ & _ & Htimers) Hs Hkeys. cbn [page_store page_timers] in Htimers.
  destruct store' as [| | | | | |ps]; try discriminate.
  unfold show. cbv zeta.
  assert (existsb (fun e : jstring * Z * JSValue =>
                     match initially_flagged e.2 with
                     | Throw _ => true
                     | Return _ => false
                     end) (created_elements (JObj ps)) = false) as ->.
  { apply not_true_is_false. intros ([[d i] t] & Hin & Hthrow)%existsb_exists.
    destruct (created_elements_sparse _ _ _ _ Hs Hin) as (_ & _ & Ht).
    destruct (canonical_task_inv _ Ht) as (s & b & ->). cbn [snd] in Hthrow.
    by rewrite initially_flagged_string in Hthrow. }
  eexists. split; [done|]. split; [done|].
  split; [done|]. cbn [page_store page_groups page_elements page_timers].
  split; [|split].
  - intros d Hd. unfold has_own. by apply bool_decide_eq_true.
  - intros d i Hin. apply list_elem_of_In, in_map_iff in Hin as ([[d' i'] t] & Heq & Hin).
    cbn [fst] in Heq. injection Heq as -> ->.
    destruct (created_elements_sparse _ _ _ _ Hs Hin) as (Ho & Hi & _). by split.
  - intros t Ht. destruct (Htimers t Ht) as [Ho Hi]. split; [by apply Hkeys|done].
Qed.

(** A listener that changes the store without a render. *)
Lemma page_ok_store store store' render groups elements timers timers' :
  page_ok (mkPage store render groups elements timers) ->
  sparse_collection store' = true ->
  (forall k, has_own store k = true -> has_own store' k = true) ->
  (forall t, t ∈ timers' ->
     t ∈ timers \/ (timer_department t, timer_index t) ∈ elements) ->
  page_ok (mkPage store' render groups elements timers').
Proof.
  intros (_ & Hgroups & Helements & Htimers) Hs Hkeys Hsub.
  cbn [page_store page_groups page_elements page_timers] in *.
  split; [done|]. cbn [page_store page_groups page_elements page_timers].
  split; [|split].
  - intros d Hd. by apply Hkeys, Hgroups.
  - intros d i Hin. destruct (Helements d i Hin) as [Ho Hi]. split; [by apply Hkeys|done].
  - intros t Ht. destruct (Hsub t Ht) as [Hin|Hin].
    + destruct (Htimers t Hin) as [Ho Hi]. split; [by apply Hkeys|done].
    + destruct (Helements _ _ Hin) as [Ho Hi]. split; [by apply Hkeys|done].
Qed.

Lemma filter_elem (f : Timer -> bool) t timers : t ∈ List.filter f timers -> t ∈ timers.
Proof. rewrite !list_elem_of_In, filter_In. by intros [? _]. Qed.

(** Every listener and every timer callback keeps the page in order. *)
Lemma step_page_ok p e o :
  page_ok p -> step p e = Some o -> exists p', o = Shown p' /\ page_ok p'.
Proof.
  intros Hok. pose proof Hok as (Hs & Hgroups & Helements & Htimers).
  destruct p as [store render groups elements timers].
  cbn [page_store page_groups page_elements page_timers] in *.
  destruct store as [| | | | | |ps]; try discriminate.
  destruct e as [d|d i|d i checked|d i value|d i|n];
    unfold step;
    cbv beta iota zeta
      delta [page_store page_groups page_elements page_timers page_render].
  - case_bool_decide as Hd; [|done]. intros <-%(inj Some).
    destruct (addTask_sparse ps d Hs (Hgroups d Hd)) as (x & -> & Hx).
    destruct (sparse_set ps d x Hs Hx) as [Hs' Hkeys].
    destruct (show_page_ok _ _ render _ _ _ Hok Hs' Hkeys) as (p' & Hp' & _ & Hok').
    by exists p'.
  - case_bool_decide as Hd; [|done]. destruct (Helements d i Hd) as [Ho Hi].
    destruct (removeTask_sparse ps d i Hs Ho) as (-> & x & -> & Hx).
    intros <-%(inj Some).
    destruct (sparse_set ps d x Hs Hx) as [Hs' Hkeys].
    destruct (show_page_ok _ _ render _ _ _ Hok Hs' Hkeys) as (p' & Hp' & _ & Hok').
    by exists p'.
  - case_bool_decide as Hd; [|done]. destruct (Helements d i Hd) as [Ho Hi].
    destruct (updateTaskCompletionInData_sparse ps d i (JBool checked) Hs Ho Hi)
      as (x & -> & Hx).
    intros <-%(inj Some). destruct (sparse_set ps d x Hs Hx) as [Hs' Hkeys].
    eexists. split; [done|]. apply (page_ok_store _ _ _ _ _ _ _ Hok Hs' Hkeys). auto.
  - case_bool_decide as Hd; [|done]. destruct (Helements d i Hd) as [Ho Hi].
    destruct (updateTaskTextInData_sparse ps d i value Hs Ho Hi) as (x & -> & Hx).
    intros <-%(inj Some). destruct (sparse_set ps d x Hs Hx) as [Hs' Hkeys].
    eexists. split; [done|]. apply (page_ok_store _ _ _ _ _ _ _ Hok Hs' Hkeys).
    intros t [Ht|Ht]%elem_of_app.
    + left. by eapply filter_elem.
    + right. apply list_elem_of_singleton in Ht as ->. done.
  - case_bool_decide as Hd; [|done]. intros <-%(inj Some).
    eexists. split; [done|]. apply (page_ok_store _ _ _ _ _ _ _ Hok Hs); [done|].
    intros t Ht. left. by eapply filter_elem.
  - destruct (timers !! n) as [t|] eqn:Hn; [|done].
    destruct (Htimers t (list_elem_of_lookup_2 _ _ _ Hn)) as [Ho Hi].
    destruct (isValid (validateTaskText (JStr (timer_value t)))).
    + destruct (updateTaskTextInData_sparse ps _ _ (timer_value t) Hs Ho Hi)
        as (x & -> & Hx).
      intros <-%(inj Some). destruct (sparse_set ps (timer_department t) x Hs Hx) as [Hs' Hkeys].
      eexists. split; [done|]. apply (page_ok_store _ _ _ _ _ _ _ Hok Hs' Hkeys).
      intros t' Ht'. left. by eapply list_elem_of_delete_inv.
    + intros <-%(inj Some).
      eexists. split; [done|]. apply (page_ok_store _ _ _ _ _ _ _ Hok Hs); [done|].
      intros t' Ht'. left. by eapply list_elem_of_delete_inv.
Qed.

Lemma run_page_ok p events o :
  page_ok p -> run p events = Some o -> exists p', o = Shown p' /\ page_ok p'.
Proof.
  revert p. induction events as [|e events IH]; intros p Hok; cbn [run].
  - intros [= <-]. by exists p.
  - destruct (step p e) as [o'|] eqn:Hstep; [|done].
    destruct (step_page_ok _ _ _ Hok Hstep) as (p' & -> & Hok').
    by apply IH.
Qed.

(** The page a parse opens. *)
Lemma open_page_ok (entries : list (jstring * list jstring)) seed :
  convertTasksToObjects (string_departments entries) = Ordinary seed ->
  exists p, open_page seed = Shown p /\ page_store p = seed /\ page_ok p.
Proof.
  intros Hseed.
  assert (Hs : sparse_collection seed = true).
  { apply canonical_sparse.
    destruct (assoc proto_key (map (fun kv => (kv.1, string_array kv.2)) entries))
      as [v|] eqn:E.
    - unfold string_departments, convertTasksToObjects in Hseed.
      cbn [truthy typeof_is_object negb orb own_enumerable] in Hseed.
      by rewrite E in Hseed.
    - apply assoc_none_iff in E. rewrite map_map in E. cbn [fst] in E.
      destruct (seed_canonical entries E) as (seed' & Hseed' & Hcan). congruence. }
  unfold open_page. rewrite (renderDepartmentGroups_sparse _ Hs).
  assert (Hok : page_ok (mkPage seed 0 [] [] [])).
  { split; [done|]. cbn [page_groups page_elements page_timers].
    split; [|split]; intros; by exfalso; eapply not_elem_of_nil. }
  destruct (show_page_ok _ _ 0%nat _ _ _ Hok Hs (fun _ H => H)) as (p & Hp & Hst & Hok').
  by exists p.
Qed.

(** X21.  The store invariant.  A parse whose object has no key
    [__proto__] seeds the store; the page then shows it (no debounce timer
    being armed), and from there every sequence of clicks on the add and
    delete controls, of changes of the checkboxes, of input and blur events
    on the text fields shown, and of callbacks of the debounce timers that
    the input listeners armed - those of elements a later render has
    replaced among them - ends with the page shown: no listener raises a
    [TypeError], the prototype of the store is never replaced, every
    department is an array without named properties whose filled slots are
    [{ text, completed }] literals with a string text and a boolean flag,
    and a render changes nothing in the store.  The arrays may have holes:
    a timer writes at the index its element had when it was created. *)
Theorem store_invariant (entries : list (jstring * list jstring)) (seed : JSValue) :
  convertTasksToObjects (string_departments entries) = Ordinary seed ->
  (exists p0, open_page seed = Shown p0 /\ page_store p0 = seed)
  /\ forall events outcome,
       session seed events = Some outcome ->
       exists p,
         outcome = Shown p
         /\ sparse_collection (page_store p) = true
         /\ renderDepartmentGroups (page_store p) = page_store p.
Proof.
  intros Hseed. destruct (open_page_ok entries seed Hseed) as (p0 & Hopen & Hst & Hok).
  split; [by exists p0|].
  intros events outcome. unfold session. rewrite Hopen. intros Hrun.
  destruct (run_page_ok _ _ _ Hok Hrun) as (p & -> & Hp).
  exists p. split; [done|]. destruct Hp as (Hs & _).
  split; [done|]. by apply renderDepartmentGroups_sparse.
Qed.

Lemma store_invariant_witness :
  exists p,
    Shown {| page_store :=
               JObj [(u "Brand",
                      JArr [Some (task_literal (JStr (u "c")) false);
                            Some (task_literal (JStr (u "dd")) false);
                            None;
                            Some (task_literal (JStr (u "dd")) false)] [])];
             page_render := 3;
             page_groups := [u "Brand"];
             page_elements := [(u "Brand", 0); (u "Brand", 1)];
             page_timers := [] |} = Shown p
    /\ sparse_collection (page_store p) = true
    /\ renderDepartmentGroups (page_store p) = page_store p.
Proof.
  apply (proj2 (store_invariant
                  [(u "Brand", [u "a"; u "b"; u "c"; u "d"])]
                  (JObj [(u "Brand",
                          task_array [(u "a", false); (u "b", false);
                                      (u "c", false); (u "d", false)])])
                  eq_refl)
           [TextInput (u "Brand") 3 (u "dd"); DeleteClick (u "Brand") 0;
            DeleteClick (u "Brand") 0; TimerFires 0]).
  vm_compute. reflexivity.
Defined.

(* ===================================================================== *)
(** ** The fence pattern finds the first fenced block *)
(* ===================================================================== *)

Lemma ws_not_backtick x : is_ws x = true -> (backtick =? x)%N = false.
Proof.
  intros H. destruct (N.eqb_spec backtick x) as [<-|]; [|done].
  vm_compute in H. discriminate H.
Qed.

Lemma starts_with_fence_ws x s : is_ws x = true -> starts_with fence (x :: s) = false.
Proof. intros H. unfold fence. cbn [starts_with]. by rewrite (ws_not_backtick _ H). Qed.

Lemma trimStart_split s : exists w, s = w ++ trimStart s /\ forallb is_ws w = true.
Proof.
  induction s as [|c s IH]; simpl; [by exists []|].
  destruct (is_ws c) eqn:E.
  - destruct IH as (w & Hw & Hws). exists (c :: w). simpl. rewrite E.
    split; [by f_equal|done].
  - by exists [].
Qed.

Lemma trimStart_head_visible s c r : trimStart s = c :: r -> is_ws c = false.
Proof.
  induction s as [|a s IH]; simpl; [done|].
  destruct (is_ws a) eqn:E; [exact IH|]. by intros [= <- _].
Qed.

Lemma closes_ws_prefix w s : forallb is_ws w = true -> closes (w ++ s) = closes s.
Proof. intros H. unfold closes. by rewrite trimStart_ws_prefix. Qed.

Lemma closes_visible c s :
  is_ws c = false -> closes (c :: s) = starts_with fence (c :: s).
Proof. intros H. unfold closes. by rewrite trimStart_head. Qed.

(** [\s*```] at the end of the pattern: the blanks are skipped and a fence
    must follow. *)
Lemma closing_spec (c s : jstring) :
  star_greedy is_ws (lit fence (fun _ => Some c)) s = if closes s then Some c else None.
Proof.
  unfold closes. induction s as [|x s IH]; [done|].
  cbn [star_greedy trimStart]. destruct (is_ws x) eqn:Hx.
  - rewrite IH. destruct (starts_with fence (trimStart s)); [done|].
    unfold lit. by rewrite (starts_with_fence_ws _ _ Hx).
  - unfold lit. by destruct (starts_with fence (x :: s)).
Qed.

(** [([\s\S]*?)] stops at the first place from which the rest of the
    pattern matches. *)
Lemma lazy_first cap s r :
  star_lazy_capture (fun _ => true)
    (fun cap => star_greedy is_ws (lit fence (fun _ => Some cap))) cap s = Some r ->
  exists m s',
    s = m ++ s' /\ r = cap ++ m /\ closes s' = true
    /\ forall m1 m2, m = m1 ++ m2 -> m2 <> [] -> closes (m2 ++ s') = false.
Proof.
  revert cap. induction s as [|x s IH]; intros cap;
    cbn [star_lazy_capture]; rewrite closing_spec.
  - destruct (closes []) eqn:E; [|done]. intros [= <-].
    exists [], []. rewrite app_nil_r.
    split; [done|split; [done|split; [done|]]].
    intros m1 m2 H. by destruct m1, m2.
  - destruct (closes (x :: s)) eqn:E.
    + intros [= <-]. exists [], (x :: s). rewrite app_nil_r.
      split; [done|split; [done|split; [done|]]].
      intros m1 m2 H. by destruct m1, m2.
    + intros H. destruct (IH _ H) as (m & s' & -> & -> & Hc & Hmin).
      exists (x :: m), s'. rewrite <- app_assoc.
      split; [done|split; [done|split; [done|]]].
      intros [|y m1] m2 Hm Hne; simpl in Hm.
      * subst m2. exact E.
      * injection Hm as <- Hm. by apply (Hmin m1 m2).
Qed.

Lemma lazy_complete cap m s' :
  closes s' = true ->
  is_Some (star_lazy_capture (fun _ => true)
             (fun cap => star_greedy is_ws (lit fence (fun _ => Some cap)))
             cap (m ++ s')).
Proof.
  intros H. apply star_lazy_capture_complete. rewrite closing_spec, H. eauto.
Qed.

Lemma lazy_none cap s :
  star_lazy_capture (fun _ => true)
    (fun cap => star_greedy is_ws (lit fence (fun _ => Some cap))) cap s = None ->
  forall m s', s = m ++ s' -> closes s' = false.
Proof.
  intros H m s' ->. destruct (closes s') eqn:E; [|done].
  destruct (lazy_complete cap m s' E) as [r Hr]. congruence.
Qed.

(** A place from which the pattern closes lies in the text after its
    leading blanks, or those blanks lead up to it. *)
Lemma closes_after_blanks s m s' :
  s = m ++ s' -> closes s' = true ->
  exists m0 s0, trimStart s = m0 ++ s0 /\ closes s0 = true.
Proof.
  intros Hs Hc. destruct (trimStart_split s) as (w & Hw & Hws).
  remember (trimStart s) as ts eqn:Hts. clear Hts. subst s.
  apply app_eq_inv in Hw as [(k & -> & ->)|(k & -> & ->)].
  - exists k, s'. done.
  - exists [], ts. split; [done|].
    rewrite forallb_app in Hws. apply andb_prop in Hws as [_ Hk].
    by rewrite <- (closes_ws_prefix k ts Hk).
Qed.

(** [\s*] before the capture takes all the blanks. *)
Lemma greedy_then_lazy s :
  star_greedy is_ws
    (star_lazy_capture (fun _ => true)
       (fun cap => star_greedy is_ws (lit fence (fun _ => Some cap))) []) s
  = star_lazy_capture (fun _ => true)
      (fun cap => star_greedy is_ws (lit fence (fun _ => Some cap))) [] (trimStart s).
Proof.
  induction s as [|x s IH]; [done|].
  cbn [star_greedy trimStart]. destruct (is_ws x) eqn:Hx; [|done].
  rewrite IH.
  destruct (star_lazy_capture _ _ [] (trimStart s)) as [r|] eqn:E; [done|].
  destruct (star_lazy_capture _ _ [] (x :: s)) as [r|] eqn:E2; [|done].
  exfalso. apply lazy_first in E2 as (m & s' & Hs & _ & Hc & _).
  destruct (closes_after_blanks _ _ _ Hs Hc) as (m0 & s0 & Hts & Hc0).
  simpl in Hts. rewrite Hx in Hts.
  by rewrite (lazy_none _ _ E m0 s0 Hts) in Hc0.
Qed.

Lemma fence_free_blank w rest : forallb is_ws w = true -> fence_free_before w rest.
Proof.
  intros Hw a1 a2 -> Hne. rewrite forallb_app in Hw.
  apply andb_prop in Hw as [_ Ha2]. destruct a2 as [|c a2]; [done|].
  simpl in Ha2. apply andb_prop in Ha2 as [Hc _].
  by apply starts_with_fence_ws.
Qed.

Lemma fence_free_app a b rest :
  fence_free_before a (b ++ rest) -> fence_free_before b rest ->
  fence_free_before (a ++ b) rest.
Proof.
  intros Ha Hb a1 a2 Heq Hne.
  apply app_eq_inv in Heq as [(k & -> & ->)|(k & -> & ->)].
  - destruct k as [|c k].
    + rewrite app_nil_l in *. by apply (Hb [] b).
    + rewrite <- app_assoc. by apply (Ha a1 (c :: k)).
  - by apply (Hb k a2).
Qed.

Lemma fence_free_minimal m s' :
  (forall m1 m2, m = m1 ++ m2 -> m2 <> [] -> closes (m2 ++ s') = false) ->
  fence_free_before m s'.
Proof.
  intros Hmin m1 m2 Hm Hne. destruct m2 as [|c m2]; [done|].
  destruct (is_ws c) eqn:Hc; [by apply starts_with_fence_ws|].
  specialize (Hmin m1 (c :: m2) Hm Hne). simpl in Hmin.
  by rewrite closes_visible in Hmin.
Qed.

Lemma snoc_cases {A : Type} (l : list A) : l = [] \/ exists r x, l = r ++ [x].
Proof.
  induction l as [|a l IH]; [by left|]. right.
  destruct IH as [->|(r & x & ->)]; [by exists [], a|by exists (a :: r), x].
Qed.

Lemma trim_fixed m :
  (forall c r, m = c :: r -> is_ws c = false) ->
  (forall r c, m = r ++ [c] -> is_ws c = false) ->
  trim m = m.
Proof.
  intros Hfirst Hlast. destruct m as [|c r]; [done|].
  pose proof (trim_visible [] c r (Hfirst c r eq_refl)) as Ht. simpl in Ht.
  rewrite Ht. f_equal.
  destruct (snoc_cases r) as [->|(r' & c' & ->)]; [done|].
  pose proof (trimEnd_ws_suffix r' c' [] (Hlast (c :: r') c' eq_refl) eq_refl) as He.
  by rewrite app_nil_r in He.
Qed.

(** After the opening fence and its tag: the content runs to the next
    fence and is captured without the blanks around it. *)
Lemma capture_to_next_fence r cap :
  star_greedy is_ws
    (star_lazy_capture (fun _ => true)
       (fun cap => star_greedy is_ws (lit fence (fun _ => Some cap))) []) r = Some cap ->
  exists body post,
    r = body ++ fence ++ post
    /\ fence_free_before body (fence ++ post)
    /\ cap = trim body.
Proof.
  rewrite greedy_then_lazy. intros H.
  apply lazy_first in H as (m & s' & Hts & -> & Hc & Hmin). rewrite app_nil_l.
  destruct (trimStart_split r) as (w1 & Hr & Hw1).
  destruct (trimStart_split s') as (w2 & Hs' & Hw2).
  unfold closes in Hc. apply starts_with_inv in Hc.
  set (post := drop (length fence) (trimStart s')) in Hc.
  exists (w1 ++ m ++ w2), post.
  assert (Hs'' : s' = w2 ++ fence ++ post) by (by rewrite <- Hc).
  split; [|split].
  - rewrite Hr, Hts, Hs''. by rewrite <- !app_assoc.
  - apply fence_free_app; [by apply fence_free_blank|].
    apply fence_free_app; [|by apply fence_free_blank].
    rewrite <- Hs''. by apply fence_free_minimal.
  - rewrite trim_padding by done. symmetry. apply trim_fixed.
    + intros c r0 ->. by apply (trimStart_head_visible r c (r0 ++ s')).
    + intros r0 c ->. destruct (is_ws c) eqn:E; [|done].
      specialize (Hmin r0 [c] eq_refl ltac:(done)).
      rewrite (closes_ws_prefix [c] s') in Hmin by (simpl; by rewrite E).
      unfold closes in Hmin. rewrite Hc in Hmin.
      rewrite starts_with_app in Hmin. by apply Hmin.
Qed.

Lemma json_suffix_closes m k r' :
  u "json" = m ++ k -> k <> [] -> closes (k ++ r') = false.
Proof.
  intros H Hne.
  destruct m as [|a [|b [|c [|d [|e m]]]]]; simplify_eq/=; try done.
Qed.

(** A [json] after the opening fence is always taken as the tag. *)
Lemma tag_is_taken r' :
  star_greedy is_ws
    (star_lazy_capture (fun _ => true)
       (fun cap => star_greedy is_ws (lit fence (fun _ => Some cap))) []) r' = None ->
  star_greedy is_ws
    (star_lazy_capture (fun _ => true)
       (fun cap => star_greedy is_ws (lit fence (fun _ => Some cap))) [])
    (u "json" ++ r') = None.
Proof.
  rewrite !greedy_then_lazy. intros Hnone.
  change (trimStart (u "json" ++ r')) with (u "json" ++ r').
  destruct (star_lazy_capture _ _ [] (u "json" ++ r')) as [cap|] eqn:E; [|done].
  exfalso. apply lazy_first in E as (m & s' & Hs & _ & Hc & _).
  apply app_eq_inv in Hs as [(k & Hj & ->)|(k & -> & Hr')].
  - destruct k as [|c k].
    + destruct (closes_after_blanks r' [] r' eq_refl Hc) as (m0 & s0 & Hts & Hc0).
      by rewrite (lazy_none _ _ Hnone m0 s0 Hts) in Hc0.
    + by rewrite (json_suffix_closes m (c :: k) r' Hj) in Hc.
  - destruct (closes_after_blanks r' k s' Hr' Hc) as (m0 & s0 & Hts & Hc0).
    by rewrite (lazy_none _ _ Hnone m0 s0 Hts) in Hc0.
Qed.

(** A match at an opening fence. *)
Lemma fence_regex_at_first rest cap :
  fence_regex_at (fence ++ rest) = Some cap ->
  exists tag body post,
    rest = tag ++ body ++ fence ++ post
    /\ (tag = u "json"
        \/ (tag = [] /\ starts_with (u "json") (body ++ fence ++ post) = false))
    /\ fence_free_before body (fence ++ post)
    /\ cap = trim body.
Proof.
  unfold fence_regex_at. rewrite lit_app. unfold opt_greedy.
  destruct (lit (u "json") _ rest) as [cap'|] eqn:Hj.
  - intros [= ->]. apply lit_inv in Hj as (r' & -> & Hcap).
    destruct (capture_to_next_fence _ _ Hcap) as (body & post & -> & Hfree & ->).
    exists (u "json"), body, post. auto.
  - intros Hcap.
    destruct (capture_to_next_fence _ _ Hcap) as (body & post & -> & Hfree & ->).
    exists [], body, post. split; [done|split; [|done]]. right. split; [done|].
    destruct (starts_with (u "json") (body ++ fence ++ post)) eqn:Es; [|done].
    exfalso. apply starts_with_inv in Es. rewrite Es in Hj, Hcap.
    rewrite lit_app in Hj. by rewrite (tag_is_taken _ Hj) in Hcap.
Qed.

(** The leftmost position at which the pattern matches is the leftmost
    fence of the text. *)
Lemma fence_regex_match_first t cap :
  fence_regex_match t = Some cap ->
  exists pre rest,
    t = pre ++ fence ++ rest
    /\ fence_free_before pre (fence ++ rest)
    /\ fence_regex_at (fence ++ rest) = Some cap.
Proof.
  induction t as [|x t IH]; [done|].
  cbn [fence_regex_match]. destruct (fence_regex_at (x :: t)) as [c|] eqn:E.
  - intros [= ->]. pose proof E as E'. unfold fence_regex_at in E'.
    apply lit_inv in E' as (rest & Hrest & _).
    exists [], rest. rewrite <- Hrest. split; [done|split; [|done]].
    intros a1 a2 H. by destruct a1, a2.
  - intros H. destruct (IH H) as (pre & rest & -> & Hfree & Hat).
    exists (x :: pre), rest. split; [done|split; [|done]].
    intros [|y a1] a2 Ha Hne; simpl in Ha.
    + subst a2.
      destruct (starts_with fence ((x :: pre) ++ fence ++ rest)) eqn:Es; [|done].
      exfalso.
      apply fence_regex_at_inv in Hat
        as (tag & ws1 & ws2 & post & Hrest & _ & _ & _).
      apply app_inv_head in Hrest. subst rest.
      apply starts_with_inv in Es.
      assert (Hdrop : drop (length fence)
                        ((x :: pre) ++ fence ++ tag ++ ws1 ++ cap ++ ws2 ++ fence ++ post)
                      = drop (length fence)
                          ((x :: pre) ++ fence ++ tag ++ ws1 ++ cap ++ ws2)
                          ++ fence ++ post).
      { rewrite <- drop_app_le.
        - f_equal. by rewrite <- !app_assoc.
        - rewrite !length_app. simpl. lia. }
      rewrite Hdrop in Es.
      destruct (fence_regex_at_complete
                  (drop (length fence)
                     ((x :: pre) ++ fence ++ tag ++ ws1 ++ cap ++ ws2)) post) as [r Hr].
      rewrite <- Es in Hr. simpl in Hr, E. congruence.
    + injection Ha as <- Ha. by apply (Hfree a1 a2).
Qed.

(** The pattern's capture is the content of the first fenced block. *)
Lemma fence_regex_match_first_block t cap :
  fence_regex_match t = Some cap -> first_fenced_block t cap.
Proof.
  intros H. destruct (fence_regex_match_first _ _ H) as (pre & rest & -> & Hfree & Hat).
  destruct (fence_regex_at_first _ _ Hat) as (tag & body & post & -> & Htag & Hbody & ->).
  by exists pre, tag, body, post.
Qed.

Lemma fence_free_unique a rest a' rest' :
  a ++ fence ++ rest = a' ++ fence ++ rest' ->
  fence_free_before a (fence ++ rest) -> fence_free_before a' (fence ++ rest') ->
  a = a' /\ rest = rest'.
Proof.
  intros Heq Ha Ha'.
  apply app_eq_inv in Heq as [(k & -> & Hk)|(k & -> & Hk)].
  - destruct k as [|c k].
    + rewrite app_nil_r. split; [done|]. symmetry. exact (app_inv_head fence _ _ Hk).
    + specialize (Ha a' (c :: k) eq_refl ltac:(done)).
      rewrite <- Hk, starts_with_app in Ha. discriminate Ha.
  - destruct k as [|c k].
    + rewrite app_nil_r. split; [done|]. exact (app_inv_head fence _ _ Hk).
    + specialize (Ha' a (c :: k) eq_refl ltac:(done)).
      rewrite <- Hk, starts_with_app in Ha'. discriminate Ha'.
Qed.

(** A text has one first fenced block at most. *)
Lemma first_fenced_block_unique t c c' :
  first_fenced_block t c -> first_fenced_block t c' -> c = c'.
Proof.
  intros (pre & tag & body & post & Ht & Hpre & Htag & Hbody & ->)
         (pre' & tag' & body' & post' & Ht' & Hpre' & Htag' & Hbody' & ->).
  rewrite Ht in Ht'.
  destruct (fence_free_unique _ _ _ _ Ht' Hpre Hpre') as [_ Hrest].
  assert (Hb : body ++ fence ++ post = body' ++ fence ++ post').
  { destruct Htag as [->|[-> Hno]], Htag' as [->|[-> Hno']].
    - by apply app_inv_head in Hrest.
    - rewrite app_nil_l in Hrest. rewrite <- Hrest, starts_with_app in Hno'.
      discriminate Hno'.
    - rewrite app_nil_l in Hrest. rewrite Hrest, starts_with_app in Hno.
      discriminate Hno.
    - done. }
  by destruct (fence_free_unique _ _ _ _ Hb Hbody Hbody') as [-> _].
Qed.

Lemma first_fenced_block_pair t c : first_fenced_block t c -> has_fence_pair t.
Proof.
  intros (pre & tag & body & post & -> & _). exists pre, (tag ++ body), post.
  by rewrite <- !app_assoc.
Qed.

Lemma first_fenced_block_trimmed t c : first_fenced_block t c -> trim c = c.
Proof. intros (pre & tag & body & post & _ & _ & _ & _ & ->). apply trim_idem. Qed.

Lemma first_fence_step_unique x t t' :
  first_fence_step x t -> first_fence_step x t' -> t = t'.
Proof.
  intros [(c & Hc & ->)|[Hno ->]] [(c' & Hc' & ->)|[Hno' ->]].
  - by apply (first_fenced_block_unique x).
  - destruct Hno'. by apply (first_fenced_block_pair _ c).
  - destruct Hno. by apply (first_fenced_block_pair _ c').
  - done.
Qed.

(** The fence step of the matcher is the fence step stated without it. *)
Lemma fence_step_first x t : fence_step x t -> first_fence_step x t.
Proof.
  intros [(cap & Hm & _ & ->)|(_ & Hno & ->)]; [|by right].
  left. exists cap. pose proof (fence_regex_match_first_block _ _ Hm) as Hb.
  split; [done|]. by apply (first_fenced_block_trimmed x).
Qed.

(** C2, as the code has it.
    The extractor of src/index.js trims the text.  When the trimmed text
    holds two fences it is replaced by the content of its first fenced
    block: the block opens at the leftmost fence, a [json] directly after
    that fence is its tag, the block runs up to the next fence, and its
    content is taken without the blanks around it; a text holds at most one
    such block.  Then, in either case, the extractor returns the inclusive
    stretch from the first opening brace to the last closing brace when
    there is one, and the text as it stands otherwise: missing braces do
    not make it fail, only the empty string does.
    The extractor of server.js neither trims nor looks for fences: it
    returns that stretch of the raw text, and fails exactly when there is
    no opening brace, no closing brace, or the last closing brace comes
    before the first opening one. *)
Theorem extract_behaviour (s : jstring) :
  (s <> [] ->
   exists t, first_fence_step (trim s) t
     /\ (forall t', first_fence_step (trim s) t' -> t' = t)
     /\ ((exists r, brace_span t r
            /\ index_js.extractJsonFromResponse (JStr s) = Return r)
         \/ (no_object_boundaries t
             /\ index_js.extractJsonFromResponse (JStr s) = Return t)))
  /\ index_js.extractJsonFromResponse (JStr [])
     = Throw (Error (u "Invalid response: expected string content"))
  /\ (no_object_boundaries s
      <-> server_js.extractJsonFromResponse s
          = Throw (Error (u "No JSON object found in Gemini response")))
  /\ (forall r, brace_span s r <-> server_js.extractJsonFromResponse s = Return r).
Proof.
  split; [|split; [reflexivity|split]].
  - intros Hs. destruct (fence_step_total (trim s)) as [t Ht].
    pose proof (fence_step_first _ _ Ht) as Hfirst.
    exists t. split; [done|split].
    + intros t' Ht'. by apply (first_fence_step_unique (trim s)).
    + by apply index_extract_narrow.
  - destruct (server_extract_cases s) as [(r & Hspan & Hr)|[Hno Hthrow]].
    + split; [|by rewrite Hr]. intros Hno. by destruct (brace_span_excludes _ _ Hspan).
    + by split.
  - intros r. destruct (server_extract_cases s) as [(r' & Hspan & Hr)|[Hno Hthrow]].
    + split.
      * intros Hspan'. by rewrite Hr, (brace_span_unique _ _ _ Hspan Hspan').
      * rewrite Hr. by intros [= <-].
    + split; [|by rewrite Hthrow].
      intros Hspan. by destruct (brace_span_excludes _ _ Hspan).
Qed.

Lemma extract_behaviour_witness :
  exists t, first_fence_step (trim (fence ++ u "json {x} " ++ fence ++ u "{y}" ++ fence)) t
    /\ (forall t',
          first_fence_step (trim (fence ++ u "json {x} " ++ fence ++ u "{y}" ++ fence)) t'
          -> t' = t)
    /\ ((exists r, brace_span t r
           /\ index_js.extractJsonFromResponse
                (JStr (fence ++ u "json {x} " ++ fence ++ u "{y}" ++ fence)) = Return r)
        \/ (no_object_boundaries t
            /\ index_js.extractJsonFromResponse
                 (JStr (fence ++ u "json {x} " ++ fence ++ u "{y}" ++ fence)) = Return t)).
Proof.
  apply (proj1 (extract_behaviour (fence ++ u "json {x} " ++ fence ++ u "{y}" ++ fence))).
  discriminate.
Defined.

Lemma no_braces_in_sample : no_object_boundaries (u "no braces").
Proof.
  left. intros Hin.
  repeat (apply elem_of_cons in Hin as [Hin|Hin]; [discriminate Hin|]).
  by apply elem_of_nil in Hin.
Qed.

(** C2 as stated fails.  On a text without braces the extractor of
    src/index.js does not fail but returns the text; and the extractor of
    server.js does not take the content of a fenced block. *)
Lemma extract_without_braces_returns :
  (no_object_boundaries (u "no braces")
   /\ index_js.extractJsonFromResponse (JStr (u "no braces")) = Return (u "no braces"))
  /\ (fence_regex_match (u "{ " ++ fence ++ u "x" ++ fence ++ u " }") = Some (u "x")
      /\ server_js.extractJsonFromResponse (u "{ " ++ fence ++ u "x" ++ fence ++ u " }")
         = Return (u "{ " ++ fence ++ u "x" ++ fence ++ u " }")).
Proof.
  split; [split; [exact no_braces_in_sample|reflexivity]|split; reflexivity].
Qed.

(** The three samples of the design document's testable property 3. *)
Example extract_fenced_sample :
  index_js.extractJsonFromResponse
    (JStr (fence ++ u "json" ++ [newline] ++ u "{" ++ [dquote] ++ u "Marketing"
             ++ [dquote] ++ u ":[]}" ++ [newline] ++ fence))
  = Return (u "{" ++ [dquote] ++ u "Marketing" ++ [dquote] ++ u ":[]}").
Proof. reflexivity. Qed.

Example extract_prose_sample :
  index_js.extractJsonFromResponse
    (JStr (u "prefix {" ++ [dquote] ++ u "A" ++ [dquote] ++ u ":[" ++ [dquote] ++ u "x"
             ++ [dquote] ++ u "]} suffix"))
  = Return (u "{" ++ [dquote] ++ u "A" ++ [dquote] ++ u ":[" ++ [dquote] ++ u "x"
              ++ [dquote] ++ u "]}").
Proof. reflexivity. Qed.

Example extract_no_braces_sample :
  server_js.extractJsonFromResponse (u "no braces")
  = Throw (Error (u "No JSON object found in Gemini response")).
Proof. reflexivity. Qed.

(** Of two blocks the first is taken, and it ends at the next fence. *)
Example extract_first_of_two_blocks :
  index_js.extractJsonFromResponse
    (JStr (fence ++ u "json {x} " ++ fence ++ u "{y}" ++ fence))
  = Return (u "{x}").
Proof. reflexivity. Qed.
